(** * Time-shaper feature-extraction engine: shallow embedding and properties

    The development follows four source units of the repository:
    - the AudioWorklet processor [TimeShaperProcessor] (module [Worklet]),
    - the batch audio service [AudioEngine] (module [AudioEngine]),
    - the batch video service [VideoEngine] (module [VideoEngine]),
    - the single-flight request queue that both services carry
      (module [Coordinator]).

    Numbers.  JavaScript numbers are IEEE doubles.  Integer-valued
    quantities (pixel bytes, counts, indices, quantized colours) are
    modelled in [Z] and [nat], where double arithmetic is exact.
    Quantities built from them with field operations and [Math.round] only
    (onset times, tempo, scene times, colour statistics, block errors) are
    modelled as rationals ([Q]) and stay executable.  Quantities built with
    [Math.sqrt], [Math.cos] and [Math.sin] (samples, spectra, frame
    differences) are modelled as real numbers ([R]).  Rounding, NaN and the
    infinities are outside the model; the places where the source can
    divide by zero or read past the end of an array are pointed out next to
    the definition concerned. *)

From Stdlib Require Import String Ascii DecimalString Decimal.
From Stdlib Require Import Reals Lra Lia ZArith QArith Qround Qabs Qreals Bool List
  Sorted Permutation.
From Stdlib Require Lqa.
Import ListNotations.

(** ** Array helpers shared by the modules *)

(** [arr[i] = x] on a typed array: a write past the end is ignored. *)
Fixpoint array_set {A : Type} (i : nat) (x : A) (arr : list A) : list A :=
  match arr, i with
  | [], _ => []
  | _ :: tl, O => x :: tl
  | hd :: tl, S j => hd :: array_set j x tl
  end.

(** [arr.slice(a, b)] for [0 <= a]. *)
Definition slice {A : Type} (a b : nat) (arr : list A) : list A :=
  firstn (b - a) (skipn a arr).

(** The values [0, hop, 2*hop, ...] strictly below [limit], the index
    sequence of a loop [for (i = 0; i < limit; i += hop)] with [hop > 0]. *)
Fixpoint loop_from (fuel : nat) (i limit hop : Z) : list Z :=
  match fuel with
  | O => []
  | S fuel' => if (i <? limit)%Z then i :: loop_from fuel' (i + hop)%Z limit hop else []
  end.

Definition loop_indices (limit hop : Z) : list Z :=
  loop_from (Z.to_nat limit) 0%Z limit hop.

(** [Math.round]: nearest integer, halves towards plus infinity. *)
Definition Math_round (x : Q) : Z := Qfloor (x + (1 # 2)).

(** [x < y] on rationals, as a boolean. *)
Definition Qltb (x y : Q) : bool := negb (Qle_bool y x).

(** A numeric variable that starts at [Infinity] and only ever receives
    finite values: [None] is [Infinity]. *)
Definition lt_inf {A : Type} (ltb : A -> A -> bool) (x : A) (bound : option A) : bool :=
  match bound with
  | None => true
  | Some y => ltb x y
  end.

(** [x > y] and [x < y] on real numbers, as booleans. *)
Definition Rgtb (x y : R) : bool := if Rgt_dec x y then true else false.
Definition Rltb (x y : R) : bool := if Rlt_dec x y then true else false.

(** ** The spectral contract of the specification *)

Module SpectralSpec.
Local Open Scope R_scope.

(** Hann coefficient of position [i] in a window of [N] samples. *)
Definition hann (N i : nat) : R :=
  0.5 * (1 - cos (2 * PI * INR i / (INR N - 1))).

Definition hann_window (samples : list R) : list R :=
  map (fun i => nth i samples 0 * hann (length samples) i)
      (seq 0 (length samples)).

(** Cosine and sine correlations of bin [k], summed over all [n] in [0, N). *)
Definition correlation (f : R -> R) (x : list R) (k : nat) : R :=
  fold_right Rplus 0
    (map (fun n => nth n x 0 * f (-2 * PI * INR k * INR n / INR (length x)))
         (seq 0 (length x))).

Definition dft_magnitude (x : list R) (k : nat) : R :=
  sqrt (correlation cos x k * correlation cos x k
        + correlation sin x k * correlation sin x k).

(** Direct-summation magnitudes of the first N/2 bins, no windowing. *)
Definition dft_magnitudes (x : list R) : list R :=
  map (dft_magnitude x) (seq 0 (length x / 2)).

(** Modelled after the specification's words: Hann window first, then the
    magnitudes of the first N/2 bins by direct summation. *)
Definition magnitude_spectrum_contract (samples : list R) : list R :=
  dft_magnitudes (hann_window samples).

(** Mean over the bins of the rectified differences current - previous. *)
Definition rectified_mean (current previous : list R) : R :=
  fold_right Rplus 0
    (map (fun cp => Rmax 0 (fst cp - snd cp)) (combine current previous))
  / INR (length current).

End SpectralSpec.

(** ** TimeShaperProcessor (AudioWorklet) *)

Module Worklet.
Local Open Scope R_scope.

Record Features := mkFeatures {
  rms : R;
  zcr : R;
  spectralCentroid : R;
  spectralFlux : R
}.

(** The ['features'] message posted on the port. *)
Record Message := mkMessage {
  msg_features : Features;
  msg_timestamp : Q
}.

Record Processor := mkProcessor {
  bufferSize : nat;
  buffer : list R;
  bufferIndex : nat;
  frameCount : nat;
  prevSpectrum : option (list R);
  port : list Message          (* messages posted so far, oldest first *)
}.

(** State after the constructor. *)
Definition constructor : Processor :=
  mkProcessor 2048 (repeat 0 2048) 0 0 None [].

(** [buffer[n]]; the loops below never read past the end. *)
Definition get (buffer : list R) (n : nat) : R := nth n buffer 0.

Definition computeRMS (buffer : list R) : R :=
  let sum := fold_left (fun sum i => sum + get buffer i * get buffer i)
                       (seq 0 (length buffer)) 0 in
  sqrt (sum / INR (length buffer)).

Definition nonneg (x : R) : bool := if Rge_dec x 0 then true else false.

Definition computeZeroCrossingRate (buffer : list R) : R :=
  let crossings :=
    fold_left (fun crossings i =>
                 if Bool.eqb (nonneg (get buffer i)) (nonneg (get buffer (i - 1)))
                 then crossings else S crossings)
              (seq 1 (length buffer - 1)) O in
  INR crossings / INR (length buffer).

(** The inner loop over [n] accumulates [real] and [imag] together. *)
Definition computeMagnitudeSpectrum (buffer : list R) : list R :=
  let N := length buffer in
  map (fun k =>
         let '(real, imag) :=
           fold_left (fun acc n =>
                        let angle := -2 * PI * INR k * INR n / INR N in
                        (fst acc + get buffer n * cos angle,
                         snd acc + get buffer n * sin angle))
                     (seq 0 N) (0, 0) in
         sqrt (real * real + imag * imag))
      (seq 0 (N / 2)).

Definition computeSpectralCentroid (buffer : list R) : R :=
  let spectrum := computeMagnitudeSpectrum buffer in
  let '(numerator, denominator) :=
    fold_left (fun acc i => (fst acc + INR i * get spectrum i,
                             snd acc + get spectrum i))
              (seq 0 (length spectrum)) (0, 0) in
  if Rgt_dec denominator 0 then numerator / denominator else 0.

(** Stateful flux: reads and replaces [this.prevSpectrum]. *)
Definition computeSpectralFlux (p : Processor) (buf : list R) : R * Processor :=
  let spectrum := computeMagnitudeSpectrum buf in
  let p' := mkProcessor (bufferSize p) (buffer p) (bufferIndex p)
                        (frameCount p) (Some spectrum) (port p) in
  match prevSpectrum p with
  | None => (0, p')
  | Some prev =>
      let flux :=
        fold_left (fun flux i =>
                     let diff := get spectrum i - get prev i in
                     if Rgt_dec diff 0 then flux + diff else flux)
                  (seq 0 (length spectrum)) 0 in
      (flux / INR (length spectrum), p')
  end.

Definition extractFeatures (p : Processor) (buf : list R) : Features * Processor :=
  let rms := computeRMS buf in
  let zcr := computeZeroCrossingRate buf in
  let centroid := computeSpectralCentroid buf in
  let '(flux, p') := computeSpectralFlux p buf in
  (mkFeatures rms zcr centroid flux, p').

Section Streaming.
(** [sampleRate] is a global of the AudioWorklet scope. *)
Variable sampleRate : Q.

Definition analyzeBuffer (p : Processor) : Processor :=
  let '(features, p') := extractFeatures p (buffer p) in
  let message :=
    mkMessage features
      (inject_Z (Z.of_nat (frameCount p')) * inject_Z (Z.of_nat (bufferSize p'))
       / sampleRate)%Q in
  mkProcessor (bufferSize p') (buffer p') (bufferIndex p') (frameCount p')
              (prevSpectrum p') (port p' ++ [message]).

(** One iteration of the loop of [processAudioData]. *)
Definition pushSample (p : Processor) (x : R) : Processor :=
  let p1 := mkProcessor (bufferSize p) (array_set (bufferIndex p) x (buffer p))
                        (S (bufferIndex p)) (frameCount p) (prevSpectrum p)
                        (port p) in
  if (bufferSize p1 <=? bufferIndex p1)%nat then
    let p2 := analyzeBuffer p1 in
    mkProcessor (bufferSize p2) (buffer p2) 0 (frameCount p2) (prevSpectrum p2)
                (port p2)
  else p1.

Definition processAudioData (p : Processor) (audioData : list R) : Processor :=
  let p' := fold_left pushSample audioData p in
  mkProcessor (bufferSize p') (buffer p') (bufferIndex p') (S (frameCount p'))
              (prevSpectrum p') (port p').

(** Successive calls of [process], one per incoming chunk. *)
Definition processAll (p : Processor) (chunks : list (list R)) : Processor :=
  fold_left processAudioData chunks p.

End Streaming.
End Worklet.

(** ** AudioEngine *)

Module AudioEngine.
Local Open Scope R_scope.

Definition get (arr : list R) (n : nat) : R := nth n arr 0.

(** [real] after the Hann loop, [imag] all zero, and the "simplified"
    magnitude loop that reads [real[i]] and [imag[i]] bin by bin. *)
Definition computeSpectrum (window : list R) : list R :=
  let len := length window in
  let imag := repeat 0 len in
  let real :=
    map (fun i =>
           let windowValue := 0.5 * (1 - cos (2 * PI * INR i / (INR len - 1))) in
           get window i * windowValue)
        (seq 0 len) in
  map (fun i => sqrt (get real i * get real i + get imag i * get imag i))
      (seq 0 (len / 2)).

Definition computeSpectralFlux (current previous : list R) : R :=
  let flux :=
    fold_left (fun flux i =>
                 let diff := get current i - get previous i in
                 if Rgt_dec diff 0 then flux + diff else flux)
              (seq 0 (length current)) 0 in
  flux / INR (length current).

(** Loop state of [detectOnsets]: [prevSpectrum] and the onsets so far. *)
Definition detectOnsets_step (audioData : list R) (sampleRate : Q)
    (st : option (list R) * list Q) (i : Z) : option (list R) * list Q :=
  let window := slice (Z.to_nat i) (Z.to_nat (i + 1024)) audioData in
  let spectrum := computeSpectrum window in
  let onsets :=
    match fst st with
    | Some prevSpectrum =>
        if Rgt_dec (computeSpectralFlux spectrum prevSpectrum) 0.1
        then snd st ++ [(inject_Z i / sampleRate)%Q]
        else snd st
    | None => snd st
    end in
  (Some spectrum, onsets).

Definition detectOnsets (audioData : list R) (sampleRate : Q) : list Q :=
  snd (fold_left (detectOnsets_step audioData sampleRate)
                 (loop_indices (Z.of_nat (length audioData) - 1024) 512)
                 (None, [])).

Record Tempo := mkTempo { bpm : Z; confidence : Q }.

(** The histogram is a JavaScript [Map]: [forEach] visits the keys in the
    order of their first insertion. *)
Definition Histogram := list (Q * Z).

Fixpoint hist_get (h : Histogram) (key : Q) : option Z :=
  match h with
  | [] => None
  | (k, v) :: tl => if Qeq_bool k key then Some v else hist_get tl key
  end.

Fixpoint hist_set (h : Histogram) (key : Q) (value : Z) : Histogram :=
  match h with
  | [] => [(key, value)]
  | (k, v) :: tl =>
      if Qeq_bool k key then (k, value) :: tl else (k, v) :: hist_set tl key value
  end.

Definition intervals_of (onsets : list Q) : list Q :=
  map (fun i => (nth i onsets 0 - nth (i - 1) onsets 0)%Q)
      (seq 1 (length onsets - 1)).

Definition resolution : Q := 1 # 100.

Definition build_histogram (intervals : list Q) : Histogram :=
  fold_left (fun histogram interval =>
               let bucket := (inject_Z (Math_round (interval / resolution))
                              * resolution)%Q in
               let old := match hist_get histogram bucket with
                          | Some c => c
                          | None => 0%Z
                          end in
               hist_set histogram bucket (old + 1)%Z)
            intervals [].

(** The peak search; the state is [(maxCount, bestInterval)]. *)
Definition find_peak (histogram : Histogram) : Z * Q :=
  fold_left (fun best entry =>
               let '(interval, count) := entry in
               if ((fst best <? count)%Z
                   && Qltb (2 # 10) interval
                   && Qltb interval 2)%bool
               then (count, interval) else best)
            histogram (0%Z, 5 # 10).

Definition estimateTempo (onsets : list Q) (sampleRate : Q) : Tempo :=
  if (length onsets <? 4)%nat then mkTempo 120 0
  else
    let intervals := intervals_of onsets in
    let histogram := build_histogram intervals in
    let '(maxCount, bestInterval) := find_peak histogram in
    let bpm := (60 / bestInterval)%Q in
    let confidence := (inject_Z maxCount
                       / inject_Z (Z.of_nat (length intervals)))%Q in
    mkTempo (Math_round bpm) confidence.

Definition detectTempo (channelData : list R) (sampleRate : Q) : Tempo :=
  let onsets := detectOnsets channelData sampleRate in
  estimateTempo onsets sampleRate.

Definition computeSpectralCentroid (window : list R) : R :=
  let spectrum := computeSpectrum window in
  let '(numerator, denominator) :=
    fold_left (fun acc i => (fst acc + INR i * get spectrum i,
                             snd acc + get spectrum i))
              (seq 0 (length spectrum)) (0, 0) in
  if Rgt_dec denominator 0 then numerator / denominator else 0.

(** The loop of [computeSpectralRolloff], which returns from inside. *)
Fixpoint rolloff_loop (spectrum : list R) (threshold : R) (indices : list nat)
    (cumulativeEnergy : R) : R :=
  match indices with
  | [] => 1
  | i :: rest =>
      let cumulativeEnergy := cumulativeEnergy + get spectrum i in
      if Rge_dec cumulativeEnergy threshold
      then INR i / INR (length spectrum)
      else rolloff_loop spectrum threshold rest cumulativeEnergy
  end.

Definition computeSpectralRolloff (window : list R) : R :=
  let spectrum := computeSpectrum window in
  let totalEnergy := fold_left (fun sum val => sum + val) spectrum 0 in
  let threshold := totalEnergy * 0.85 in
  rolloff_loop spectrum threshold (seq 0 (length spectrum)) 0.

Record SegmentFeatures := mkSegmentFeatures {
  rms : R;
  spectralCentroid : R;
  spectralRolloff : R;
  mfcc : list R
}.

Record AudioSegment := mkAudioSegment {
  seg_start : Q;
  seg_end : Q;
  seg_energy : R;
  features : SegmentFeatures
}.

(** The index sequence of [for (i = 0; i < limit; i += hop)] when the
    bounds are fractional, as in [analyzeEnergy]. *)
Fixpoint loop_fromQ (fuel : nat) (i limit hop : Q) : list Q :=
  match fuel with
  | O => []
  | S fuel' =>
      if Qltb i limit then i :: loop_fromQ fuel' (i + hop)%Q limit hop else []
  end.

Definition loop_indicesQ (limit hop : Q) : list Q :=
  loop_fromQ (Z.to_nat (Qceiling (limit / hop))) 0%Q limit hop.

(** *** Code that calls [Math.random]

    The generator is threaded explicitly: a computation takes the state of
    the generator and returns its result with the next state. *)
Section Random.
Variable RandomState : Type.
Variable Math_random : RandomState -> R * RandomState.

Definition Rand (A : Type) : Type := RandomState -> A * RandomState.

Definition ret {A : Type} (a : A) : Rand A := fun s => (a, s).

Definition bind {A B : Type} (m : Rand A) (k : A -> Rand B) : Rand B :=
  fun s => let '(a, s') := m s in k a s'.

Notation "x <- m ;; k" := (bind m (fun x => k))
  (at level 61, m at next level, right associativity).

(** [array.map(f)] with an effectful callback, called in index order. *)
Fixpoint mapM {A B : Type} (f : A -> Rand B) (l : list A) : Rand (list B) :=
  match l with
  | [] => ret []
  | a :: tl => b <- f a ;; bs <- mapM f tl ;; ret (b :: bs)
  end.

(** [new Array(13).fill(0).map(() => Math.random() - 0.5)]. *)
Definition computeMFCC (window : list R) : Rand (list R) :=
  mapM (fun _ : R => r <- Math_random ;; ret (r - 0.5)) (repeat 0 13).

(** The body of the loop of [analyzeEnergy] at index [i]. *)
Definition analyzeEnergy_window (channelData : list R) (sampleRate windowSize : Q)
    (i : Q) : Rand (R * AudioSegment) :=
  let window := slice (Z.to_nat (Qfloor i))
                      (Z.to_nat (Qfloor (i + windowSize))) channelData in
  let rms := fold_left (fun rms j => rms + get window j * get window j)
                       (seq 0 (length window)) 0 in
  let rms := sqrt (rms / INR (length window)) in
  let centroid := computeSpectralCentroid window in
  let rolloff := computeSpectralRolloff window in
  coeffs <- computeMFCC window ;;
  ret (rms,
       mkAudioSegment (i / sampleRate)%Q ((i + windowSize) / sampleRate)%Q rms
         (mkSegmentFeatures rms centroid rolloff coeffs)).

Definition analyzeEnergy (channelData : list R) (sampleRate : Q)
    : Rand (list R * list AudioSegment) :=
  let windowSize := (sampleRate * (1 # 10))%Q in
  let hopSize := (windowSize / 2)%Q in
  results <- mapM (analyzeEnergy_window channelData sampleRate windowSize)
                  (loop_indicesQ
                     (inject_Z (Z.of_nat (length channelData)) - windowSize)
                     hopSize) ;;
  ret (map fst results, map snd results).

End Random.

(** *** Mood and structure *)

Definition computeRMS (window : list R) : R :=
  let sum := fold_left (fun sum i => sum + get window i * get window i)
                       (seq 0 (length window)) 0 in
  sqrt (sum / INR (length window)).

Inductive MoodCategory :=
  mood_happy | mood_sad | mood_energetic | mood_calm | mood_dramatic
| mood_peaceful.

Record AudioMood := mkAudioMood {
  valence : R;
  arousal : R;
  category : MoodCategory
}.

(** The 500 ms windows follow each other without overlap: the step of the
    loop is the window size. *)
Definition analyzeMood (channelData : list R) (sampleRate : Q) : AudioMood :=
  let windowSize := (sampleRate * (5 # 10))%Q in
  let '(totalBrightness, totalEnergy) :=
    fold_left (fun acc i =>
                 let window := slice (Z.to_nat (Qfloor i))
                                     (Z.to_nat (Qfloor (i + windowSize)))
                                     channelData in
                 let brightness := computeSpectralCentroid window in
                 let energy := computeRMS window in
                 (fst acc + brightness * energy, snd acc + energy))
              (loop_indicesQ
                 (inject_Z (Z.of_nat (length channelData)) - windowSize)
                 windowSize)
              (0, 0) in
  let avgBrightness :=
    if Rgt_dec totalEnergy 0 then totalBrightness / totalEnergy else 0.5 in
  let avgEnergy :=
    totalEnergy
    / Q2R (inject_Z (Z.of_nat (length channelData)) / windowSize) in
  let valence := Rmin 1 (Rmax 0 avgBrightness) in
  let arousal := Rmin 1 (Rmax 0 (avgEnergy * 10)) in
  let category :=
    if (Rgtb valence 0.6 && Rgtb arousal 0.6)%bool then mood_happy
    else if (Rltb valence 0.4 && Rltb arousal 0.4)%bool then mood_sad
    else if Rgtb arousal 0.7 then mood_energetic
    else if Rltb arousal 0.3 then mood_calm
    else if Rltb valence 0.4 then mood_dramatic
    else mood_peaceful in
  mkAudioMood valence arousal category.

Record Span := mkSpan { span_start : Q; span_end : Q }.

Record AudioStructure := mkAudioStructure {
  intro : option Span;
  verses : list Span;
  chorus : option Span;
  bridge : option Span;
  outro : option Span
}.

(** [Math.min] on two numbers. *)
Definition Math_min (x y : Q) : Q := if Qle_bool x y then x else y.

(** The object is built field by field; each [if] of the source adds the
    members it sets.  [structure.intro?.end || 0] is the end of the intro
    when there is one and it is not zero, else 0. *)
Definition analyzeStructure (duration : Q) : AudioStructure :=
  let intro :=
    if Qltb 30 duration
    then Some (mkSpan 0 (Math_min 15 (duration * (1 # 10))))
    else None in
  let introEnd :=
    match intro with
    | Some span => if Qeq_bool (span_end span) 0 then 0%Q else span_end span
    | None => 0%Q
    end in
  let verses :=
    if Qltb 60 duration
    then [mkSpan introEnd (duration * (4 # 10));
          mkSpan (duration * (6 # 10)) (duration * (8 # 10))]
    else [] in
  let chorus :=
    if Qltb 60 duration
    then Some (mkSpan (duration * (4 # 10)) (duration * (6 # 10)))
    else None in
  let outro :=
    if Qltb 45 duration
    then Some (mkSpan (duration * (9 # 10)) duration)
    else None in
  mkAudioStructure intro verses chorus None outro.

End AudioEngine.

(** ** Narrative recommendation *)

Module Narratives.

(** The three entries of [narrativeArchetypes], in the order of the array. *)
Inductive Archetype := tragic | happy | slice_of_life.

(** [recommendNarrative]: of its two arguments only the valence and the
    arousal of the audio mood enter the decision. *)
Definition recommendNarrative (audioMood : AudioEngine.AudioMood) : Archetype :=
  let valence := AudioEngine.valence audioMood in
  let arousal := AudioEngine.arousal audioMood in
  if (Rgtb valence 0.6 && Rgtb arousal 0.6)%bool then happy
  else if (Rltb valence 0.4 && Rgtb arousal 0.5)%bool then tragic
  else slice_of_life.

End Narratives.

(** ** VideoEngine *)

Module VideoEngine.

(** [ImageData]: [data] is the flat RGBA byte array, four entries a pixel. *)
Record ImageData := mkImageData {
  width : Z;
  height : Z;
  data : list Z
}.

(** [data[i]].  A read outside the array is [undefined] in the source and
    poisons the arithmetic; every loop below stays inside the array when
    [data] holds [4 * width * height] entries. *)
Definition get (data : list Z) (i : Z) : Z :=
  if (i <? 0)%Z then 0%Z else nth (Z.to_nat i) data 0%Z.

(** *** Motion *)

Definition computeFrameDifference (frame1 frame2 : ImageData) : R :=
  let data1 := data frame1 in
  let data2 := data frame2 in
  let '(totalDiff, pixelCount) :=
    fold_left (fun acc i =>
                 let r1 := get data1 i in
                 let g1 := get data1 (i + 1) in
                 let b1 := get data1 (i + 2) in
                 let r2 := get data2 i in
                 let g2 := get data2 (i + 1) in
                 let b2 := get data2 (i + 2) in
                 let diff :=
                   (sqrt (IZR ((r2 - r1) ^ 2 + (g2 - g1) ^ 2 + (b2 - b1) ^ 2))
                    / (255 * sqrt 3))%R in
                 ((fst acc + diff)%R, S (snd acc)))
              (loop_indices (Z.of_nat (length data1)) 4) (0%R, O) in
  (totalDiff / INR pixelCount)%R.

Definition computeBlockError (frame1 frame2 : ImageData)
    (x1 y1 x2 y2 blockSize : Z) : Q :=
  let width := width frame1 in
  let offsets := map Z.of_nat (seq 0 (Z.to_nat blockSize)) in
  let '(error, pixelCount) :=
    fold_left (fun acc dy =>
      fold_left (fun acc dx =>
        let idx1 := (((y1 + dy) * width + (x1 + dx)) * 4)%Z in
        let idx2 := (((y2 + dy) * width + (x2 + dx)) * 4)%Z in
        if ((0 <=? idx1)%Z && (idx1 <? Z.of_nat (length (data frame1)))%Z
            && (0 <=? idx2)%Z && (idx2 <? Z.of_nat (length (data frame2)))%Z)%bool
        then
          let r1 := get (data frame1) idx1 in
          let g1 := get (data frame1) (idx1 + 1) in
          let b1 := get (data frame1) (idx1 + 2) in
          let r2 := get (data frame2) idx2 in
          let g2 := get (data frame2) (idx2 + 1) in
          let b2 := get (data frame2) (idx2 + 2) in
          ((fst acc + (Z.abs (r2 - r1) + Z.abs (g2 - g1) + Z.abs (b2 - b1)))%Z,
           (snd acc + 1)%Z)
        else acc) offsets acc) offsets (0%Z, 0%Z) in
  if (0 <? pixelCount)%Z
  then (inject_Z error / inject_Z (pixelCount * 255 * 3))%Q
  else 1%Q.

Definition findBestMatch (frame1 frame2 : ImageData)
    (x y blockSize searchRadius : Z) : Z * Z :=
  let shifts := map (fun j => (Z.of_nat j - searchRadius)%Z)
                    (seq 0 (Z.to_nat (2 * searchRadius + 1))) in
  let '(bestDx, bestDy, _) :=
    fold_left (fun acc dy =>
      fold_left (fun acc dx =>
        let error := computeBlockError frame1 frame2 x y (x + dx) (y + dy)
                                       blockSize in
        if lt_inf Qltb error (snd acc) then (dx, dy, Some error) else acc)
        shifts acc) shifts (0%Z, 0%Z, None) in
  (bestDx, bestDy).

Definition computeOpticalFlow (frame1 frame2 : ImageData) : Q * Q :=
  let blockSize := 16%Z in
  let searchRadius := 8%Z in
  let '(totalHorizontal, totalVertical, blockCount) :=
    fold_left (fun acc y =>
      fold_left (fun acc x =>
        let '(dx, dy) := findBestMatch frame1 frame2 x y blockSize searchRadius in
        let '(totalHorizontal, totalVertical, blockCount) := acc in
        ((totalHorizontal + dx)%Z, (totalVertical + dy)%Z, (blockCount + 1)%Z))
        (loop_indices (width frame1 - blockSize) blockSize) acc)
      (loop_indices (height frame1 - blockSize) blockSize) (0%Z, 0%Z, 0%Z) in
  let mean total := if (0 <? blockCount)%Z
                    then (inject_Z total / inject_Z blockCount)%Q else 0%Q in
  (mean totalHorizontal, mean totalVertical).

Definition computeVariance (values : list R) : R :=
  let mean := (fold_left (fun sum val => sum + val) values 0
               / INR (length values))%R in
  (fold_left (fun sum val => sum + (val - mean) ^ 2) values 0
   / INR (length values))%R.

Inductive Direction := dir_static | dir_horizontal | dir_vertical | dir_mixed.
Inductive MotionClass := motion_static | motion_low | motion_medium | motion_high.

Record MotionAnalysis := mkMotionAnalysis {
  intensity : R;
  direction : Direction;
  consistency : R;
  classification : MotionClass
}.

(** The frame of index [i]; the loops below only use existing indices. *)
Definition frame_at (frames : list ImageData) (i : nat) : ImageData :=
  nth i frames (mkImageData 0 0 []).

Definition analyzeMotion (frames : list ImageData) : MotionAnalysis :=
  if (length frames <? 2)%nat
  then mkMotionAnalysis 0 dir_static 1 motion_static
  else
    let '(totalMotion, horizontalMotion, verticalMotion, motionValues) :=
      fold_left (fun acc i =>
        let '(totalMotion, horizontalMotion, verticalMotion, motionValues) := acc in
        let motion := computeFrameDifference (frame_at frames (i - 1))
                                             (frame_at frames i) in
        let vectors := computeOpticalFlow (frame_at frames (i - 1))
                                          (frame_at frames i) in
        ((totalMotion + motion)%R,
         (horizontalMotion + Qabs (fst vectors))%Q,
         (verticalMotion + Qabs (snd vectors))%Q,
         motionValues ++ [motion]))
        (seq 1 (length frames - 1)) (0%R, 0%Q, 0%Q, []) in
    let pairs := (length frames - 1)%nat in
    let avgMotion := (totalMotion / INR pairs)%R in
    let avgHorizontal := (horizontalMotion / inject_Z (Z.of_nat pairs))%Q in
    let avgVertical := (verticalMotion / inject_Z (Z.of_nat pairs))%Q in
    let direction :=
      if Rlt_dec avgMotion 0.1 then dir_static
      else if Qltb (avgVertical * (15 # 10)) avgHorizontal then dir_horizontal
      else if Qltb (avgHorizontal * (15 # 10)) avgVertical then dir_vertical
      else dir_mixed in
    let variance := computeVariance motionValues in
    let consistency := Rmax 0 (1 - variance) in
    let classification :=
      if Rlt_dec avgMotion 0.1 then motion_static
      else if Rlt_dec avgMotion 0.3 then motion_low
      else if Rlt_dec avgMotion 0.6 then motion_medium
      else motion_high in
    mkMotionAnalysis avgMotion direction consistency classification.

(** *** Colour *)

Record Color := mkColor { r : Z; g : Z; b : Z; count : Z }.

(** [Math.floor(v / 32) * 32] on a byte. *)
Definition quantize (v : Z) : Z := (v / 32 * 32)%Z.

Definition same_key (c : Color) (r0 g0 b0 : Z) : bool :=
  ((r c =? r0)%Z && (g c =? g0)%Z && (b c =? b0)%Z)%bool.

(** [colorMap] is a [Map] keyed by the string [r,g,b], which determines the
    three numbers; its values are kept in insertion order. *)
Fixpoint colorMap_add (colorMap : list Color) (r0 g0 b0 : Z) : list Color :=
  match colorMap with
  | [] => [mkColor r0 g0 b0 1]
  | c :: rest =>
      if same_key c r0 g0 b0
      then mkColor (r c) (g c) (b c) (count c + 1) :: rest
      else c :: colorMap_add rest r0 g0 b0
  end.

(** [sort((a, b) => b.count - a.count)]: stable, by decreasing count. *)
Fixpoint sort_insert (c : Color) (sorted : list Color) : list Color :=
  match sorted with
  | [] => [c]
  | d :: rest =>
      if (count c <? count d)%Z then d :: sort_insert c rest else c :: d :: rest
  end.

Definition sort_by_count (colors : list Color) : list Color :=
  fold_right sort_insert [] colors.

Definition extractDominantColors (frame : ImageData) (n : nat) : list Color :=
  let data := data frame in
  let colorMap :=
    fold_left (fun colorMap i =>
                 colorMap_add colorMap (quantize (get data i))
                              (quantize (get data (i + 1)))
                              (quantize (get data (i + 2))))
              (loop_indices (Z.of_nat (length data)) 16) [] in
  firstn n (sort_by_count colorMap).

Definition computeColorTemperature (colors : list Color) : Q :=
  let '(totalWeight, weightedTemp) :=
    fold_left (fun acc color =>
                 let temp := (inject_Z (r color - b color + 255) / 510)%Q in
                 ((fst acc + count color)%Z,
                  (snd acc + temp * inject_Z (count color))%Q))
              colors (0%Z, 0%Q) in
  if (0 <? totalWeight)%Z then (weightedTemp / inject_Z totalWeight)%Q
  else (5 # 10)%Q.

Definition computeSaturation (colors : list Color) : Q :=
  let '(totalWeight, weightedSat) :=
    fold_left (fun acc color =>
                 let max := Z.max (Z.max (r color) (g color)) (b color) in
                 let min := Z.min (Z.min (r color) (g color)) (b color) in
                 let sat := if (0 <? max)%Z
                            then (inject_Z (max - min) / inject_Z max)%Q
                            else 0%Q in
                 ((fst acc + count color)%Z,
                  (snd acc + sat * inject_Z (count color))%Q))
              colors (0%Z, 0%Q) in
  if (0 <? totalWeight)%Z then (weightedSat / inject_Z totalWeight)%Q
  else 0%Q.

(** The square of the distance: a sum of squares of integers. *)
Definition colorDistanceSq (color1 color2 : Color) : Z :=
  ((r color1 - r color2) ^ 2 + (g color1 - g color2) ^ 2
   + (b color1 - b color2) ^ 2)%Z.

Definition colorDistance (color1 color2 : Color) : R :=
  sqrt (IZR (colorDistanceSq color1 color2)).

(** The inner [centroids.forEach] of [clusterColors].  The source compares
    [colorDistance] values; the square root is strictly increasing, so the
    comparison of the squares decides the same (lemma
    [colorDistance_lt_iff]) and keeps the search executable. *)
Definition nearest_centroid (centroids : list Color) (color : Color) : nat :=
  fst (fold_left (fun acc ic =>
                    let '(index, centroid) := ic in
                    let distance := colorDistanceSq color centroid in
                    if lt_inf Z.ltb distance (snd acc)
                    then (index, Some distance) else acc)
                 (combine (seq 0 (length centroids)) centroids)
                 (O, None)).

(** [clusters[index].push(color)]. *)
Fixpoint cluster_push (clusters : list (list Color)) (index : nat) (color : Color)
    : list (list Color) :=
  match clusters, index with
  | [], _ => []
  | cl :: rest, O => (cl ++ [color]) :: rest
  | cl :: rest, S j => cl :: cluster_push rest j color
  end.

Definition weighted_centroid (cluster : list Color) : Color :=
  let '(totalR, totalG, totalB, totalCount) :=
    fold_left (fun acc color =>
                 let '(totalR, totalG, totalB, totalCount) := acc in
                 ((totalR + r color * count color)%Z,
                  (totalG + g color * count color)%Z,
                  (totalB + b color * count color)%Z,
                  (totalCount + count color)%Z))
              cluster (0%Z, 0%Z, 0%Z, 0%Z) in
  mkColor (Math_round (inject_Z totalR / inject_Z totalCount))
          (Math_round (inject_Z totalG / inject_Z totalCount))
          (Math_round (inject_Z totalB / inject_Z totalCount))
          totalCount.

(** One pass of the loop over [iter]. *)
Definition kmeans_iteration (colors : list Color) (k : nat)
    (centroids : list Color) : list Color :=
  let clusters :=
    fold_left (fun clusters color =>
                 cluster_push clusters (nearest_centroid centroids color) color)
              colors (repeat [] k) in
  fold_left (fun centroids ic =>
               let '(index, cluster) := ic in
               match cluster with
               | [] => centroids
               | _ :: _ => array_set index (weighted_centroid cluster) centroids
               end)
            (combine (seq 0 (length clusters)) clusters)
            centroids.

Definition clusterColors (colors : list Color) (k : nat) : list Color :=
  if (length colors <=? k)%nat then colors
  else
    let centroids := firstn k colors in
    fold_left (fun centroids _ => kmeans_iteration colors k centroids)
              (seq 0 10) centroids.

Inductive ColorMood := mood_warm | mood_cool | mood_vibrant | mood_muted.

Record ColorAnalysis := mkColorAnalysis {
  dominantColors : list string;
  temperature : Q;
  saturation : Q;
  mood : ColorMood
}.

(** A number in a template string; the numbers printed are integers. *)
Definition number_to_string (z : Z) : string :=
  NilZero.string_of_int (Z.to_int z).

Definition rgb_string (c : Color) : string :=
  ("rgb(" ++ number_to_string (r c) ++ "," ++ number_to_string (g c) ++ ","
   ++ number_to_string (b c) ++ ")")%string.

(** The palette of [analyzeColor] before it is printed. *)
Definition analyzeColor_palette (frames : list ImageData) : list Color :=
  let allColors :=
    fold_left (fun allColors frame => allColors ++ extractDominantColors frame 5)
              frames [] in
  clusterColors allColors 3.

(** [avgTemperature] and [avgSaturation] divide by [frames.length]: no
    frames is a division of zero by zero in the source. *)
Definition analyzeColor (frames : list ImageData) : ColorAnalysis :=
  let '(totalTemperature, totalSaturation) :=
    fold_left (fun acc frame =>
                 let colors := extractDominantColors frame 5 in
                 ((fst acc + computeColorTemperature colors)%Q,
                  (snd acc + computeSaturation colors)%Q))
              frames (0%Q, 0%Q) in
  let n := inject_Z (Z.of_nat (length frames)) in
  let avgTemperature := (totalTemperature / n)%Q in
  let avgSaturation := (totalSaturation / n)%Q in
  let dominantColors := analyzeColor_palette frames in
  let mood :=
    if (Qltb (6 # 10) avgTemperature && Qltb (6 # 10) avgSaturation)%bool
    then mood_warm
    else if (Qltb avgTemperature (4 # 10) && Qltb (6 # 10) avgSaturation)%bool
    then mood_cool
    else if Qltb (7 # 10) avgSaturation then mood_vibrant
    else mood_muted in
  mkColorAnalysis (map rgb_string dominantColors) avgTemperature avgSaturation
                  mood.

(** *** Scenes *)

Definition computeFrameBrightness (frame : ImageData) : Q :=
  let data := data frame in
  let '(totalBrightness, pixelCount) :=
    fold_left (fun acc i =>
                 let r := get data i in
                 let g := get data (i + 1) in
                 let b := get data (i + 2) in
                 let brightness :=
                   (((299 # 1000) * inject_Z r + (587 # 1000) * inject_Z g
                     + (114 # 1000) * inject_Z b) / 255)%Q in
                 ((fst acc + brightness)%Q, (snd acc + 1)%Z))
              (loop_indices (Z.of_nat (length data)) 4) (0%Q, 0%Z) in
  (totalBrightness / inject_Z pixelCount)%Q.

Definition computeEdgeCount (frame : ImageData) : Q :=
  let data := data frame in
  let width := width frame in
  let height := height frame in
  let interior n := map (fun j => Z.of_nat j + 1)%Z (seq 0 (Z.to_nat (n - 2))) in
  let '(edgeCount, totalPixels) :=
    fold_left (fun acc y =>
      fold_left (fun acc x =>
        let idx := ((y * width + x) * 4)%Z in
        let gx := (IZR (get data (idx + 4) - get data (idx - 4)) / 2)%R in
        let gy := (IZR (get data (idx + width * 4) - get data (idx - width * 4))
                   / 2)%R in
        let magnitude := (sqrt (gx * gx + gy * gy) / 255)%R in
        ((if Rgt_dec magnitude 0.1 then fst acc + 1 else fst acc)%Z,
         (snd acc + 1)%Z))
        (interior width) acc) (interior height) (0%Z, 0%Z) in
  if (0 <? totalPixels)%Z then (inject_Z edgeCount / inject_Z totalPixels)%Q
  else 0%Q.

Inductive SceneType :=
  scene_indoor | scene_outdoor | scene_close_up | scene_wide | scene_medium.

Definition classifyScene (frame : ImageData) : SceneType * Q :=
  let brightness := computeFrameBrightness frame in
  let colors := extractDominantColors frame 3 in
  let edgeCount := computeEdgeCount frame in
  if (Qltb (6 # 10) brightness
      && existsb (fun c => (r c <? g c)%Z && (b c <? g c)%Z) colors)%bool
  then (scene_outdoor, 7 # 10)
  else if (Qltb brightness (4 # 10) || Qltb (3 # 10) edgeCount)%bool
  then (scene_indoor, 6 # 10)
  else if Qltb edgeCount (1 # 10) then (scene_close_up, 8 # 10)
  else if Qltb (4 # 10) edgeCount then (scene_wide, 7 # 10)
  else (scene_medium, 5 # 10).

Record SceneAnalysis := mkSceneAnalysis {
  scene_start : Q;
  scene_end : Q;
  scene_type : SceneType;
  scene_confidence : Q
}.

(** The loop of [analyzeScenes]; the state is [(scenes, currentSceneStart)]. *)
Definition analyzeScenes_step (frames : list ImageData) (frameInterval : Q)
    (st : list SceneAnalysis * Q) (i : nat) : list SceneAnalysis * Q :=
  let difference := computeFrameDifference (frame_at frames (i - 1))
                                           (frame_at frames i) in
  if Rgt_dec difference 0.3 then
    let sceneEnd := (inject_Z (Z.of_nat i) * frameInterval)%Q in
    let sceneType := classifyScene (frame_at frames (i - 1)) in
    (fst st ++ [mkSceneAnalysis (snd st) sceneEnd (fst sceneType) (snd sceneType)],
     sceneEnd)
  else st.

(** [None] is the [TypeError] raised when the final scene is classified on
    [frames[frames.length - 1]] and there is no frame at all. *)
Definition analyzeScenes (frames : list ImageData) (duration : Q)
    : option (list SceneAnalysis) :=
  let frameInterval := (duration / inject_Z (Z.of_nat (length frames)))%Q in
  let '(scenes, currentSceneStart) :=
    fold_left (analyzeScenes_step frames frameInterval)
              (seq 1 (length frames - 1)) ([], 0%Q) in
  if Qltb currentSceneStart duration then
    match nth_error frames (length frames - 1) with
    | Some last =>
        let sceneType := classifyScene last in
        Some (scenes ++ [mkSceneAnalysis currentSceneStart duration
                                         (fst sceneType) (snd sceneType)])
    | None => None
    end
  else Some scenes.

(** *** Brightness and quality *)

Inductive BrightnessClass := brightness_dark | brightness_normal | brightness_bright.

Record BrightnessAnalysis := mkBrightnessAnalysis {
  brightness_average : Q;
  brightness_consistency : R;
  brightness_classification : BrightnessClass
}.

(** [average] divides by the number of frames: with no frame it is a
    division of zero by zero in the source. *)
Definition analyzeBrightness (frames : list ImageData) : BrightnessAnalysis :=
  let brightnessValues :=
    fold_left (fun values frame => values ++ [computeFrameBrightness frame])
              frames [] in
  let average :=
    (fold_left (fun sum val => sum + val) brightnessValues 0
     / inject_Z (Z.of_nat (length brightnessValues)))%Q in
  let variance := computeVariance (map Q2R brightnessValues) in
  let consistency := Rmax 0 (1 - variance) in
  let classification :=
    if Qltb average (3 # 10) then brightness_dark
    else if Qltb (7 # 10) average then brightness_bright
    else brightness_normal in
  mkBrightnessAnalysis average consistency classification.

(** The pixels [(x, y)] with [1 <= y < height - 1] and [1 <= x < width - 1],
    row by row: the index sequence of the nested loops of [computeSharpness]
    and [computeNoise]. *)
Definition interior_pixels (width height : Z) : list Z :=
  flat_map (fun y =>
              map (fun x => ((y * width + x) * 4)%Z)
                  (map (fun j => (Z.of_nat j + 1)%Z)
                       (seq 0 (Z.to_nat (width - 2)))))
           (map (fun j => (Z.of_nat j + 1)%Z) (seq 0 (Z.to_nat (height - 2)))).

Definition computeSharpness (frame : ImageData) : Q :=
  let data := data frame in
  let width := width frame in
  let gray i := (inject_Z (get data i + get data (i + 1) + get data (i + 2)) / 3)%Q in
  let '(sharpness, count) :=
    fold_left (fun acc idx =>
                 let center := gray idx in
                 let top := gray (idx - width * 4)%Z in
                 let bottom := gray (idx + width * 4)%Z in
                 let left := gray (idx - 4)%Z in
                 let right := gray (idx + 4)%Z in
                 let laplacian :=
                   (Qabs (4 * center - top - bottom - left - right) / 255)%Q in
                 ((fst acc + laplacian)%Q, (snd acc + 1)%Z))
              (interior_pixels width (height frame)) (0%Q, 0%Z) in
  if (0 <? count)%Z then (sharpness / inject_Z count)%Q else 0%Q.

Definition computeNoise (frame : ImageData) : Q :=
  let data := data frame in
  let width := width frame in
  let '(noise, count) :=
    fold_left (fun acc idx =>
                 let center := inject_Z (get data idx) in
                 let surrounding :=
                   (inject_Z (get data (idx - 4) + get data (idx + 4)
                              + get data (idx - width * 4)
                              + get data (idx + width * 4)) / 4)%Q in
                 let highFreq := (Qabs (center - surrounding) / 255)%Q in
                 ((fst acc + highFreq)%Q, (snd acc + 1)%Z))
              (interior_pixels width (height frame)) (0%Q, 0%Z) in
  if (0 <? count)%Z then (noise / inject_Z count)%Q else 0%Q.

Definition computeStability (frame1 frame2 : ImageData) : R :=
  Rmax 0 (1 - computeFrameDifference frame1 frame2 * 2).

Record QualityAnalysis := mkQualityAnalysis {
  quality_sharpness : Q;
  quality_stability : R;
  quality_noise : Q;
  quality_overall : R
}.

Definition analyzeQuality (frames : list ImageData) : QualityAnalysis :=
  let '(totalSharpness, totalStability, totalNoise) :=
    fold_left (fun acc index =>
                 let '(totalSharpness, totalStability, totalNoise) := acc in
                 let frame := frame_at frames index in
                 let sharpness := computeSharpness frame in
                 let noise := computeNoise frame in
                 ((totalSharpness + sharpness)%Q,
                  (if (0 <? index)%nat
                   then totalStability
                        + computeStability (frame_at frames (index - 1)) frame
                   else totalStability)%R,
                  (totalNoise + noise)%Q))
              (seq 0 (length frames)) (0%Q, 0%R, 0%Q) in
  let n := inject_Z (Z.of_nat (length frames)) in
  let avgSharpness := (totalSharpness / n)%Q in
  let avgStability :=
    if (1 <? length frames)%nat
    then (totalStability / INR (length frames - 1))%R else 1%R in
  let avgNoise := (totalNoise / n)%Q in
  let overall :=
    ((Q2R avgSharpness + avgStability + (1 - Q2R avgNoise)) / 3)%R in
  mkQualityAnalysis avgSharpness avgStability avgNoise overall.

End VideoEngine.

(** ** The single-flight request queue

    [AudioEngine] and [VideoEngine] carry the same three members
    ([processingQueue], [isProcessing], [processQueue]) and the same entry
    point ([analyzeAudio], [analyzeVideo]).  JavaScript runs each piece of
    code between two [await]s without interruption, so the engine is a
    transition system with two kinds of transitions: a caller invokes the
    entry point, or the promise of a running [performAnalysis] settles and
    the rest of [processQueue] (the [resolve] or [reject] and the [finally]
    block) runs.  [stop] and [destroy] are not part of the system. *)

Module Coordinator.
Section Queue.
(** A queue entry: the buffer or file with its [resolve] and [reject]. *)
Variable Request : Type.

Inductive Event :=
| analyze_called (r : Request)      (* the entry point was invoked *)
| analysis_started (r : Request)    (* emitted first thing by performAnalysis *)
| analysis_settled (r : Request).   (* resolve or reject of the request *)

Record Engine := mkEngine {
  processingQueue : list Request;
  isProcessing : bool;
  running : list Request;   (* analyses started and not yet settled *)
  log : list Event          (* what happened so far, oldest first *)
}.

Definition initial : Engine := mkEngine [] false [] [].

(** [processQueue] up to its [await]: the guard, the flag, the [shift] and
    the synchronous start of [performAnalysis]. *)
Definition processQueue (e : Engine) : Engine :=
  if (isProcessing e || (length (processingQueue e) =? 0)%nat)%bool then e
  else
    match processingQueue e with
    | [] => e
    | r :: rest =>
        mkEngine rest true (running e ++ [r]) (log e ++ [analysis_started r])
    end.

(** [analyzeAudio] / [analyzeVideo]: [push], then [processQueue]. *)
Definition analyze (r : Request) (e : Engine) : Engine :=
  processQueue (mkEngine (processingQueue e ++ [r]) (isProcessing e)
                         (running e) (log e ++ [analyze_called r])).

Fixpoint remove_at {A : Type} (i : nat) (l : list A) : list A :=
  match l, i with
  | [], _ => []
  | _ :: tl, O => tl
  | hd :: tl, S j => hd :: remove_at j tl
  end.

(** The running analysis of index [i] settles: [resolve] or [reject], then
    the [finally] block.  Nothing happens when there is no such analysis. *)
Definition settle (i : nat) (e : Engine) : Engine :=
  match nth_error (running e) i with
  | None => e
  | Some r =>
      let e1 := mkEngine (processingQueue e) false (remove_at i (running e))
                         (log e ++ [analysis_settled r]) in
      if (0 <? length (processingQueue e1))%nat then processQueue e1 else e1
  end.

Inductive Action :=
| do_analyze (r : Request)
| do_settle (i : nat).

Definition step (e : Engine) (a : Action) : Engine :=
  match a with
  | do_analyze r => analyze r e
  | do_settle i => settle i e
  end.

Definition run (actions : list Action) : Engine :=
  fold_left step actions initial.

Definition called (l : list Event) : list Request :=
  flat_map (fun ev => match ev with analyze_called r => [r] | _ => [] end) l.

Definition started (l : list Event) : list Request :=
  flat_map (fun ev => match ev with analysis_started r => [r] | _ => [] end) l.

Definition settled (l : list Event) : list Request :=
  flat_map (fun ev => match ev with analysis_settled r => [r] | _ => [] end) l.

(** [serial l c]: in the log [l] every analysis starts while no other one
    is running and the analysis that settles is the one running; [c] is the
    analysis running at the end of [l], if any. *)
Inductive serial : list Event -> option Request -> Prop :=
| serial_nil : serial [] None
| serial_called l c r : serial l c -> serial (l ++ [analyze_called r]) c
| serial_started l r :
    serial l None -> serial (l ++ [analysis_started r]) (Some r)
| serial_settled l r :
    serial l (Some r) -> serial (l ++ [analysis_settled r]) None.

End Queue.

Arguments analyze_called {Request} r.
Arguments analysis_started {Request} r.
Arguments analysis_settled {Request} r.
Arguments mkEngine {Request} _ _ _ _.
Arguments processingQueue {Request} e.
Arguments isProcessing {Request} e.
Arguments running {Request} e.
Arguments log {Request} e.
Arguments processQueue {Request} e.
Arguments analyze {Request} r e.
Arguments settle {Request} i e.
Arguments do_analyze {Request} r.
Arguments do_settle {Request} i.
Arguments step {Request} e a.
Arguments run {Request} actions.
Arguments called {Request} l.
Arguments started {Request} l.
Arguments settled {Request} l.
Arguments serial {Request} _ _.
Arguments serial_nil {Request}.
Arguments serial_called {Request} l c r _.
Arguments serial_started {Request} l r _.
Arguments serial_settled {Request} l r _.

End Coordinator.

(** ** Predicates and inputs used to state the properties *)

Module Props.
Import VideoEngine.

(** The loop shared by both flux routines. *)
Definition flux_loop (current previous : list R) (indices : list nat) (flux : R) : R :=
  fold_left (fun flux i =>
               let diff := (nth i current 0 - nth i previous 0)%R in
               if Rgt_dec diff 0 then (flux + diff)%R else flux)
            indices flux.


(** What every reachable state of the queue satisfies: either nothing runs,
    the flag is down and the queue is empty, or the flag is up and exactly
    one analysis runs; and the requests started so far, followed by the
    queue, are the requests received so far, in the order of the calls. *)
Definition queue_invariant {Request : Type} (e : Coordinator.Engine Request) : Prop :=
  ((Coordinator.isProcessing e = false /\ Coordinator.running e = [] /\
    Coordinator.processingQueue e = [] /\
    Coordinator.serial (Coordinator.log e) None) \/
   (Coordinator.isProcessing e = true /\
    exists r, Coordinator.running e = [r] /\
              Coordinator.serial (Coordinator.log e) (Some r))) /\
  Coordinator.called (Coordinator.log e)
  = Coordinator.started (Coordinator.log e) ++ Coordinator.processingQueue e.

(** [chained from scenes to]: the scenes tile the interval from [from] to
    [to]: the first one starts at [from], each one is a non-empty interval,
    each one ends where the next one starts, and the last one ends at [to];
    with no scene at all, [from] is [to]. *)
Fixpoint chained (from : Q) (scenes : list SceneAnalysis) (to : Q) : Prop :=
  match scenes with
  | [] => from = to
  | scene :: rest =>
      scene_start scene = from /\
      (scene_start scene < scene_end scene)%Q /\
      chained (scene_end scene) rest to
  end.

(** The loop of [analyzeScenes] before index [i]: the scenes closed so far
    tile the interval from 0 to the current scene start, which lies before
    the time of frame [i]. *)
Definition loop_invariant (frameInterval : Q) (i : nat)
    (st : list SceneAnalysis * Q) : Prop :=
  chained 0 (fst st) (snd st) /\
  (snd st < inject_Z (Z.of_nat i) * frameInterval)%Q.

(** A colour as the sampling produces them: channels between 0 and 224 and
    a count of at least one. *)
Definition quantized (c : Color) : Prop :=
  (0 <= r c <= 224 /\ 0 <= g c <= 224 /\ 0 <= b c <= 224 /\ 1 <= count c)%Z.

Definition bytes (data : list Z) : Prop := Forall (fun v => (0 <= v <= 255)%Z) data.

(** A [w] x [h] frame whose pixels all carry the bytes [r0 g0 b0 a0]. *)
Definition solid_frame (w h r0 g0 b0 a0 : Z) : ImageData :=
  mkImageData w h (concat (repeat [r0; g0; b0; a0] (Z.to_nat (w * h)))).

(** A colour of the given channels, whatever its count (at least one). *)
Definition of_channels (r0 g0 b0 : Z) (c : Color) : Prop :=
  r c = r0 /\ g c = g0 /\ b c = b0 /\ (1 <= count c)%Z.

(** The range of [Math.random() - 0.5]. *)
Definition centered (x : R) : Prop := (-0.5 <= x < 0.5)%R.

(** A generator for the examples: it alternates between 0 and 1/2. *)
Definition alternating (s : nat) : R * nat :=
  (if Nat.even s then 0%R else 0.5%R, S s).

End Props.

(** ** BaseService: the event system

    [listeners] is a [Map] from event types to [Set]s of listeners; both
    keep insertion order.  A listener is a function, compared by identity:
    here a number.  [emit] returns the listeners it invokes, in order; an
    exception thrown by a listener is caught and logged, and the next one is
    invoked.  Listeners are taken not to register or remove listeners while
    an event is delivered. *)

Module BaseService.

Definition Listener := nat.
Definition Listeners := list (string * list Listener).

(** [listeners.has(eventType)]. *)
Definition has (eventType : string) (listeners : Listeners) : bool :=
  existsb (fun entry => String.eqb (fst entry) eventType) listeners.

(** [listeners.get(eventType)]. *)
Fixpoint get (eventType : string) (listeners : Listeners) : option (list Listener) :=
  match listeners with
  | [] => None
  | (key, set) :: rest =>
      if String.eqb key eventType then Some set else get eventType rest
  end.

(** A method called on the set stored under [eventType], which changes
    that set in place. *)
Fixpoint update (eventType : string) (f : list Listener -> list Listener)
    (listeners : Listeners) : Listeners :=
  match listeners with
  | [] => []
  | (key, set) :: rest =>
      if String.eqb key eventType then (key, f set) :: rest
      else (key, set) :: update eventType f rest
  end.

(** [set.add(listener)]. *)
Definition set_add (listener : Listener) (set : list Listener) : list Listener :=
  if existsb (Nat.eqb listener) set then set else set ++ [listener].

(** [set.delete(listener)]. *)
Definition set_delete (listener : Listener) (set : list Listener) : list Listener :=
  filter (fun l => negb (Nat.eqb listener l)) set.

Definition on (eventType : string) (listener : Listener) (listeners : Listeners)
    : Listeners :=
  let listeners :=
    if negb (has eventType listeners) then listeners ++ [(eventType, [])]
    else listeners in
  update eventType (set_add listener) listeners.

Definition off (eventType : string) (listener : Listener) (listeners : Listeners)
    : Listeners :=
  match get eventType listeners with
  | Some _ => update eventType (set_delete listener) listeners
  | None => listeners
  end.

(** The listeners stored under an event type, none when there is no entry. *)
Definition listeners_of (eventType : string) (listeners : Listeners)
    : list Listener :=
  match get eventType listeners with
  | Some set => set
  | None => []
  end.

(** [emit]: the listeners of the event type, then the listeners of ["*"]. *)
Definition emit (eventType : string) (listeners : Listeners) : list Listener :=
  listeners_of eventType listeners ++ listeners_of "*" listeners.

Inductive Call :=
| call_on (eventType : string) (listener : Listener)
| call_off (eventType : string) (listener : Listener).

Definition call (listeners : Listeners) (c : Call) : Listeners :=
  match c with
  | call_on eventType listener => on eventType listener listeners
  | call_off eventType listener => off eventType listener listeners
  end.

(** The map of a service after a sequence of registrations and removals. *)
Definition after (calls : list Call) : Listeners := fold_left call calls [].

End BaseService.

(** ** Stopping the video engine

    [VideoEngine.doStop] replaces the queue by an empty one and lowers the
    flag.  An analysis that is running goes on: its promise is not
    touched, and its [finally] block runs when it settles.  ([AudioEngine]'s
    [doStop] touches neither the queue nor the flag.) *)

Module VideoLifecycle.

Definition doStop {Request : Type} (e : Coordinator.Engine Request)
    : Coordinator.Engine Request :=
  Coordinator.mkEngine [] false (Coordinator.running e) (Coordinator.log e).

End VideoLifecycle.

(** ** Further predicates used to state properties *)

Module MoreProps.

(** Every running analysis settles, the oldest first, [k] times. *)
Definition settle_all {Request : Type} (k : nat) (e : Coordinator.Engine Request)
    : Coordinator.Engine Request :=
  fold_left Coordinator.step (repeat (Coordinator.do_settle 0) k) e.

(** [advanced p p' samples calls]: from [p] to [p'] the accumulator took in
    [samples] samples over [calls] calls: sizes unchanged, the write index
    inside the buffer, and one message more for every full buffer. *)
Definition advanced (p p' : Worklet.Processor) (samples calls : nat) : Prop :=
  Worklet.bufferSize p' = Worklet.bufferSize p /\
  length (Worklet.buffer p') = length (Worklet.buffer p) /\
  Worklet.frameCount p' = (Worklet.frameCount p + calls)%nat /\
  (Worklet.bufferIndex p' < Worklet.bufferSize p')%nat /\
  (Worklet.bufferSize p * length (Worklet.port p') + Worklet.bufferIndex p'
   = Worklet.bufferSize p * length (Worklet.port p) + Worklet.bufferIndex p
     + samples)%nat.

(** What every [ImageData] object satisfies: positive dimensions and four
    bytes per pixel.  On such frames no loop of the video engine reads
    outside [data]. *)
Definition frame_ok (frame : VideoEngine.ImageData) : Prop :=
  (0 < VideoEngine.width frame)%Z /\ (0 < VideoEngine.height frame)%Z /\
  Z.of_nat (length (VideoEngine.data frame))
  = (4 * VideoEngine.width frame * VideoEngine.height frame)%Z /\
  Props.bytes (VideoEngine.data frame).

(** Two frames of the same video. *)
Definition same_size (frame1 frame2 : VideoEngine.ImageData) : Prop :=
  VideoEngine.width frame1 = VideoEngine.width frame2 /\
  VideoEngine.height frame1 = VideoEngine.height frame2.

(** The frames sampled from one video. *)
Definition clip (frames : list VideoEngine.ImageData) : Prop :=
  Forall frame_ok frames /\
  forall frame1 frame2 : VideoEngine.ImageData,
    In frame1 frames -> In frame2 frames -> same_size frame1 frame2.

(** The state of the search of [findBestMatch] after it has tried the
    shifts in [seen]: nothing tried and the initial (0, 0), or the best
    shift so far with its error, which no tried shift beats. *)
Definition best_so_far (err : Z -> Z -> Q) (seen : Z -> Z -> Prop)
    (acc : Z * Z * option Q) : Prop :=
  match acc with
  | (bestDx, bestDy, None) =>
      (forall dx dy, ~ seen dx dy) /\ bestDx = 0%Z /\ bestDy = 0%Z
  | (bestDx, bestDy, Some bestError) =>
      seen bestDx bestDy /\ bestError = err bestDx bestDy /\
      forall dx dy, seen dx dy -> (bestError <= err dx dy)%Q
  end.

(** The key of a [colorMap] entry. *)
Definition color_key (c : VideoEngine.Color) : Z * Z * Z :=
  (VideoEngine.r c, VideoEngine.g c, VideoEngine.b c).

(** The sum of the counts of a list of colours. *)
Definition total_count (colors : list VideoEngine.Color) : Z :=
  fold_right (fun c total => (VideoEngine.count c + total)%Z) 0%Z colors.

(** [by_count c d]: [c] may stand before [d] in a list sorted by
    decreasing count. *)
Definition by_count (c d : VideoEngine.Color) : Prop :=
  (VideoEngine.count d <= VideoEngine.count c)%Z.

End MoreProps.

(** * Properties *)

(** ** Shared facts *)

Lemma Qltb_lt (x y : Q) : Qltb x y = true <-> (x < y)%Q.
Proof.
  unfold Qltb. rewrite negb_true_iff. split; intro H.
  - apply Qnot_le_lt. intro Hle. apply Qle_bool_iff in Hle. congruence.
  - destruct (Qle_bool y x) eqn:E; [|reflexivity].
    apply Qle_bool_iff in E. exfalso. exact (Qlt_not_le _ _ H E).
Qed.

Lemma Math_round_lower (x : Q) (n : Z) : (inject_Z n <= x)%Q -> (n <= Math_round x)%Z.
Proof.
  intro H. unfold Math_round.
  rewrite <- (Qfloor_Z n). apply Qfloor_resp_le.
  apply Qle_trans with x; [exact H|].
  rewrite <- (Qplus_0_r x) at 1. apply Qplus_le_r. discriminate.
Qed.

Lemma Math_round_upper (x : Q) (n : Z) : (x <= inject_Z n)%Q -> (Math_round x <= n)%Z.
Proof.
  intro H. unfold Math_round.
  assert (Hlt : (Qfloor (x + (1 # 2)) < n + 1)%Z).
  { apply Z.lt_le_trans with (Qfloor (inject_Z n + (1 # 2)) + 1)%Z.
    - assert (Qfloor (x + (1 # 2)) <= Qfloor (inject_Z n + (1 # 2)))%Z.
      { apply Qfloor_resp_le. apply Qplus_le_l. exact H. }
      lia.
    - assert (Qfloor (inject_Z n + (1 # 2)) <= n)%Z; [|lia].
      assert (Hn : (inject_Z n + (1 # 2) < inject_Z (n + 1))%Q).
      { rewrite inject_Z_plus. apply Qplus_lt_r. reflexivity. }
      pose proof (Qfloor_le (inject_Z n + (1 # 2))) as Hf.
      assert (Hz : (inject_Z (Qfloor (inject_Z n + (1 # 2))) < inject_Z (n + 1))%Q)
        by (eapply Qle_lt_trans; eauto).
      rewrite <- Zlt_Qlt in Hz. lia. }
  lia.
Qed.

(** The index sequences of the [for] loops are complete: with a positive
    step, every multiple of the step below the limit is visited. *)
Lemma loop_from_complete (hop limit : Z) (fuel : nat) :
  (0 < hop)%Z ->
  forall (i0 : Z) (j : nat),
    (i0 + Z.of_nat j * hop < limit)%Z -> (j < fuel)%nat ->
    In (i0 + Z.of_nat j * hop)%Z (loop_from fuel i0 limit hop).
Proof.
  intro Hhop. induction fuel as [|fuel IH]; intros i0 j Hlt Hj; [lia|].
  cbn [loop_from].
  assert (E : (i0 <? limit)%Z = true) by (apply Z.ltb_lt; nia).
  rewrite E. destruct j as [|j].
  - left. lia.
  - right. replace (i0 + Z.of_nat (S j) * hop)%Z
      with ((i0 + hop) + Z.of_nat j * hop)%Z by lia.
    apply IH; lia.
Qed.

Lemma loop_indices_complete (hop limit : Z) (j : nat) :
  (0 < hop)%Z -> (Z.of_nat j * hop < limit)%Z ->
  In (Z.of_nat j * hop)%Z (loop_indices limit hop).
Proof.
  intros Hhop Hlt. unfold loop_indices.
  replace (Z.of_nat j * hop)%Z with (0 + Z.of_nat j * hop)%Z by lia.
  apply loop_from_complete; try lia. nia.
Qed.

Lemma loop_fromQ_complete (hop limit : Q) (fuel : nat) :
  (0 < hop)%Q ->
  forall (i0 : Q) (j : nat),
    (i0 + inject_Z (Z.of_nat j) * hop < limit)%Q -> (j < fuel)%nat ->
    exists q, In q (AudioEngine.loop_fromQ fuel i0 limit hop) /\
              (q == i0 + inject_Z (Z.of_nat j) * hop)%Q.
Proof.
  intro Hhop. induction fuel as [|fuel IH]; intros i0 j Hlt Hj; [lia|].
  cbn [AudioEngine.loop_fromQ].
  assert (Hj0 : (0 <= inject_Z (Z.of_nat j) * hop)%Q).
  { apply Qmult_le_0_compat; [|now apply Qlt_le_weak].
    replace 0%Q with (inject_Z 0) by reflexivity. rewrite <- Zle_Qle. lia. }
  assert (E : Qltb i0 limit = true).
  { apply Qltb_lt. eapply Qle_lt_trans; [|exact Hlt].
    rewrite <- (Qplus_0_r i0) at 1. now apply Qplus_le_r. }
  rewrite E. destruct j as [|j].
  - exists i0. split; [now left|]. simpl. ring.
  - assert (Hs : (i0 + inject_Z (Z.of_nat (S j)) * hop
                  == i0 + hop + inject_Z (Z.of_nat j) * hop)%Q).
    { rewrite Nat2Z.inj_succ. unfold Z.succ. rewrite inject_Z_plus. ring. }
    destruct (IH (i0 + hop)%Q j) as (q & Hin & Hq); [now rewrite <- Hs|lia|].
    exists q. split; [now right|]. now rewrite Hq, Hs.
Qed.

Lemma loop_indicesQ_complete (hop limit : Q) (j : nat) :
  (0 < hop)%Q -> (inject_Z (Z.of_nat j) * hop < limit)%Q ->
  exists q, In q (AudioEngine.loop_indicesQ limit hop) /\
            (q == inject_Z (Z.of_nat j) * hop)%Q.
Proof.
  intros Hhop Hlt. unfold AudioEngine.loop_indicesQ.
  destruct (loop_fromQ_complete hop limit
              (Z.to_nat (Qceiling (limit / hop))) Hhop 0%Q j) as (q & Hin & Hq).
  - now rewrite Qplus_0_l.
  - assert (H1 : (inject_Z (Z.of_nat j) < limit / hop)%Q)
      by now apply Qlt_shift_div_l.
    assert (H2 : (inject_Z (Z.of_nat j) < inject_Z (Qceiling (limit / hop)))%Q)
      by (eapply Qlt_le_trans; [exact H1|apply Qle_ceiling]).
    rewrite <- Zlt_Qlt in H2. lia.
  - exists q. split; [exact Hin|]. now rewrite Hq, Qplus_0_l.
Qed.

(** ** Tempo estimation *)

Module TempoFacts.
Import AudioEngine.

Lemma hist_get_In (h : Histogram) (key : Q) (c : Z) :
  hist_get h key = Some c -> exists k, In (k, c) h.
Proof.
  induction h as [|[k v] tl IH]; simpl; [discriminate|].
  destruct (Qeq_bool k key).
  - intros [= <-]. exists k. now left.
  - intro H. destruct (IH H) as [k' Hk']. exists k'. now right.
Qed.

Lemma hist_set_In (h : Histogram) (key : Q) (value : Z) (k : Q) (v : Z) :
  In (k, v) (hist_set h key value) -> v = value \/ In (k, v) h.
Proof.
  induction h as [|[k0 v0] tl IH]; simpl.
  - intros [[= _ <-]|[]]. now left.
  - destruct (Qeq_bool k0 key); simpl.
    + intros [[= _ <-]|H]; [now left|right; now right].
    + intros [H|H]; [right; now left|].
      destruct (IH H) as [->|H']; [now left|right; now right].
Qed.

(** Every count of the histogram lies between 1 and the number of
    intervals put into it. *)
Lemma build_histogram_counts (intervals : list Q) (k : Q) (v : Z) :
  In (k, v) (build_histogram intervals) ->
  (1 <= v <= Z.of_nat (length intervals))%Z.
Proof.
  unfold build_histogram.
  assert (G : forall (l : list Q) (h : Histogram) (n : nat),
             (forall k v, In (k, v) h -> (1 <= v <= Z.of_nat n)%Z) ->
             forall k v,
               In (k, v)
                  (fold_left (fun histogram interval =>
                     let bucket := (inject_Z (Math_round (interval / resolution))
                                    * resolution)%Q in
                     let old := match hist_get histogram bucket with
                                | Some c => c
                                | None => 0%Z
                                end in
                     hist_set histogram bucket (old + 1)%Z) l h) ->
               (1 <= v <= Z.of_nat (n + length l))%Z).
  { induction l as [|x l IH]; intros h n Hh k0 v0; simpl.
    - intro H. rewrite Nat.add_0_r. now apply Hh with k0.
    - intro H. replace (n + S (length l))%nat with (S n + length l)%nat by lia.
      apply IH with (k := k0) (2 := H). clear H k0 v0.
      intros k0 v0 H. apply hist_set_In in H. destruct H as [->|H].
      + destruct (hist_get h _) as [c|] eqn:E.
        * apply hist_get_In in E. destruct E as [k1 Hk1].
          apply Hh in Hk1. lia.
        * lia.
      + apply Hh in H. lia. }
  intro H. apply (G intervals [] O) with (k := k); [intros ? ? []|exact H].
Qed.

(** The peak search returns an interval strictly between 0.2 s and 2 s and
    a count that is 0 or the count of some bucket. *)
Lemma find_peak_spec (histogram : Histogram) :
  let best := find_peak histogram in
  (2 # 10 < snd best)%Q /\ (snd best < 2)%Q /\
  (fst best = 0%Z \/ exists k, In (k, fst best) histogram).
Proof.
  unfold find_peak.
  assert (G : forall (h : Histogram) (best : Z * Q),
             ((2 # 10 < snd best)%Q /\ (snd best < 2)%Q /\
              (fst best = 0%Z \/ exists k, In (k, fst best) histogram)) ->
             (forall e, In e h -> In e histogram) ->
             let best' :=
               fold_left (fun best entry =>
                  let '(interval, count) := entry in
                  if ((fst best <? count)%Z && Qltb (2 # 10) interval
                      && Qltb interval 2)%bool
                  then (count, interval) else best) h best in
             (2 # 10 < snd best')%Q /\ (snd best' < 2)%Q /\
             (fst best' = 0%Z \/ exists k, In (k, fst best') histogram)).
  { induction h as [|[interval count] tl IH]; intros best Hb Hsub; simpl.
    - exact Hb.
    - apply IH; [|intros e He; apply Hsub; now right].
      destruct ((fst best <? count)%Z && Qltb (2 # 10) interval
                && Qltb interval 2)%bool eqn:E; [|exact Hb].
      apply andb_true_iff in E. destruct E as [E E3].
      apply andb_true_iff in E. destruct E as [E1 E2].
      apply Qltb_lt in E2, E3. simpl. repeat split; try assumption.
      right. exists interval. apply Hsub. now left. }
  apply G; [|auto].
  simpl. repeat split; try reflexivity. now left.
Qed.

Lemma bpm_in_range (bestInterval : Q) :
  (2 # 10 < bestInterval)%Q -> (bestInterval < 2)%Q ->
  (30 <= Math_round (60 / bestInterval) <= 300)%Z.
Proof.
  intros Hlo Hhi.
  assert (Hpos : (0 < bestInterval)%Q) by (eapply Qlt_trans; [|exact Hlo]; reflexivity).
  split.
  - apply Math_round_lower. apply Qlt_le_weak. apply Qlt_shift_div_l; [exact Hpos|].
    apply Qlt_le_trans with (30 * 2)%Q; [|discriminate].
    apply Qmult_lt_l; [reflexivity|exact Hhi].
  - apply Math_round_upper. apply Qlt_le_weak. apply Qlt_shift_div_r; [exact Hpos|].
    apply Qle_lt_trans with (300 * (2 # 10))%Q; [discriminate|].
    apply Qmult_lt_l; [reflexivity|exact Hlo].
Qed.

Lemma confidence_in_range (maxCount : Z) (n : nat) :
  (0 <= maxCount <= Z.of_nat n)%Z -> (0 < n)%nat ->
  (0 <= inject_Z maxCount / inject_Z (Z.of_nat n) <= 1)%Q.
Proof.
  intros [H0 Hn] Hpos.
  assert (Hq : (0 < inject_Z (Z.of_nat n))%Q).
  { replace 0%Q with (inject_Z 0) by reflexivity. rewrite <- Zlt_Qlt. lia. }
  split.
  - apply Qle_shift_div_l; [exact Hq|]. rewrite Qmult_0_l.
    replace 0%Q with (inject_Z 0) by reflexivity. now rewrite <- Zle_Qle.
  - apply Qle_shift_div_r; [exact Hq|]. rewrite Qmult_1_l. now rewrite <- Zle_Qle.
Qed.

Lemma intervals_of_length (onsets : list Q) :
  length (intervals_of onsets) = (length onsets - 1)%nat.
Proof. unfold intervals_of. now rewrite length_map, length_seq. Qed.

Lemma estimateTempo_in_range (onsets : list Q) (sampleRate : Q) :
  (30 <= bpm (estimateTempo onsets sampleRate) <= 300)%Z /\
  (0 <= confidence (estimateTempo onsets sampleRate) <= 1)%Q.
Proof.
  unfold estimateTempo.
  destruct (length onsets <? 4)%nat eqn:E.
  - simpl. split; [lia|split; discriminate].
  - apply Nat.ltb_ge in E.
    pose proof (find_peak_spec (build_histogram (intervals_of onsets))) as H.
    destruct (find_peak (build_histogram (intervals_of onsets)))
      as [maxCount bestInterval].
    simpl in H. destruct H as (Hlo & Hhi & Hc). simpl. split.
    + now apply bpm_in_range.
    + apply confidence_in_range.
      * destruct Hc as [->|[k Hk]].
        -- lia.
        -- apply build_histogram_counts in Hk. lia.
      * rewrite intervals_of_length. lia.
Qed.

End TempoFacts.

(** A click every half second: 120 bpm, every interval in the peak bucket. *)
Example estimateTempo_click_track :
  AudioEngine.estimateTempo [0; 1 # 2; 1; 3 # 2; 2; 5 # 2; 3]%Q 44100
  = AudioEngine.mkTempo 120 (6 # 6).
Proof. reflexivity. Qed.

(** Onsets a tenth of a second apart: no bucket in range, the defaults. *)
Example estimateTempo_out_of_range :
  AudioEngine.estimateTempo [0; 1 # 10; 2 # 10; 3 # 10; 4 # 10]%Q 44100
  = AudioEngine.mkTempo 120 (0 # 4).
Proof. reflexivity. Qed.

(** C4.  With fewer than 4 onsets, tempo estimation returns bpm 120 and
    confidence 0: [estimateTempo] leaves through its first branch, before
    the intervals and the histogram are built, and so does [detectTempo]
    when onset detection yields fewer than 4 onsets. *)
Theorem C4_fewer_than_4_onsets :
  forall (onsets : list Q) (sampleRate : Q),
    (length onsets < 4)%nat ->
    AudioEngine.estimateTempo onsets sampleRate = AudioEngine.mkTempo 120 0 /\
    (forall channelData,
        AudioEngine.detectOnsets channelData sampleRate = onsets ->
        AudioEngine.detectTempo channelData sampleRate = AudioEngine.mkTempo 120 0).
Proof.
  intros onsets sampleRate H.
  assert (E : AudioEngine.estimateTempo onsets sampleRate = AudioEngine.mkTempo 120 0).
  { unfold AudioEngine.estimateTempo.
    apply Nat.ltb_lt in H. now rewrite H. }
  split; [exact E|].
  intros channelData Hd. unfold AudioEngine.detectTempo. now rewrite Hd.
Qed.

Lemma C4_fewer_than_4_onsets_witness :
  AudioEngine.estimateTempo [0; 1 # 2; 1]%Q 44100 = AudioEngine.mkTempo 120 0.
Proof.
  apply (C4_fewer_than_4_onsets [0; 1 # 2; 1]%Q 44100). simpl. lia.
Defined.

(** C5.  For every list of onsets, hence for every audio input, the tempo
    returned satisfies 30 <= bpm <= 300 and 0 <= confidence <= 1. *)
Theorem C5_bpm_and_confidence_ranges :
  forall (sampleRate : Q),
    (forall onsets : list Q,
        (30 <= AudioEngine.bpm (AudioEngine.estimateTempo onsets sampleRate) <= 300)%Z /\
        (0 <= AudioEngine.confidence (AudioEngine.estimateTempo onsets sampleRate) <= 1)%Q) /\
    (forall channelData : list R,
        (30 <= AudioEngine.bpm (AudioEngine.detectTempo channelData sampleRate) <= 300)%Z /\
        (0 <= AudioEngine.confidence (AudioEngine.detectTempo channelData sampleRate) <= 1)%Q).
Proof.
  intro sampleRate. split.
  - intro onsets. apply TempoFacts.estimateTempo_in_range.
  - intro channelData. unfold AudioEngine.detectTempo.
    apply TempoFacts.estimateTempo_in_range.
Qed.

(** ** The single-flight queue *)

Module CoordinatorFacts.
Import Coordinator Props.
Section Queue.
Context {Request : Type}.

Lemma called_app (l1 l2 : list (Event Request)) :
  called (l1 ++ l2) = called l1 ++ called l2.
Proof. apply flat_map_app. Qed.

Lemma started_app (l1 l2 : list (Event Request)) :
  started (l1 ++ l2) = started l1 ++ started l2.
Proof. apply flat_map_app. Qed.

Lemma invariant_initial : queue_invariant (initial Request).
Proof.
  split; [left; repeat split; constructor|reflexivity].
Qed.

Lemma invariant_analyze (r : Request) (e : Engine Request) :
  queue_invariant e -> queue_invariant (analyze r e).
Proof.
  intros [[(Hp & Hr & Hq & Hs)|(Hp & r0 & Hr & Hs)] Hc];
    unfold analyze, processQueue; simpl; rewrite Hp; simpl.
  - rewrite Hq. simpl. split.
    + right. split; [reflexivity|]. exists r. rewrite Hr. split; [reflexivity|].
      simpl. apply serial_started. now apply serial_called.
    + simpl. rewrite called_app, !started_app, called_app. simpl.
      rewrite Hc, Hq. now rewrite !app_nil_r.
  - split.
    + right. split; [reflexivity|]. exists r0. split; [exact Hr|].
      simpl. now apply serial_called.
    + simpl. rewrite called_app, started_app. simpl.
      rewrite Hc. now rewrite app_nil_r, app_assoc.
Qed.

Lemma invariant_settle (i : nat) (e : Engine Request) :
  queue_invariant e -> queue_invariant (settle i e).
Proof.
  intros [[(Hp & Hr & Hq & Hs)|(Hp & r0 & Hr & Hs)] Hc]; unfold settle.
  - rewrite Hr. destruct i; simpl; (split; [left; auto|exact Hc]).
  - rewrite Hr. destruct i as [|i]; simpl.
    + destruct (processingQueue e) as [|r1 rest] eqn:Hq; simpl.
      * split.
        -- left. simpl. repeat split; try assumption. now apply serial_settled.
        -- simpl. rewrite called_app, started_app. simpl.
           rewrite Hc. now rewrite !app_nil_r.
      * unfold processQueue. simpl. split.
        -- right. simpl. split; [reflexivity|]. exists r1.
           split; [reflexivity|]. apply serial_started. now apply serial_settled.
        -- simpl. rewrite !called_app, !started_app. simpl.
           rewrite Hc. now rewrite !app_nil_r, <- app_assoc.
    + destruct i; simpl; (split; [right; eauto|exact Hc]).
Qed.

Lemma run_snoc (actions : list (Action Request)) (a : Action Request) :
  run (actions ++ [a]) = step (run actions) a.
Proof. unfold run. now rewrite fold_left_app. Qed.

Lemma invariant_run (actions : list (Action Request)) :
  queue_invariant (run actions).
Proof.
  induction actions as [|a actions IH] using rev_ind.
  - apply invariant_initial.
  - rewrite run_snoc. destruct a as [r|i]; simpl.
    + now apply invariant_analyze.
    + now apply invariant_settle.
Qed.

End Queue.
End CoordinatorFacts.

(** Two calls in a row: the second request waits in the queue until the
    first one settles, and is started at that moment. *)
Example two_concurrent_calls :
  let e := Coordinator.run [Coordinator.do_analyze 1%nat; Coordinator.do_analyze 2%nat] in
  Coordinator.running e = [1%nat] /\ Coordinator.processingQueue e = [2%nat] /\
  Coordinator.log (Coordinator.settle 0 e)
  = [Coordinator.analyze_called 1%nat; Coordinator.analysis_started 1%nat;
     Coordinator.analyze_called 2%nat; Coordinator.analysis_settled 1%nat;
     Coordinator.analysis_started 2%nat].
Proof. repeat split. Qed.

(** C3.  After any sequence of calls of the entry point and of settlements:
    at most one analysis runs; in the log every analysis starts while no
    other one runs (the windows between start and settlement never
    overlap); the requests started, in the order of their analysis-started
    events, followed by the waiting queue, are the requests received in the
    order of the calls (first in, first out); and no request waits while
    nothing runs. *)
Theorem C3_single_flight_fifo :
  forall (Request : Type) (actions : list (Coordinator.Action Request)),
    let e := Coordinator.run actions in
    (length (Coordinator.running e) <= 1)%nat /\
    (exists c, Coordinator.serial (Coordinator.log e) c) /\
    Coordinator.called (Coordinator.log e)
    = Coordinator.started (Coordinator.log e) ++ Coordinator.processingQueue e /\
    (Coordinator.running e = [] -> Coordinator.processingQueue e = []).
Proof.
  intros Request actions e.
  destruct (CoordinatorFacts.invariant_run actions)
    as [[(Hp & Hr & Hq & Hs)|(Hp & r0 & Hr & Hs)] Hc]; fold e in Hp, Hr, Hs, Hc.
  - fold e in Hq. rewrite Hr. simpl. repeat split; eauto.
  - rewrite Hr. simpl. repeat split; eauto. discriminate.
Qed.

(** ** Magnitude spectra *)

Module SpectrumFacts.
Local Open Scope R_scope.
Import SpectralSpec.

Lemma fold_left_pair_sum (f g : nat -> R) (l : list nat) (a b : R) :
  fold_left (fun acc n => (fst acc + f n, snd acc + g n)) l (a, b)
  = (a + fold_right Rplus 0 (map f l), b + fold_right Rplus 0 (map g l)).
Proof.
  revert a b. induction l as [|n l IH]; intros a b; simpl.
  - f_equal; ring.
  - rewrite IH. f_equal; ring.
Qed.

Lemma nth_map_seq (f : nat -> R) (len i : nat) :
  (i < len)%nat -> nth i (map f (seq 0 len)) 0 = f i.
Proof.
  intro H. rewrite (nth_indep _ 0 (f O)) by now rewrite length_map, length_seq.
  rewrite (map_nth f (seq 0 len) O i). now rewrite seq_nth.
Qed.

Lemma nth_repeat_0 (len i : nat) : nth i (repeat 0 len) 0 = 0.
Proof.
  revert i. induction len as [|len IH]; intros [|i]; simpl; auto.
Qed.

(** The worklet routine is the direct summation on the samples as they are. *)
Lemma worklet_spectrum_is_dft (buffer : list R) :
  Worklet.computeMagnitudeSpectrum buffer = dft_magnitudes buffer.
Proof.
  unfold Worklet.computeMagnitudeSpectrum, dft_magnitudes.
  apply map_ext. intro k.
  rewrite (fold_left_pair_sum
             (fun n => Worklet.get buffer n
                       * cos (-2 * PI * INR k * INR n / INR (length buffer)))
             (fun n => Worklet.get buffer n
                       * sin (-2 * PI * INR k * INR n / INR (length buffer)))).
  unfold dft_magnitude, correlation, Worklet.get.
  now rewrite !Rplus_0_l.
Qed.

(** The engine routine returns the absolute values of the first half of
    the Hann-windowed samples. *)
Lemma engine_spectrum_is_windowed_abs (window : list R) :
  AudioEngine.computeSpectrum window
  = map (fun i => Rabs (nth i window 0 * hann (length window) i))
        (seq 0 (length window / 2)).
Proof.
  unfold AudioEngine.computeSpectrum.
  apply map_ext_in. intros i Hi. apply in_seq in Hi.
  assert (Hlt : (i < length window)%nat).
  { pose proof (Nat.Div0.div_le_upper_bound (length window) 2 (length window)).
    assert (length window / 2 <= length window)%nat by (apply H; lia). lia. }
  unfold AudioEngine.get.
  rewrite nth_map_seq by exact Hlt.
  rewrite nth_repeat_0. unfold hann.
  rewrite Rmult_0_l, Rplus_0_r. apply sqrt_Rsqr_abs.
Qed.

Lemma zero_bin_angle (n N : R) : -2 * PI * 0 * n / N = 0.
Proof. unfold Rdiv. ring. Qed.

Lemma hann_first (N : nat) : hann N 0 = 0.
Proof.
  unfold hann. simpl INR.
  replace (2 * PI * 0 / (INR N - 1)) with 0 by (unfold Rdiv; ring).
  rewrite cos_0. lra.
Qed.

Lemma hann_2_1 : hann 2 1 = 0.
Proof.
  unfold hann. simpl INR.
  replace (2 * PI * 1 / (1 + 1 - 1)) with (2 * PI) by field.
  rewrite cos_2PI. lra.
Qed.

Lemma hann_4_1 : hann 4 1 = 3 / 4.
Proof.
  unfold hann. simpl INR.
  replace (2 * PI * 1 / (1 + 1 + 1 + 1 - 1)) with (2 * (PI / 3)) by field.
  rewrite cos_2PI3. lra.
Qed.

End SpectrumFacts.

(** C1, as stated, fails for both routines.  On the window [1; 1] the
    worklet returns the magnitude 2 of the raw samples, where the contract
    gives 0 (the Hann window of two samples is zero everywhere).  On the
    window [0; 1; 0; 0] the engine returns 0 in bin 0, the absolute value of
    the first windowed sample, where the contract gives 3/4. *)
Lemma C1_counterexample :
  Worklet.computeMagnitudeSpectrum [1; 1]%R
  <> SpectralSpec.magnitude_spectrum_contract [1; 1]%R /\
  AudioEngine.computeSpectrum [0; 1; 0; 0]%R
  <> SpectralSpec.magnitude_spectrum_contract [0; 1; 0; 0]%R.
Proof.
  split; intro H.
  - rewrite SpectrumFacts.worklet_spectrum_is_dft in H.
    unfold SpectralSpec.magnitude_spectrum_contract, SpectralSpec.dft_magnitudes,
      SpectralSpec.hann_window in H.
    cbn [length map seq Nat.div Nat.divmod fst nth] in H.
    injection H as H.
    unfold SpectralSpec.dft_magnitude, SpectralSpec.correlation in H.
    cbn [length map seq nth fold_right INR] in H.
    rewrite !SpectrumFacts.zero_bin_angle in H.
    rewrite SpectrumFacts.hann_first, SpectrumFacts.hann_2_1 in H.
    rewrite cos_0, sin_0 in H.
    replace ((1 * 1 + (1 * 1 + 0)) * (1 * 1 + (1 * 1 + 0))
             + (1 * 0 + (1 * 0 + 0)) * (1 * 0 + (1 * 0 + 0)))%R
      with (2 * 2)%R in H by ring.
    replace ((1 * 0 * 1 + (1 * 0 * 1 + 0)) * (1 * 0 * 1 + (1 * 0 * 1 + 0))
             + (1 * 0 * 0 + (1 * 0 * 0 + 0)) * (1 * 0 * 0 + (1 * 0 * 0 + 0)))%R
      with 0%R in H by ring.
    rewrite sqrt_square, sqrt_0 in H by lra. lra.
  - rewrite SpectrumFacts.engine_spectrum_is_windowed_abs in H.
    unfold SpectralSpec.magnitude_spectrum_contract, SpectralSpec.dft_magnitudes,
      SpectralSpec.hann_window in H.
    cbn [length map seq Nat.div Nat.divmod fst nth] in H.
    injection H as H _.
    unfold SpectralSpec.dft_magnitude, SpectralSpec.correlation in H.
    cbn [length map seq nth fold_right INR] in H.
    rewrite !SpectrumFacts.zero_bin_angle in H.
    rewrite SpectrumFacts.hann_first, SpectrumFacts.hann_4_1 in H.
    rewrite cos_0, sin_0 in H.
    match type of H with
    | _ = sqrt ?e => replace e with ((3 / 4) * (3 / 4))%R in H by ring
    end.
    rewrite sqrt_square in H by lra.
    rewrite Rmult_0_l, Rabs_R0 in H. lra.
Qed.

(** C1, amended.  The two routines compute different things.  The worklet's
    [computeMagnitudeSpectrum] returns, for each of the first N/2 bins,
    sqrt(real^2 + imag^2) of the direct cosine and sine summations over the
    samples as given: no window is applied.  The engine's [computeSpectrum]
    applies the Hann window and returns, for each of the first N/2 bins, the
    absolute value of the windowed sample of the same index: no summation
    is made. *)
Theorem C1_spectrum_routines :
  forall samples : list R,
    Worklet.computeMagnitudeSpectrum samples
    = SpectralSpec.dft_magnitudes samples /\
    AudioEngine.computeSpectrum samples
    = map (fun i => Rabs (nth i samples 0%R
                          * SpectralSpec.hann (length samples) i)%R)
          (seq 0 (length samples / 2)).
Proof.
  intro samples. split.
  - apply SpectrumFacts.worklet_spectrum_is_dft.
  - apply SpectrumFacts.engine_spectrum_is_windowed_abs.
Qed.

(** ** Spectral flux *)

Module FluxFacts.
Local Open Scope R_scope.
Import SpectralSpec Props.

Lemma flux_loop_shift (x y : R) (current previous : list R) (l : list nat) (flux : R) :
  flux_loop (x :: current) (y :: previous) (map S l) flux
  = flux_loop current previous l flux.
Proof.
  revert flux. induction l as [|i l IH]; intro flux; simpl; [reflexivity|].
  apply IH.
Qed.

Lemma flux_loop_sum (current : list R) :
  forall (previous : list R) (flux : R),
    length current = length previous ->
    flux_loop current previous (seq 0 (length current)) flux
    = flux + fold_right Rplus 0
               (map (fun cp => Rmax 0 (fst cp - snd cp)) (combine current previous)).
Proof.
  induction current as [|x current IH]; intros [|y previous] flux Hlen;
    try discriminate; simpl.
  - ring.
  - rewrite <- seq_shift.
    change (fold_left _ (map S (seq 0 (length current))) ?a)
      with (flux_loop (x :: current) (y :: previous)
                      (map S (seq 0 (length current))) a).
    rewrite flux_loop_shift, IH by (simpl in Hlen; congruence).
    unfold Rmax. destruct (Rgt_dec (x - y) 0), (Rle_dec 0 (x - y)); lra.
Qed.

Lemma engine_flux (current previous : list R) :
  length current = length previous ->
  AudioEngine.computeSpectralFlux current previous = rectified_mean current previous.
Proof.
  intro Hlen. unfold AudioEngine.computeSpectralFlux, rectified_mean.
  change (fold_left _ (seq 0 (length current)) 0)
    with (flux_loop current previous (seq 0 (length current)) 0).
  rewrite flux_loop_sum by exact Hlen. now rewrite Rplus_0_l.
Qed.

Lemma worklet_flux (p : Worklet.Processor) (buf previous : list R) :
  Worklet.prevSpectrum p = Some previous ->
  length (Worklet.computeMagnitudeSpectrum buf) = length previous ->
  Worklet.computeSpectralFlux p buf
  = (rectified_mean (Worklet.computeMagnitudeSpectrum buf) previous,
     Worklet.mkProcessor (Worklet.bufferSize p) (Worklet.buffer p)
       (Worklet.bufferIndex p) (Worklet.frameCount p)
       (Some (Worklet.computeMagnitudeSpectrum buf)) (Worklet.port p)).
Proof.
  intros Hprev Hlen. unfold Worklet.computeSpectralFlux. rewrite Hprev.
  f_equal. unfold rectified_mean.
  change (fold_left _ (seq 0 (length ?c)) 0)
    with (flux_loop c previous (seq 0 (length c)) 0).
  rewrite flux_loop_sum by exact Hlen. now rewrite Rplus_0_l.
Qed.

End FluxFacts.

(** C7.  For two spectra of equal length both flux routines return the mean
    over the bins of the positive parts of current - previous.  The worklet
    routine, which keeps the previous spectrum itself, returns 0 when it has
    none, and in both cases keeps the spectrum just computed as the new
    previous one.  The engine routine takes both spectra as arguments; its
    caller, the loop of [detectOnsets], computes no flux on the first window
    (so no onset: the same as a flux of 0) and keeps that window's spectrum
    as the previous one. *)
Theorem C7_spectral_flux :
  forall current previous : list R,
    length current = length previous ->
    AudioEngine.computeSpectralFlux current previous
    = SpectralSpec.rectified_mean current previous /\
    (forall (p : Worklet.Processor) (buf : list R),
        Worklet.computeMagnitudeSpectrum buf = current ->
        (Worklet.prevSpectrum p = Some previous ->
         fst (Worklet.computeSpectralFlux p buf)
         = SpectralSpec.rectified_mean current previous) /\
        (Worklet.prevSpectrum p = None ->
         fst (Worklet.computeSpectralFlux p buf) = 0%R) /\
        Worklet.prevSpectrum (snd (Worklet.computeSpectralFlux p buf))
        = Some current) /\
    (forall (audioData : list R) (sampleRate : Q) (onsets : list Q) (i : Z),
        AudioEngine.detectOnsets_step audioData sampleRate (None, onsets) i
        = (Some (AudioEngine.computeSpectrum
                   (slice (Z.to_nat i) (Z.to_nat (i + 1024)) audioData)),
           onsets)).
Proof.
  intros current previous Hlen. split; [|split].
  - now apply FluxFacts.engine_flux.
  - intros p buf Hbuf. split; [|split].
    + intro Hprev. rewrite (FluxFacts.worklet_flux p buf previous Hprev)
        by (rewrite Hbuf; exact Hlen).
      simpl. now rewrite Hbuf.
    + intro Hprev. unfold Worklet.computeSpectralFlux. now rewrite Hprev.
    + unfold Worklet.computeSpectralFlux.
      destruct (Worklet.prevSpectrum p); simpl; now rewrite Hbuf.
  - intros. reflexivity.
Qed.

Lemma C7_spectral_flux_witness :
  AudioEngine.computeSpectralFlux [1; 0]%R [0; 1]%R
  = SpectralSpec.rectified_mean [1; 0]%R [0; 1]%R.
Proof.
  apply (C7_spectral_flux [1; 0]%R [0; 1]%R). reflexivity.
Defined.

(** ** The streaming accumulator *)

Module WorkletFacts.
Import Worklet.

Lemma pushSample_counters (sampleRate : Q) (p : Processor) (x : R) :
  frameCount (pushSample sampleRate p x) = frameCount p /\
  bufferSize (pushSample sampleRate p x) = bufferSize p.
Proof.
  unfold pushSample. simpl.
  destruct (bufferSize p <=? S (bufferIndex p))%nat; simpl; [|auto].
  unfold analyzeBuffer, extractFeatures, computeSpectralFlux. simpl.
  destruct (prevSpectrum p); simpl; auto.
Qed.

Lemma pushSample_port (sampleRate : Q) (p : Processor) (x : R) (m : Message) :
  In m (port (pushSample sampleRate p x)) ->
  In m (port p) \/
  msg_timestamp m
  = (inject_Z (Z.of_nat (frameCount p)) * inject_Z (Z.of_nat (bufferSize p))
     / sampleRate)%Q.
Proof.
  unfold pushSample. simpl.
  destruct (bufferSize p <=? S (bufferIndex p))%nat; simpl; [|auto].
  unfold analyzeBuffer, extractFeatures, computeSpectralFlux. simpl.
  destruct (prevSpectrum p); simpl; intro H; apply in_app_or in H;
    (destruct H as [H|[<-|[]]]; [now left|now right]).
Qed.

(** Every message posted during one call of [processAudioData] is stamped
    with the number of calls completed before it, times the buffer size,
    over the sample rate. *)
Lemma processAudioData_timestamps (sampleRate : Q) (audioData : list R) :
  forall (p : Processor) (m : Message),
    In m (port (processAudioData sampleRate p audioData)) ->
    In m (port p) \/
    msg_timestamp m
    = (inject_Z (Z.of_nat (frameCount p)) * inject_Z (Z.of_nat (bufferSize p))
       / sampleRate)%Q.
Proof.
  unfold processAudioData. simpl.
  induction audioData as [|x audioData IH]; intros p m; simpl; [auto|].
  intro H. apply IH in H.
  destruct (pushSample_counters sampleRate p x) as [-> ->] in H.
  destruct H as [H|H]; [|now right].
  now apply pushSample_port in H.
Qed.

End WorkletFacts.

(** One chunk of 2048 samples fills the buffer during the first call: the
    message is stamped 0. *)
Example first_fill_of_a_full_chunk :
  map (fun m => Qred (Worklet.msg_timestamp m))
      (Worklet.port (Worklet.processAll 48000 Worklet.constructor
                       [repeat 0%R 2048]))
  = [0].
Proof. lazy -[Worklet.extractFeatures Rplus Rmult R0 R1 IZR]. reflexivity. Qed.

(** C6 at a failing input: sixteen chunks of 128 samples at 48000 Hz.  The
    buffer fills once, on the last sample of the sixteenth chunk, when 2048
    samples have been processed; the only message posted is stamped
    15 * 2048 / 48000 = 16/25 s (fifteen completed calls), not
    2048 / 48000 = 16/375 s. *)
Theorem C6_first_fill_timestamp :
  map (fun m => Qred (Worklet.msg_timestamp m))
      (Worklet.port (Worklet.processAll 48000 Worklet.constructor
                       (repeat (repeat 0%R 128) 16)))
  = [16 # 25] /\
  ~ (16 # 25 == 1 * 2048 / 48000)%Q.
Proof.
  split.
  - lazy -[Worklet.extractFeatures Rplus Rmult R0 R1 IZR]. reflexivity.
  - discriminate.
Qed.

(** ** Scene segmentation *)

Module SceneFacts.
Import VideoEngine Props.

Lemma chained_snoc (from : Q) (scenes : list SceneAnalysis) (mid to : Q)
    (ty : SceneType) (conf : Q) :
  chained from scenes mid -> (mid < to)%Q ->
  chained from (scenes ++ [mkSceneAnalysis mid to ty conf]) to.
Proof.
  revert from. induction scenes as [|scene rest IH]; intros from H Hlt; simpl in *.
  - subst. repeat split. exact Hlt.
  - destruct H as (H1 & H2 & H3). repeat split; auto.
Qed.

Section Loop.
Variables (frames : list ImageData) (frameInterval : Q).
Hypothesis frameInterval_pos : (0 < frameInterval)%Q.

Lemma index_step (i : nat) :
  (inject_Z (Z.of_nat i) * frameInterval
   < inject_Z (Z.of_nat (S i)) * frameInterval)%Q.
Proof.
  apply Qmult_lt_compat_r; [exact frameInterval_pos|].
  rewrite <- Zlt_Qlt. lia.
Qed.

Lemma analyzeScenes_step_invariant (i : nat) (st : list SceneAnalysis * Q) :
  loop_invariant frameInterval i st ->
  loop_invariant frameInterval (S i) (analyzeScenes_step frames frameInterval st i).
Proof.
  intros [Hc Hlt]. unfold analyzeScenes_step.
  destruct (Rgt_dec _ _); unfold loop_invariant; simpl.
  - split; [now apply chained_snoc|apply index_step].
  - split; [exact Hc|]. eapply Qlt_trans; [exact Hlt|apply index_step].
Qed.

Lemma analyzeScenes_loop_invariant (len start : nat) (st : list SceneAnalysis * Q) :
  loop_invariant frameInterval start st ->
  loop_invariant frameInterval (start + len)
    (fold_left (analyzeScenes_step frames frameInterval) (seq start len) st).
Proof.
  revert start st. induction len as [|len IH]; intros start st H; simpl.
  - now rewrite Nat.add_0_r.
  - replace (start + S len)%nat with (S start + len)%nat by lia.
    apply IH. now apply analyzeScenes_step_invariant.
Qed.

End Loop.

Lemma analyzeScenes_partition (frames : list ImageData) (duration : Q) :
  (0 < duration)%Q -> frames <> [] ->
  exists scenes,
    analyzeScenes frames duration = Some scenes /\ chained 0 scenes duration.
Proof.
  intros Hd Hne. unfold analyzeScenes.
  assert (Hn : (0 < length frames)%nat)
    by (destruct frames; [congruence|simpl; lia]).
  set (n := length frames) in *.
  set (fi := (duration / inject_Z (Z.of_nat n))%Q).
  assert (Hnq : (0 < inject_Z (Z.of_nat n))%Q).
  { replace 0%Q with (inject_Z 0) by reflexivity. rewrite <- Zlt_Qlt. lia. }
  assert (Hfi : (0 < fi)%Q).
  { unfold fi. apply Qlt_shift_div_l; [exact Hnq|]. now rewrite Qmult_0_l. }
  pose proof (analyzeScenes_loop_invariant frames fi Hfi (n - 1) 1 ([], 0%Q)) as H.
  destruct (fold_left (analyzeScenes_step frames fi) (seq 1 (n - 1)) ([], 0%Q))
    as [scenes cur].
  destruct H as [Hc Hlt].
  { split; [reflexivity|]. simpl. now rewrite Qmult_1_l. }
  cbn [fst snd] in Hc, Hlt.
  assert (Hcur : (cur < duration)%Q).
  { replace (1 + (n - 1))%nat with n in Hlt by lia.
    eapply Qlt_le_trans; [exact Hlt|].
    unfold fi. rewrite Qmult_div_r; [apply Qle_refl|].
    intro E. rewrite E in Hnq. discriminate. }
  apply Qltb_lt in Hcur. rewrite Hcur.
  destruct (nth_error frames (n - 1)) as [last|] eqn:E.
  - eexists. split; [reflexivity|]. apply chained_snoc; [exact Hc|].
    now apply Qltb_lt.
  - apply nth_error_None in E. fold n in E. lia.
Qed.

End SceneFacts.

(** C2.  For every positive total duration: with at least one frame,
    scene segmentation returns a scene list; and whenever it returns one
    (without any frame the final classification raises instead), the list
    tiles [0, duration]: the first scene starts at 0, every scene is a
    non-empty interval that ends where the next one starts, and the last
    scene ends at the total duration. *)
Theorem C2_scenes_partition_duration :
  forall (frames : list VideoEngine.ImageData) (duration : Q),
    (0 < duration)%Q ->
    (frames <> [] ->
     exists scenes, VideoEngine.analyzeScenes frames duration = Some scenes) /\
    (forall scenes,
        VideoEngine.analyzeScenes frames duration = Some scenes ->
        Props.chained 0 scenes duration).
Proof.
  intros frames duration Hd. split.
  - intro Hne.
    destruct (SceneFacts.analyzeScenes_partition frames duration Hd Hne)
      as (scenes & H & _).
    now exists scenes.
  - intros scenes H. destruct frames as [|f frames].
    + unfold VideoEngine.analyzeScenes in H. simpl in H.
      apply Qltb_lt in Hd. rewrite Hd in H. discriminate.
    + destruct (SceneFacts.analyzeScenes_partition (f :: frames) duration Hd)
        as (scenes' & H' & Hc); [discriminate|].
      rewrite H in H'. injection H' as <-. exact Hc.
Qed.

(** ** Colour quantization and clustering *)

Module ColorFacts.
Import VideoEngine Props.
Local Open Scope Z_scope.

Lemma get_byte (data : list Z) (i : Z) : bytes data -> 0 <= get data i <= 255.
Proof.
  intro H. unfold get. destruct (i <? 0); [lia|].
  destruct (nth_in_or_default (Z.to_nat i) data 0) as [Hin| ->]; [|lia].
  unfold bytes in H. rewrite Forall_forall in H. now apply H.
Qed.

Lemma colorDistanceSq_nonneg (c1 c2 : Color) : 0 <= colorDistanceSq c1 c2.
Proof. unfold colorDistanceSq. nia. Qed.

(** Comparing distances and comparing their squares decide the same. *)
Lemma colorDistance_lt_iff (c1 c2 c3 c4 : Color) :
  (colorDistance c1 c2 < colorDistance c3 c4)%R
  <-> colorDistanceSq c1 c2 < colorDistanceSq c3 c4.
Proof.
  unfold colorDistance.
  pose proof (colorDistanceSq_nonneg c1 c2) as H12.
  pose proof (colorDistanceSq_nonneg c3 c4) as H34.
  split; intro H.
  - apply lt_IZR. apply sqrt_lt_0_alt. exact H.
  - apply sqrt_lt_1_alt. split; [now apply IZR_le|now apply IZR_lt].
Qed.

Lemma quantize_range (v : Z) : 0 <= v <= 255 -> 0 <= quantize v <= 224.
Proof.
  intro H. unfold quantize.
  assert (0 <= v / 32 <= 7).
  { split; [apply Z.div_pos; lia|].
    apply Z.lt_succ_r. apply Z.div_lt_upper_bound; lia. }
  lia.
Qed.

Lemma colorMap_add_quantized (colorMap : list Color) (r0 g0 b0 : Z) :
  Forall quantized colorMap ->
  0 <= r0 <= 224 -> 0 <= g0 <= 224 -> 0 <= b0 <= 224 ->
  Forall quantized (colorMap_add colorMap r0 g0 b0).
Proof.
  intros H Hr Hg Hb. induction H as [|c rest Hc Hrest IH]; simpl.
  - repeat constructor; simpl; lia.
  - destruct (same_key c r0 g0 b0).
    + constructor; [|exact Hrest].
      destruct Hc as (? & ? & ? & ?). repeat split; simpl; lia.
    + now constructor.
Qed.

Lemma sort_insert_Forall (P : Color -> Prop) (c : Color) (sorted : list Color) :
  P c -> Forall P sorted -> Forall P (sort_insert c sorted).
Proof.
  intros Hc H. induction H as [|d rest Hd Hrest IH]; simpl.
  - now repeat constructor.
  - destruct (count c <? count d); repeat constructor; assumption.
Qed.

Lemma sort_by_count_Forall (P : Color -> Prop) (colors : list Color) :
  Forall P colors -> Forall P (sort_by_count colors).
Proof.
  intro H. induction H as [|c rest Hc Hrest IH]; simpl; [constructor|].
  now apply sort_insert_Forall.
Qed.

Lemma firstn_Forall {A : Type} (P : A -> Prop) (n : nat) (l : list A) :
  Forall P l -> Forall P (firstn n l).
Proof.
  intro H. revert n. induction H as [|x l Hx Hl IH]; intros [|n]; simpl;
    constructor; auto.
Qed.

Lemma extractDominantColors_quantized (frame : ImageData) (n : nat) :
  bytes (data frame) -> Forall quantized (extractDominantColors frame n).
Proof.
  intro H. unfold extractDominantColors.
  apply firstn_Forall, sort_by_count_Forall.
  generalize (loop_indices (Z.of_nat (length (data frame))) 16).
  assert (G : forall (l : list Z) (colorMap : list Color),
             Forall quantized colorMap ->
             Forall quantized
               (fold_left (fun colorMap i =>
                    colorMap_add colorMap (quantize (get (data frame) i))
                      (quantize (get (data frame) (i + 1)))
                      (quantize (get (data frame) (i + 2)))) l colorMap)).
  { induction l as [|i l IH]; intros colorMap Hm; simpl; [exact Hm|].
    apply IH. apply colorMap_add_quantized; try exact Hm;
      apply quantize_range, get_byte, H. }
  intro l. apply G. constructor.
Qed.

(** The count-weighted sums of a cluster of quantized colours. *)
Lemma cluster_totals (cluster : list Color) :
  Forall quantized cluster ->
  forall totalR totalG totalB totalCount : Z,
    0 <= totalR <= 224 * totalCount -> 0 <= totalG <= 224 * totalCount ->
    0 <= totalB <= 224 * totalCount -> 0 <= totalCount ->
    let '(totalR', totalG', totalB', totalCount') :=
      fold_left (fun acc color =>
                   let '(totalR, totalG, totalB, totalCount) := acc in
                   (totalR + r color * count color,
                    totalG + g color * count color,
                    totalB + b color * count color,
                    totalCount + count color))
                cluster (totalR, totalG, totalB, totalCount) in
    0 <= totalR' <= 224 * totalCount' /\ 0 <= totalG' <= 224 * totalCount' /\
    0 <= totalB' <= 224 * totalCount' /\
    totalCount + Z.of_nat (length cluster) <= totalCount'.
Proof.
  intro H. induction H as [|c rest Hc Hrest IH];
    intros totalR totalG totalB totalCount HR HG HB HC; cbn [fold_left length].
  - lia.
  - destruct Hc as (Hr & Hg & Hb & Hn).
    specialize (IH (totalR + r c * count c) (totalG + g c * count c)
                   (totalB + b c * count c) (totalCount + count c)).
    destruct (fold_left _ rest _) as [[[tr tg] tb] tc].
    assert (0 <= r c * count c <= 224 * count c) by nia.
    assert (0 <= g c * count c <= 224 * count c) by nia.
    assert (0 <= b c * count c <= 224 * count c) by nia.
    destruct IH as (? & ? & ? & ?); try lia.
Qed.

Lemma round_mean_range (total totalCount : Z) :
  0 < totalCount -> 0 <= total <= 224 * totalCount ->
  0 <= Math_round (inject_Z total / inject_Z totalCount) <= 224.
Proof.
  intros Hc Ht.
  assert (Hq : (0 < inject_Z totalCount)%Q).
  { replace 0%Q with (inject_Z 0) by reflexivity. now rewrite <- Zlt_Qlt. }
  split.
  - apply Math_round_lower. apply Qle_shift_div_l; [exact Hq|].
    rewrite <- inject_Z_mult, <- Zle_Qle. lia.
  - apply Math_round_upper. apply Qle_shift_div_r; [exact Hq|].
    rewrite <- inject_Z_mult, <- Zle_Qle. lia.
Qed.

Lemma weighted_centroid_quantized (cluster : list Color) :
  cluster <> [] -> Forall quantized cluster -> quantized (weighted_centroid cluster).
Proof.
  intros Hne H. unfold weighted_centroid.
  pose proof (cluster_totals cluster H 0 0 0 0) as G.
  destruct (fold_left _ cluster _) as [[[tr tg] tb] tc].
  destruct G as (HR & HG & HB & HC); try lia.
  assert (0 < Z.of_nat (length cluster)) by (destruct cluster; [congruence|simpl; lia]).
  unfold quantized. simpl.
  repeat split; try (apply round_mean_range; lia); lia.
Qed.

Lemma array_set_Forall {A : Type} (P : A -> Prop) (i : nat) (x : A) (arr : list A) :
  P x -> Forall P arr -> Forall P (array_set i x arr).
Proof.
  intros Hx H. revert i. induction H as [|y arr Hy Harr IH]; intros [|i]; simpl;
    constructor; auto.
Qed.

Lemma cluster_push_Forall (P : Color -> Prop) (clusters : list (list Color))
    (index : nat) (color : Color) :
  P color -> Forall (Forall P) clusters ->
  Forall (Forall P) (cluster_push clusters index color).
Proof.
  intros Hc H. revert index.
  induction H as [|cl rest Hcl Hrest IH]; intros [|index]; simpl;
    constructor; auto.
  apply Forall_app. split; [exact Hcl|now constructor].
Qed.

(** Whatever holds of the colours, of the initial centroids and of the
    weighted centroid of every non-empty cluster holds of the centroids
    after an iteration. *)
Section Clustering.
Variable P : Color -> Prop.
Hypothesis weighted_centroid_P :
  forall cluster, cluster <> [] -> Forall P cluster -> P (weighted_centroid cluster).

Lemma kmeans_iteration_Forall (colors : list Color) (k : nat)
    (centroids : list Color) :
  Forall P colors -> Forall P centroids ->
  Forall P (kmeans_iteration colors k centroids).
Proof.
  intros Hcolors Hcentroids. unfold kmeans_iteration.
  set (clusters := fold_left _ colors (repeat [] k)).
  assert (Hclusters : Forall (Forall P) clusters).
  { unfold clusters.
    assert (G : forall (l : list Color) (init : list (list Color)),
               Forall P l -> Forall (Forall P) init ->
               Forall (Forall P)
                 (fold_left (fun clusters color =>
                      cluster_push clusters (nearest_centroid centroids color) color)
                    l init)).
    { induction l as [|c l IH]; intros init Hl Hinit; simpl; [exact Hinit|].
      inversion Hl; subst. apply IH; [assumption|].
      now apply cluster_push_Forall. }
    apply G; [exact Hcolors|].
    clear. induction k; simpl; constructor; auto. }
  assert (Hpairs : Forall (fun ic : nat * list Color => Forall P (snd ic))
                     (combine (seq 0 (length clusters)) clusters)).
  { apply Forall_forall. intros [i cl] Hin. apply in_combine_r in Hin.
    rewrite Forall_forall in Hclusters. simpl. now apply Hclusters. }
  clearbody clusters.
  revert Hcentroids Hpairs. generalize (combine (seq 0 (length clusters)) clusters).
  intro l. revert centroids.
  induction l as [|[i cl] l IH]; intros centroids Hcentroids Hpairs; simpl;
    [exact Hcentroids|].
  inversion Hpairs as [|? ? Hcl Hl]; subst. simpl in Hcl.
  apply IH; [|exact Hl].
  destruct cl as [|c cl]; [exact Hcentroids|].
  apply array_set_Forall; [|exact Hcentroids].
  apply weighted_centroid_P; [discriminate|exact Hcl].
Qed.

Lemma clusterColors_Forall (colors : list Color) (k : nat) :
  Forall P colors -> Forall P (clusterColors colors k).
Proof.
  intro H. unfold clusterColors.
  destruct (length colors <=? k)%nat; [exact H|].
  generalize (seq 0 10). intro l.
  assert (Hinit : Forall P (firstn k colors)) by now apply firstn_Forall.
  revert Hinit. generalize (firstn k colors).
  induction l as [|x l IH]; intros centroids Hc; simpl; [exact Hc|].
  apply IH. now apply kmeans_iteration_Forall.
Qed.

End Clustering.

Lemma array_set_length {A : Type} (i : nat) (x : A) (arr : list A) :
  length (array_set i x arr) = length arr.
Proof.
  revert i. induction arr as [|y arr IH]; intros [|i]; simpl; auto.
Qed.

Lemma kmeans_iteration_length (colors : list Color) (k : nat)
    (centroids : list Color) :
  length (kmeans_iteration colors k centroids) = length centroids.
Proof.
  unfold kmeans_iteration.
  generalize (combine (seq 0 (length (fold_left
    (fun clusters color =>
       cluster_push clusters (nearest_centroid centroids color) color)
    colors (repeat [] k))))
    (fold_left
    (fun clusters color =>
       cluster_push clusters (nearest_centroid centroids color) color)
    colors (repeat [] k))).
  intro l. revert centroids.
  induction l as [|[i cl] l IH]; intro cs; simpl; [reflexivity|].
  rewrite IH. destruct cl; [reflexivity|apply array_set_length].
Qed.

Lemma clusterColors_length (colors : list Color) (k : nat) :
  (k < length colors)%nat -> length (clusterColors colors k) = k.
Proof.
  intro H. unfold clusterColors.
  destruct (length colors <=? k)%nat eqn:E; [apply Nat.leb_le in E; lia|].
  generalize (seq 0 10). intro l.
  assert (Hinit : length (firstn k colors) = k) by (apply firstn_length_le; lia).
  revert Hinit. generalize (firstn k colors).
  induction l as [|x l IH]; intros centroids Hc; simpl; [exact Hc|].
  apply IH. now rewrite kmeans_iteration_length.
Qed.

Lemma clusterColors_quantized (colors : list Color) (k : nat) :
  Forall quantized colors -> Forall quantized (clusterColors colors k).
Proof.
  apply clusterColors_Forall. exact weighted_centroid_quantized.
Qed.

Lemma analyzeColor_palette_quantized (frames : list ImageData) :
  Forall (fun frame => bytes (data frame)) frames ->
  Forall quantized (analyzeColor_palette frames).
Proof.
  intro H. unfold analyzeColor_palette. apply clusterColors_quantized.
  assert (G : forall (l : list ImageData) (init : list Color),
             Forall (fun frame => bytes (data frame)) l ->
             Forall quantized init ->
             Forall quantized
               (fold_left (fun allColors frame =>
                    allColors ++ extractDominantColors frame 5) l init)).
  { induction l as [|f l IH]; intros init Hl Hinit; simpl; [exact Hinit|].
    inversion Hl; subst. apply IH; [assumption|].
    apply Forall_app. split; [exact Hinit|].
    now apply extractDominantColors_quantized. }
  apply G; [exact H|constructor].
Qed.

Lemma analyzeColor_dominantColors (frames : list ImageData) :
  dominantColors (analyzeColor frames)
  = map rgb_string (analyzeColor_palette frames).
Proof.
  unfold analyzeColor. destruct (fold_left _ frames (0%Q, 0%Q)). reflexivity.
Qed.

End ColorFacts.

(** Two pixels sampled out of eight: one red, one green, each counted once. *)
Example extractDominantColors_two_samples :
  VideoEngine.extractDominantColors
    (VideoEngine.mkImageData 8 1
       (concat [[255; 0; 0; 255]; [1; 2; 3; 4]; [1; 2; 3; 4]; [1; 2; 3; 4];
                [10; 200; 30; 255]; [1; 2; 3; 4]; [1; 2; 3; 4]; [1; 2; 3; 4]]%Z))
    5
  = [VideoEngine.mkColor 224 0 0 1; VideoEngine.mkColor 0 192 0 1].
Proof. reflexivity. Qed.

(** C9.  Every colour reported in [dominantColors] is the printed form of a
    colour whose R, G and B components lie between 0 and 224: sampling
    quantizes each channel down to a multiple of 32, and every centroid is
    either a sampled colour or the rounded count-weighted mean of sampled
    colours.  The frames carry bytes (0 to 255), as [ImageData] does. *)
Theorem C9_dominant_colors_at_most_224 :
  forall frames : list VideoEngine.ImageData,
    Forall (fun frame => Props.bytes (VideoEngine.data frame)) frames ->
    exists palette : list VideoEngine.Color,
      VideoEngine.dominantColors (VideoEngine.analyzeColor frames)
      = map VideoEngine.rgb_string palette /\
      Forall (fun c => (0 <= VideoEngine.r c <= 224)%Z /\
                       (0 <= VideoEngine.g c <= 224)%Z /\
                       (0 <= VideoEngine.b c <= 224)%Z) palette.
Proof.
  intros frames H. exists (VideoEngine.analyzeColor_palette frames). split.
  - apply ColorFacts.analyzeColor_dominantColors.
  - pose proof (ColorFacts.analyzeColor_palette_quantized frames H) as G.
    eapply Forall_impl; [|exact G].
    intros c (Hr & Hg & Hb & _). auto.
Qed.

(** ** Identical frames and single-colour frames *)

Module SolidFrameFacts.
Import VideoEngine Props.

(** *** Frame difference of a frame with itself *)

Lemma computeFrameDifference_same (frame : ImageData) :
  computeFrameDifference frame frame = 0%R.
Proof.
  unfold computeFrameDifference.
  generalize (loop_indices (Z.of_nat (length (data frame))) 4). intro l.
  assert (G : forall (l : list Z) (n : nat),
             fold_left (fun acc i =>
                let r1 := get (data frame) i in
                let g1 := get (data frame) (i + 1) in
                let b1 := get (data frame) (i + 2) in
                let r2 := get (data frame) i in
                let g2 := get (data frame) (i + 1) in
                let b2 := get (data frame) (i + 2) in
                let diff :=
                  (sqrt (IZR ((r2 - r1) ^ 2 + (g2 - g1) ^ 2 + (b2 - b1) ^ 2))
                   / (255 * sqrt 3))%R in
                ((fst acc + diff)%R, S (snd acc))) l (0%R, n)
             = (0%R, (n + length l)%nat)).
  { clear l. induction l as [|i l IH]; intro n; cbn [fold_left length fst snd].
    - now rewrite Nat.add_0_r.
    - rewrite !Z.sub_diag. change (0 ^ 2 + 0 ^ 2 + 0 ^ 2)%Z with 0%Z.
      rewrite sqrt_0.
      replace (0 + 0 / (255 * sqrt 3))%R with 0%R by (unfold Rdiv; ring).
      rewrite IH. f_equal. lia. }
  rewrite G. unfold Rdiv. ring.
Qed.

Lemma frame_at_repeat (frame : ImageData) (n i : nat) :
  (i < n)%nat -> frame_at (repeat frame n) i = frame.
Proof.
  intro H. unfold frame_at. apply nth_repeat_lt. exact H.
Qed.

Lemma analyzeMotion_identical (frame : ImageData) :
  intensity (analyzeMotion (repeat frame 5)) = 0%R.
Proof.
  unfold analyzeMotion. cbn [repeat length Nat.ltb Nat.leb Nat.sub seq].
  assert (G : forall (l : list nat) (acc : R * Q * Q * list R),
             Forall (fun i => (1 <= i < 5)%nat) l ->
             fst (fst (fst
               (fold_left (fun acc i =>
                  let '(totalMotion, horizontalMotion, verticalMotion, motionValues)
                    := acc in
                  let motion :=
                    computeFrameDifference (frame_at (repeat frame 5) (i - 1))
                                           (frame_at (repeat frame 5) i) in
                  let vectors :=
                    computeOpticalFlow (frame_at (repeat frame 5) (i - 1))
                                       (frame_at (repeat frame 5) i) in
                  ((totalMotion + motion)%R,
                   (horizontalMotion + Qabs (fst vectors))%Q,
                   (verticalMotion + Qabs (snd vectors))%Q,
                   motionValues ++ [motion])) l acc)))
             = fst (fst (fst acc))).
  { induction l as [|i l IH]; intros [[[t hm] vm] mv] Hl; [reflexivity|].
    inversion Hl as [|? ? Hi Hl']; subst. cbn [fold_left].
    rewrite IH by exact Hl'. cbn [fst].
    rewrite !frame_at_repeat by lia.
    rewrite computeFrameDifference_same. ring. }
  specialize (G [1; 2; 3; 4]%nat (0%R, 0%Q, 0%Q, [])).
  change (repeat frame 5) with [frame; frame; frame; frame; frame] in G.
  destruct (fold_left _ [1; 2; 3; 4]%nat _) as [[[t hm] vm] mv].
  cbn [fst] in G. rewrite G by (repeat constructor; lia).
  cbn [intensity]. unfold Rdiv. ring.
Qed.

(** *** Scenes of identical frames *)

Lemma analyzeScenes_identical (frame : ImageData) (duration : Q) :
  (0 < duration)%Q ->
  analyzeScenes (repeat frame 5) duration
  = Some [mkSceneAnalysis 0 duration (fst (classifyScene frame))
                          (snd (classifyScene frame))].
Proof.
  intro Hd. unfold analyzeScenes.
  assert (G : forall (l : list nat) (fi : Q) (st : list SceneAnalysis * Q),
             Forall (fun i => (1 <= i < 5)%nat) l ->
             fold_left (analyzeScenes_step (repeat frame 5) fi) l st = st).
  { induction l as [|i l IH]; intros fi st Hl; [reflexivity|].
    inversion Hl as [|? ? Hi Hl']; subst. cbn [fold_left].
    unfold analyzeScenes_step at 2.
    rewrite !frame_at_repeat by lia. rewrite computeFrameDifference_same.
    destruct (Rgt_dec 0 0.3) as [Hgt|_]; [exfalso; lra|].
    now apply IH. }
  rewrite G by (cbn; repeat constructor; lia).
  apply Qltb_lt in Hd. rewrite Hd. reflexivity.
Qed.

(** *** Sampling a single-colour frame *)

Lemma loop_from_spec (fuel : nat) (i0 limit hop i : Z) :
  In i (loop_from fuel i0 limit hop) ->
  (i < limit)%Z /\ exists j : nat, i = (i0 + Z.of_nat j * hop)%Z.
Proof.
  revert i0. induction fuel as [|fuel IH]; intro i0; simpl; [intros []|].
  destruct (i0 <? limit)%Z eqn:E; [|intros []].
  intros [<-|H].
  - split; [now apply Z.ltb_lt|]. exists O. lia.
  - destruct (IH _ H) as [Hlt [j ->]]. split; [exact Hlt|]. exists (S j). lia.
Qed.

Lemma nth_solid (px : list Z) (n j k : nat) :
  length px = 4%nat -> (j < n)%nat -> (k < 4)%nat ->
  nth (4 * j + k) (concat (repeat px n)) 0%Z = nth k px 0%Z.
Proof.
  intros Hpx. revert j. induction n as [|n IH]; intros j Hj Hk; [lia|].
  cbn [repeat concat]. destruct j as [|j].
  - rewrite app_nth1 by lia. f_equal.
  - rewrite app_nth2 by lia. rewrite Hpx.
    replace (4 * S j + k - 4)%nat with (4 * j + k)%nat by lia.
    apply IH; lia.
Qed.

Lemma solid_samples (w h r0 g0 b0 a0 i : Z) :
  In i (loop_indices (Z.of_nat (length (data (solid_frame w h r0 g0 b0 a0)))) 16) ->
  get (data (solid_frame w h r0 g0 b0 a0)) i = r0 /\
  get (data (solid_frame w h r0 g0 b0 a0)) (i + 1) = g0 /\
  get (data (solid_frame w h r0 g0 b0 a0)) (i + 2) = b0.
Proof.
  unfold solid_frame, loop_indices. cbn [data].
  set (n := Z.to_nat (w * h)). set (px := [r0; g0; b0; a0]).
  assert (Hlen : length (concat (repeat px n)) = (4 * n)%nat).
  { clear. induction n as [|n IH]; [reflexivity|].
    cbn [repeat concat]. rewrite length_app, IH. simpl. lia. }
  rewrite Hlen. intro H. apply loop_from_spec in H. destruct H as [Hlt [j ->]].
  assert (Hj : (4 * j < n)%nat) by lia.
  unfold get.
  repeat match goal with
         | |- context [(?x <? 0)%Z] =>
             let E := fresh in
             destruct (x <? 0)%Z eqn:E; [apply Z.ltb_lt in E; lia|clear E]
         end.
  replace (Z.to_nat (0 + Z.of_nat j * 16)) with (4 * (4 * j) + 0)%nat by lia.
  replace (Z.to_nat (0 + Z.of_nat j * 16 + 1)) with (4 * (4 * j) + 1)%nat by lia.
  replace (Z.to_nat (0 + Z.of_nat j * 16 + 2)) with (4 * (4 * j) + 2)%nat by lia.
  rewrite !(nth_solid px) by (try reflexivity; lia).
  repeat split.
Qed.

Lemma colorMap_add_same (l : list Z) (sample : Z -> Z * Z * Z) (r0 g0 b0 : Z) :
  (forall i, In i l -> sample i = (r0, g0, b0)) ->
  forall c : Z,
    fold_left (fun colorMap i =>
                 colorMap_add colorMap (fst (fst (sample i))) (snd (fst (sample i)))
                              (snd (sample i)))
              l [mkColor r0 g0 b0 c]
    = [mkColor r0 g0 b0 (c + Z.of_nat (length l))].
Proof.
  induction l as [|i l IH]; intros Hl c; cbn [fold_left length].
  - now rewrite Z.add_0_r.
  - rewrite (Hl i) by now left. cbn [fst snd colorMap_add].
    unfold same_key. cbn [r g b count]. rewrite !Z.eqb_refl. cbn [andb].
    rewrite IH by (intros; apply Hl; now right). do 2 f_equal. lia.
Qed.

(** One colour comes out of a single-colour frame with at least a pixel. *)
Lemma extractDominantColors_solid (w h r0 g0 b0 a0 : Z) (n : nat) :
  (0 < w)%Z -> (0 < h)%Z -> (0 < n)%nat ->
  exists c : Color,
    extractDominantColors (solid_frame w h r0 g0 b0 a0) n = [c] /\
    of_channels (quantize r0) (quantize g0) (quantize b0) c.
Proof.
  intros Hw Hh Hn. unfold extractDominantColors.
  set (frame := solid_frame w h r0 g0 b0 a0).
  pose proof (solid_samples w h r0 g0 b0 a0) as Hs. fold frame in Hs.
  destruct (loop_indices (Z.of_nat (length (data frame))) 16) as [|i0 l] eqn:E.
  - exfalso. unfold loop_indices, frame, solid_frame in E. cbn [data] in E.
    assert (Hpos : (0 < length (concat (repeat [r0; g0; b0; a0]
                                               (Z.to_nat (w * h)))))%nat).
    { destruct (Z.to_nat (w * h)) eqn:En; [nia|]. simpl. lia. }
    destruct (length _) as [|m]; [lia|].
    rewrite Nat2Z.inj_succ, Z2Nat.inj_succ in E by lia.
    cbn [loop_from] in E.
    destruct (0 <? Z.succ (Z.of_nat m))%Z eqn:E0; [discriminate|].
    apply Z.ltb_ge in E0. lia.
  - cbn [fold_left colorMap_add].
    destruct (Hs i0) as (-> & -> & ->); [now left|].
    pose proof (colorMap_add_same l
                  (fun i => (quantize (get (data frame) i),
                             quantize (get (data frame) (i + 1)),
                             quantize (get (data frame) (i + 2))))
                  (quantize r0) (quantize g0) (quantize b0)) as G.
    cbn [fst snd] in G. rewrite G.
    + exists (mkColor (quantize r0) (quantize g0) (quantize b0)
                      (1 + Z.of_nat (length l))).
      split.
      * unfold sort_by_count. cbn [fold_right sort_insert]. destruct n; [lia|].
        cbn [firstn]. now rewrite firstn_nil.
      * unfold of_channels. cbn [r g b count]. repeat split. lia.
    + intros i Hi. destruct (Hs i) as (-> & -> & ->); [now right|reflexivity].
Qed.

(** *** Clustering colours that all have the same channels *)

Lemma Math_round_exact (k tc : Z) :
  (0 < tc)%Z -> Math_round (inject_Z (k * tc) / inject_Z tc) = k.
Proof.
  intro H.
  assert (Hq : (0 < inject_Z tc)%Q).
  { replace 0%Q with (inject_Z 0) by reflexivity. now rewrite <- Zlt_Qlt. }
  apply Z.le_antisymm.
  - apply Math_round_upper. apply Qle_shift_div_r; [exact Hq|].
    rewrite <- inject_Z_mult. apply Qle_refl.
  - apply Math_round_lower. apply Qle_shift_div_l; [exact Hq|].
    rewrite <- inject_Z_mult. apply Qle_refl.
Qed.

Lemma same_channel_totals (r0 g0 b0 : Z) (cluster : list Color) :
  Forall (of_channels r0 g0 b0) cluster ->
  forall tc : Z,
    (0 <= tc)%Z ->
    exists tc' : Z,
      (tc + Z.of_nat (length cluster) <= tc')%Z /\
      fold_left (fun acc color =>
                   let '(totalR, totalG, totalB, totalCount) := acc in
                   ((totalR + r color * count color)%Z,
                    (totalG + g color * count color)%Z,
                    (totalB + b color * count color)%Z,
                    (totalCount + count color)%Z))
                cluster ((r0 * tc)%Z, (g0 * tc)%Z, (b0 * tc)%Z, tc)
      = ((r0 * tc')%Z, (g0 * tc')%Z, (b0 * tc')%Z, tc').
Proof.
  intro H. induction H as [|c rest Hc Hrest IH]; intros tc Htc;
    cbn [fold_left length].
  - exists tc. split; [lia|reflexivity].
  - destruct Hc as (-> & -> & -> & Hn).
    destruct (IH (tc + count c)%Z) as (tc' & Hle & E); [lia|].
    exists tc'. split; [lia|].
    rewrite <- !Z.mul_add_distr_l. exact E.
Qed.

Lemma weighted_centroid_same_channels (r0 g0 b0 : Z) (cluster : list Color) :
  cluster <> [] -> Forall (of_channels r0 g0 b0) cluster ->
  of_channels r0 g0 b0 (weighted_centroid cluster).
Proof.
  intros Hne H. unfold weighted_centroid.
  destruct (same_channel_totals r0 g0 b0 cluster H 0%Z) as (tc & Hle & E); [lia|].
  rewrite !Z.mul_0_r in E. rewrite E.
  assert (0 < tc)%Z by (destruct cluster; [congruence|simpl in Hle; lia]).
  unfold of_channels. cbn [r g b count].
  rewrite !Math_round_exact by assumption. repeat split. lia.
Qed.

Lemma rgb_string_channels (r0 g0 b0 : Z) (c : Color) :
  of_channels r0 g0 b0 c -> rgb_string c = rgb_string (mkColor r0 g0 b0 1).
Proof.
  intros (Hr & Hg & Hb & _). unfold rgb_string. cbn [r g b]. now rewrite Hr, Hg, Hb.
Qed.

(** Five single-colour frames: three centroids, all of the quantized colour. *)
Lemma analyzeColor_solid (w h r0 g0 b0 a0 : Z) :
  (0 < w)%Z -> (0 < h)%Z ->
  dominantColors (analyzeColor (repeat (solid_frame w h r0 g0 b0 a0) 5))
  = repeat (rgb_string (mkColor (quantize r0) (quantize g0) (quantize b0) 1)) 3.
Proof.
  intros Hw Hh. rewrite ColorFacts.analyzeColor_dominantColors.
  unfold analyzeColor_palette. cbn [repeat fold_left].
  destruct (extractDominantColors_solid w h r0 g0 b0 a0 5 Hw Hh) as (c & -> & Hc);
    [lia|].
  cbn [app].
  set (colors := [c; c; c; c; c]).
  assert (Hcolors : Forall (of_channels (quantize r0) (quantize g0) (quantize b0))
                           colors)
    by (unfold colors; repeat (apply Forall_cons; [exact Hc|]); apply Forall_nil).
  pose proof (ColorFacts.clusterColors_Forall _
                (weighted_centroid_same_channels _ _ _) colors 3 Hcolors) as HP.
  pose proof (ColorFacts.clusterColors_length colors 3) as HL.
  destruct (clusterColors colors 3) as [|c1 [|c2 [|c3 [|c4 rest]]]];
    try (simpl in HL; lia).
  inversion HP as [|? ? H1 HP1]; subst.
  inversion HP1 as [|? ? H2 HP2]; subst.
  inversion HP2 as [|? ? H3 _]; subst.
  cbn [map repeat].
  now rewrite (rgb_string_channels _ _ _ _ H1), (rgb_string_channels _ _ _ _ H2),
    (rgb_string_channels _ _ _ _ H3).
Qed.

End SolidFrameFacts.

(** C8, as stated, fails on five copies of the 1 x 1 frame whose pixel is
    (255, 0, 0, 255): the palette entries are [rgb(224,0,0)], the
    quantized red, not [rgb(255,0,0)]. *)
Lemma C8_counterexample :
  let frames := repeat (Props.solid_frame 1 1 255 0 0 255) 5 in
  ~ (VideoEngine.intensity (VideoEngine.analyzeMotion frames) = 0%R /\
     Forall (fun s => s = "rgb(255,0,0)"%string)
            (VideoEngine.dominantColors (VideoEngine.analyzeColor frames)) /\
     exists ty conf,
       VideoEngine.analyzeScenes frames 10
       = Some [VideoEngine.mkSceneAnalysis 0 10 ty conf]).
Proof.
  intros frames (_ & H & _).
  assert (E : VideoEngine.dominantColors (VideoEngine.analyzeColor frames)
              = ["rgb(224,0,0)"; "rgb(224,0,0)"; "rgb(224,0,0)"]%string)
    by (vm_compute; reflexivity).
  rewrite E in H. inversion H as [|? ? H1 _]. discriminate H1.
Qed.

(** C8, amended.  For five identical solid-red frames of any size (at
    least one pixel) and a positive total duration: motion intensity is 0,
    the three entries of [dominantColors] are all [rgb(224,0,0)] (red
    quantized down to a multiple of 32), and the scene list is exactly one
    scene from 0 to the total duration. *)
Theorem C8_five_solid_red_frames :
  forall (w h a0 : Z) (duration : Q),
    (0 < w)%Z -> (0 < h)%Z -> (0 < duration)%Q ->
    let frames := repeat (Props.solid_frame w h 255 0 0 a0) 5 in
    VideoEngine.intensity (VideoEngine.analyzeMotion frames) = 0%R /\
    VideoEngine.dominantColors (VideoEngine.analyzeColor frames)
    = ["rgb(224,0,0)"; "rgb(224,0,0)"; "rgb(224,0,0)"]%string /\
    exists ty conf,
      VideoEngine.analyzeScenes frames duration
      = Some [VideoEngine.mkSceneAnalysis 0 duration ty conf].
Proof.
  intros w h a0 duration Hw Hh Hd frames. split; [|split].
  - apply SolidFrameFacts.analyzeMotion_identical.
  - unfold frames. rewrite SolidFrameFacts.analyzeColor_solid by assumption.
    reflexivity.
  - unfold frames. rewrite SolidFrameFacts.analyzeScenes_identical by assumption.
    eauto.
Qed.

Lemma C8_five_solid_red_frames_witness :
  VideoEngine.dominantColors
    (VideoEngine.analyzeColor
       (repeat (Props.solid_frame 2 2 255 0 0 255) 5))
  = ["rgb(224,0,0)"; "rgb(224,0,0)"; "rgb(224,0,0)"]%string.
Proof.
  apply (C8_five_solid_red_frames 2 2 255 10); reflexivity.
Defined.

Lemma C9_dominant_colors_at_most_224_witness :
  exists palette : list VideoEngine.Color,
    VideoEngine.dominantColors
      (VideoEngine.analyzeColor
         [VideoEngine.mkImageData 2 1 [255; 128; 7; 255; 31; 32; 250; 255]%Z])
    = map VideoEngine.rgb_string palette /\
    Forall (fun c => (0 <= VideoEngine.r c <= 224)%Z /\
                     (0 <= VideoEngine.g c <= 224)%Z /\
                     (0 <= VideoEngine.b c <= 224)%Z) palette.
Proof.
  apply (C9_dominant_colors_at_most_224
           [VideoEngine.mkImageData 2 1 [255; 128; 7; 255; 31; 32; 250; 255]%Z]).
  repeat constructor; simpl; lia.
Defined.

Lemma C2_scenes_partition_duration_witness :
  exists scenes,
    VideoEngine.analyzeScenes
      (repeat (Props.solid_frame 1 1 255 0 0 255) 2) 10 = Some scenes /\
    Props.chained 0 scenes 10.
Proof.
  destruct (C2_scenes_partition_duration
              (repeat (Props.solid_frame 1 1 255 0 0 255) 2) 10 eq_refl)
    as [Hreturns Htiles].
  destruct Hreturns as [scenes E]; [discriminate|].
  exists scenes. split; [exact E|exact (Htiles scenes E)].
Defined.

(** ** The placeholder MFCC vector *)

Module MfccFacts.
Import AudioEngine Props.
Local Open Scope R_scope.

Section Random.
Variable RandomState : Type.
Variable Math_random : RandomState -> R * RandomState.
Hypothesis Math_random_range : forall s, 0 <= fst (Math_random s) < 1.

Lemma mapM_length {A B : Type} (f : A -> Rand RandomState B) (l : list A) :
  forall s, length (fst (mapM RandomState f l s)) = length l.
Proof.
  induction l as [|a l IH]; intro s; [reflexivity|].
  cbn [mapM]. unfold bind at 1. destruct (f a s) as [b s1].
  unfold bind at 1. specialize (IH s1).
  destruct (mapM RandomState f l s1) as [bs s2]. simpl in *. now rewrite IH.
Qed.

Lemma mapM_Forall {A B : Type} (P : B -> Prop) (f : A -> Rand RandomState B)
    (l : list A) :
  (forall a s, P (fst (f a s))) ->
  forall s, Forall P (fst (mapM RandomState f l s)).
Proof.
  intro Hf. induction l as [|a l IH]; intro s; [constructor|].
  cbn [mapM]. unfold bind at 1. pose proof (Hf a s) as Hb.
  destruct (f a s) as [b s1].
  unfold bind at 1. specialize (IH s1).
  destruct (mapM RandomState f l s1) as [bs s2]. simpl in *. now constructor.
Qed.

Lemma computeMFCC_spec (window : list R) (s : RandomState) :
  length (fst (computeMFCC RandomState Math_random window s)) = 13%nat /\
  Forall centered (fst (computeMFCC RandomState Math_random window s)).
Proof.
  unfold computeMFCC. split.
  - now rewrite mapM_length.
  - apply mapM_Forall. intros _ s0. unfold bind, ret.
    pose proof (Math_random_range s0) as H.
    destruct (Math_random s0) as [x s1]. simpl in *. unfold centered. lra.
Qed.

Lemma analyzeEnergy_window_mfcc (channelData : list R) (sampleRate windowSize i : Q)
    (s : RandomState) :
  let segment :=
    snd (fst (analyzeEnergy_window RandomState Math_random channelData sampleRate
                                   windowSize i s)) in
  length (mfcc (features segment)) = 13%nat /\
  Forall centered (mfcc (features segment)).
Proof.
  unfold analyzeEnergy_window, bind, ret.
  set (window := slice _ _ channelData).
  pose proof (computeMFCC_spec window s) as H.
  destruct (computeMFCC RandomState Math_random window s) as [coeffs s1].
  exact H.
Qed.

Lemma analyzeEnergy_segments_mfcc (channelData : list R) (sampleRate : Q)
    (s : RandomState) :
  Forall (fun segment =>
            length (mfcc (features segment)) = 13%nat /\
            Forall centered (mfcc (features segment)))
         (snd (fst (analyzeEnergy RandomState Math_random channelData sampleRate s))).
Proof.
  unfold analyzeEnergy. unfold bind at 1.
  set (f := analyzeEnergy_window RandomState Math_random channelData sampleRate _).
  set (l := loop_indicesQ _ _).
  pose proof (mapM_Forall
                (fun res : R * AudioSegment =>
                   length (mfcc (features (snd res))) = 13%nat /\
                   Forall centered (mfcc (features (snd res))))
                f l) as H.
  specialize (H (fun i s0 => analyzeEnergy_window_mfcc channelData sampleRate _ i s0) s).
  destruct (mapM RandomState f l s) as [results s1].
  unfold ret. cbn [fst snd] in *.
  induction H as [|res results Hres Hresults IH]; simpl; constructor; auto.
Qed.

End Random.

Lemma alternating_range (s : nat) : 0 <= fst (alternating s) < 1.
Proof. unfold alternating. destruct (Nat.even s); simpl; lra. Qed.

End MfccFacts.

(** C10.  Whatever generator stands behind [Math.random], provided its
    values lie in [0, 1): [computeMFCC] returns 13 numbers, each in
    [-0.5, 0.5); its result is the same for any two windows drawn at the
    same state of the generator, the samples never being read; and that is
    the [mfcc] entry of every segment built by [analyzeEnergy]. *)
Theorem C10_mfcc_is_a_placeholder :
  forall (RandomState : Type) (Math_random : RandomState -> R * RandomState),
    (forall s, (0 <= fst (Math_random s) < 1)%R) ->
    (forall (window : list R) (s : RandomState),
        length (fst (AudioEngine.computeMFCC RandomState Math_random window s))
        = 13%nat /\
        Forall Props.centered
               (fst (AudioEngine.computeMFCC RandomState Math_random window s))) /\
    (forall (window1 window2 : list R) (s : RandomState),
        AudioEngine.computeMFCC RandomState Math_random window1 s
        = AudioEngine.computeMFCC RandomState Math_random window2 s) /\
    (forall (channelData : list R) (sampleRate : Q) (s : RandomState),
        Forall (fun segment =>
                  length (AudioEngine.mfcc (AudioEngine.features segment)) = 13%nat /\
                  Forall Props.centered
                         (AudioEngine.mfcc (AudioEngine.features segment)))
               (snd (fst (AudioEngine.analyzeEnergy RandomState Math_random
                            channelData sampleRate s)))).
Proof.
  intros RandomState Math_random Hrange. split; [|split].
  - intros window s. now apply MfccFacts.computeMFCC_spec.
  - intros window1 window2 s. reflexivity.
  - intros channelData sampleRate s.
    now apply MfccFacts.analyzeEnergy_segments_mfcc.
Qed.

Lemma C10_mfcc_is_a_placeholder_witness :
  length (fst (AudioEngine.computeMFCC nat Props.alternating [1; -1]%R 0%nat))
  = 13%nat /\
  Forall Props.centered
         (fst (AudioEngine.computeMFCC nat Props.alternating [1; -1]%R 0%nat)).
Proof.
  apply (C10_mfcc_is_a_placeholder nat Props.alternating).
  exact MfccFacts.alternating_range.
Defined.

(** * Further properties of the modelled code *)

(** ** Loops over the indices of an array *)

Module LoopFacts.
Local Open Scope R_scope.

Lemma fold_left_map_S {A : Type} (g : A -> nat -> A) (l : list nat) (a : A) :
  fold_left g (map S l) a = fold_left (fun acc i => g acc (S i)) l a.
Proof.
  revert a. induction l as [|i l IH]; intro a; simpl; [reflexivity|apply IH].
Qed.

(** A loop [for (i = 0; i < arr.length; i++)] that only reads [arr[i]] is a
    fold over the array. *)
Lemma fold_left_seq_nth {A B : Type} (f : A -> B -> A) (d : B) (l : list B) :
  forall a : A,
    fold_left (fun acc i => f acc (nth i l d)) (seq 0 (length l)) a
    = fold_left f l a.
Proof.
  induction l as [|x l IH]; intro a; [reflexivity|].
  cbn [length seq fold_left nth]. rewrite <- seq_shift, fold_left_map_S.
  cbn [nth]. apply IH.
Qed.

Lemma sum_squares_fold (l : list R) (a : R) :
  fold_left (fun sum x => sum + x * x) l a
  = a + fold_right Rplus 0 (map (fun x => x * x) l).
Proof.
  revert a. induction l as [|x l IH]; intro a; simpl; [ring|].
  rewrite IH. ring.
Qed.


Lemma sum_squares_repeat (c : R) (n : nat) :
  fold_right Rplus 0 (map (fun x => x * x) (repeat c n)) = INR n * (c * c).
Proof.
  induction n as [|n IH]; [simpl; ring|].
  cbn [repeat map fold_right]. rewrite IH, S_INR. ring.
Qed.

Lemma map_const_seq {A : Type} (f : nat -> A) (c : A) (start len : nat) :
  (forall i, (start <= i < start + len)%nat -> f i = c) ->
  map f (seq start len) = repeat c len.
Proof.
  revert start. induction len as [|len IH]; intros start H; [reflexivity|].
  cbn [seq map repeat]. rewrite H by lia. f_equal. apply IH. intros i Hi.
  apply H. lia.
Qed.

End LoopFacts.

(** ** Time-domain descriptors *)

Module LevelFacts.
Local Open Scope R_scope.

(** The root mean square shared by the worklet and the engine. *)
Lemma worklet_rms_closed (buffer : list R) :
  Worklet.computeRMS buffer
  = sqrt (fold_right Rplus 0 (map (fun x => x * x) buffer) / INR (length buffer)).
Proof.
  unfold Worklet.computeRMS, Worklet.get.
  rewrite (LoopFacts.fold_left_seq_nth (fun sum x => sum + x * x) 0 buffer).
  rewrite LoopFacts.sum_squares_fold. now rewrite Rplus_0_l.
Qed.



End LevelFacts.



(** ** Zero crossings *)

Module CrossingFacts.
Local Open Scope R_scope.

(** The counting loop of [computeZeroCrossingRate]. *)
Lemma crossings_le (buffer : list R) (indices : list nat) (start : nat) :
  (start <=
   fold_left (fun crossings i =>
                if Bool.eqb (Worklet.nonneg (Worklet.get buffer i))
                            (Worklet.nonneg (Worklet.get buffer (i - 1)))
                then crossings else S crossings) indices start
   <= start + length indices)%nat.
Proof.
  revert start. induction indices as [|i l IH]; intro start; simpl; [lia|].
  pose proof (IH start). pose proof (IH (S start)).
  destruct (Bool.eqb _ _); lia.
Qed.

Lemma crossings_none (buffer : list R) (sign : bool) (indices : list nat) :
  (forall i, (i < length buffer)%nat ->
             Worklet.nonneg (Worklet.get buffer i) = sign) ->
  Forall (fun i => (1 <= i < length buffer)%nat) indices ->
  forall start : nat,
    fold_left (fun crossings i =>
                 if Bool.eqb (Worklet.nonneg (Worklet.get buffer i))
                             (Worklet.nonneg (Worklet.get buffer (i - 1)))
                 then crossings else S crossings) indices start
    = start.
Proof.
  intros Hsign H. induction H as [|i l Hi Hl IH]; intro start; simpl; [reflexivity|].
  rewrite !Hsign by lia. rewrite Bool.eqb_reflx. apply IH.
Qed.

Lemma indices_from_one (n : nat) :
  Forall (fun i => (1 <= i < n)%nat) (seq 1 (n - 1)).
Proof. apply Forall_forall. intros i Hi. apply in_seq in Hi. lia. Qed.

End CrossingFacts.

(** X2.  The zero-crossing rate of a non-empty buffer lies in [0, 1): at
    most one crossing per pair of neighbours, divided by the length.  It is
    0 when no sample is negative and when every sample is negative. *)
Theorem X2_zero_crossing_rate :
  forall buffer : list R,
    buffer <> [] ->
    (0 <= Worklet.computeZeroCrossingRate buffer < 1)%R /\
    (Forall (fun x => (0 <= x)%R) buffer \/ Forall (fun x => (x < 0)%R) buffer ->
     Worklet.computeZeroCrossingRate buffer = 0%R).
Proof.
  intros buffer Hne. unfold Worklet.computeZeroCrossingRate.
  assert (Hlen : (0 < length buffer)%nat) by (destruct buffer; [congruence|simpl; lia]).
  assert (Hn : (0 < INR (length buffer))%R) by now apply lt_0_INR.
  split.
  - pose proof (CrossingFacts.crossings_le buffer (seq 1 (length buffer - 1)) 0) as H.
    rewrite length_seq in H.
    set (crossings := fold_left _ _ _) in *.
    assert (Hc : (INR crossings <= INR (length buffer) - 1)%R).
    { replace (INR (length buffer) - 1)%R with (INR (length buffer - 1)).
      - apply le_INR. lia.
      - rewrite minus_INR by lia. reflexivity. }
    pose proof (pos_INR crossings). split.
    + apply Rmult_le_pos; [assumption|]. apply Rlt_le. now apply Rinv_0_lt_compat.
    + apply Rmult_lt_reg_r with (INR (length buffer)); [exact Hn|].
      unfold Rdiv. rewrite Rmult_assoc, Rinv_l by lra. lra.
  - intro H.
    assert (Hsign : exists sign, forall i, (i < length buffer)%nat ->
                      Worklet.nonneg (Worklet.get buffer i) = sign).
    { destruct H as [H|H]; [exists true|exists false]; intros i Hi;
        unfold Worklet.nonneg, Worklet.get;
        rewrite Forall_forall in H; specialize (H (nth i buffer 0%R) (nth_In _ _ Hi));
        destruct (Rge_dec _ _); try reflexivity; lra. }
    destruct Hsign as [sign Hsign].
    rewrite (CrossingFacts.crossings_none buffer sign _ Hsign
               (CrossingFacts.indices_from_one (length buffer))).
    unfold Rdiv. simpl. ring.
Qed.

Lemma X2_zero_crossing_rate_witness :
  (0 <= Worklet.computeZeroCrossingRate [1; -1; 1]%R < 1)%R.
Proof.
  apply (X2_zero_crossing_rate [1; -1; 1]%R). discriminate.
Defined.

(** ** Spectral centroid *)

Module CentroidFacts.
Local Open Scope R_scope.





Lemma engine_spectrum_nonneg (window : list R) :
  Forall (fun m => 0 <= m) (AudioEngine.computeSpectrum window).
Proof.
  unfold AudioEngine.computeSpectrum. apply Forall_forall. intros m Hm.
  apply in_map_iff in Hm. destruct Hm as (k & <- & _). apply sqrt_pos.
Qed.


Lemma engine_spectrum_length (window : list R) :
  length (AudioEngine.computeSpectrum window) = (length window / 2)%nat.
Proof. unfold AudioEngine.computeSpectrum. now rewrite length_map, length_seq. Qed.

End CentroidFacts.


(** ** Silence *)

Module SilenceFacts.
Local Open Scope R_scope.

Lemma sum_of_zeros {A : Type} (f : A -> R) (l : list A) :
  (forall a, In a l -> f a = 0) -> fold_right Rplus 0 (map f l) = 0.
Proof.
  induction l as [|a l IH]; intro H; simpl; [reflexivity|].
  rewrite H by now left. rewrite IH by (intros; apply H; now right). ring.
Qed.

Lemma worklet_spectrum_silence (n : nat) :
  Worklet.computeMagnitudeSpectrum (repeat 0 n) = repeat 0 (n / 2).
Proof.
  rewrite SpectrumFacts.worklet_spectrum_is_dft.
  unfold SpectralSpec.dft_magnitudes. rewrite repeat_length.
  apply LoopFacts.map_const_seq. intros k _.
  unfold SpectralSpec.dft_magnitude, SpectralSpec.correlation.
  rewrite !sum_of_zeros
    by (intros i _; rewrite SpectrumFacts.nth_repeat_0; ring).
  rewrite Rmult_0_l, Rplus_0_l. apply sqrt_0.
Qed.

Lemma engine_spectrum_silence (n : nat) :
  AudioEngine.computeSpectrum (repeat 0 n) = repeat 0 (n / 2).
Proof.
  rewrite SpectrumFacts.engine_spectrum_is_windowed_abs. rewrite repeat_length.
  apply LoopFacts.map_const_seq. intros i _.
  rewrite SpectrumFacts.nth_repeat_0, Rmult_0_l. apply Rabs_R0.
Qed.

Lemma rms_silence (n : nat) : Worklet.computeRMS (repeat 0 n) = 0.
Proof.
  rewrite LevelFacts.worklet_rms_closed, LoopFacts.sum_squares_repeat.
  replace (INR n * (0 * 0) / INR (length (repeat 0 n))) with 0
    by (unfold Rdiv; ring).
  apply sqrt_0.
Qed.

Lemma zcr_silence (n : nat) : Worklet.computeZeroCrossingRate (repeat 0 n) = 0.
Proof.
  unfold Worklet.computeZeroCrossingRate.
  rewrite (CrossingFacts.crossings_none (repeat 0 n) true).
  - unfold Rdiv. simpl. ring.
  - intros i _. unfold Worklet.nonneg, Worklet.get.
    rewrite SpectrumFacts.nth_repeat_0. destruct (Rge_dec 0 0); [reflexivity|lra].
  - apply CrossingFacts.indices_from_one.
Qed.

(** The centroid quotient on a spectrum without energy. *)
Lemma centroid_of_zeros (m : nat) :
  (let '(numerator, denominator) :=
     fold_left (fun acc i => (fst acc + INR i * nth i (repeat 0 m) 0,
                              snd acc + nth i (repeat 0 m) 0))
               (seq 0 (length (repeat 0 m))) (0, 0) in
   if Rgt_dec denominator 0 then numerator / denominator else 0) = 0.
Proof.
  rewrite (SpectrumFacts.fold_left_pair_sum
             (fun i => INR i * nth i (repeat 0 m) 0)
             (fun i => nth i (repeat 0 m) 0)).
  rewrite !sum_of_zeros
    by (intros i _; rewrite SpectrumFacts.nth_repeat_0; ring).
  rewrite Rplus_0_l. destruct (Rgt_dec 0 0); [lra|reflexivity].
Qed.

Lemma worklet_centroid_silence (n : nat) :
  Worklet.computeSpectralCentroid (repeat 0 n) = 0.
Proof.
  unfold Worklet.computeSpectralCentroid, Worklet.get.
  rewrite worklet_spectrum_silence. apply centroid_of_zeros.
Qed.

Lemma engine_centroid_silence (n : nat) :
  AudioEngine.computeSpectralCentroid (repeat 0 n) = 0.
Proof.
  unfold AudioEngine.computeSpectralCentroid, AudioEngine.get.
  rewrite engine_spectrum_silence. apply centroid_of_zeros.
Qed.

Lemma rectified_mean_silence (m : nat) :
  SpectralSpec.rectified_mean (repeat 0 m) (repeat 0 m) = 0.
Proof.
  unfold SpectralSpec.rectified_mean.
  rewrite sum_of_zeros; [unfold Rdiv; ring|].
  intros [c q] Hin.
  assert (Hc : In c (repeat 0 m)) by (eapply in_combine_l; exact Hin).
  assert (Hq : In q (repeat 0 m)) by (eapply in_combine_r; exact Hin).
  apply repeat_spec in Hc, Hq. subst. simpl.
  rewrite Rminus_0_r. unfold Rmax. destruct (Rle_dec 0 0); reflexivity.
Qed.

End SilenceFacts.

(** X4.  A buffer of silence (of two samples or more, so that the spectrum
    has a bin) gives the feature frame {rms 0, zcr 0, spectralCentroid 0,
    spectralFlux 0}, on the first fill (no previous spectrum) and on every
    fill that follows silence; the spectrum kept for the next fill is the
    silent one. *)
Theorem X4_silent_buffer_features :
  forall (n : nat) (p : Worklet.Processor),
    (2 <= n)%nat ->
    Worklet.prevSpectrum p = None \/
    Worklet.prevSpectrum p = Some (repeat 0%R (n / 2)) ->
    fst (Worklet.extractFeatures p (repeat 0%R n)) = Worklet.mkFeatures 0 0 0 0 /\
    Worklet.prevSpectrum (snd (Worklet.extractFeatures p (repeat 0%R n)))
    = Some (repeat 0%R (n / 2)).
Proof.
  intros n p _ Hprev. unfold Worklet.extractFeatures.
  rewrite SilenceFacts.rms_silence, SilenceFacts.zcr_silence,
    SilenceFacts.worklet_centroid_silence.
  destruct Hprev as [Hprev|Hprev].
  - unfold Worklet.computeSpectralFlux. rewrite Hprev.
    rewrite SilenceFacts.worklet_spectrum_silence. split; reflexivity.
  - rewrite (FluxFacts.worklet_flux p (repeat 0%R n) (repeat 0%R (n / 2)) Hprev)
      by (rewrite SilenceFacts.worklet_spectrum_silence; reflexivity).
    rewrite SilenceFacts.worklet_spectrum_silence,
      SilenceFacts.rectified_mean_silence.
    split; reflexivity.
Qed.

Lemma X4_silent_buffer_features_witness :
  fst (Worklet.extractFeatures Worklet.constructor (repeat 0%R 2048))
  = Worklet.mkFeatures 0 0 0 0.
Proof.
  apply (X4_silent_buffer_features 2048 Worklet.constructor).
  - apply (proj1 (Nat.leb_le 2 2048)). reflexivity.
  - left. reflexivity.
Defined.

(** ** Cadence of the streaming accumulator *)

Module CadenceFacts.
Import Worklet MoreProps.

Lemma array_set_length_R (i : nat) (x : R) (arr : list R) :
  length (array_set i x arr) = length arr.
Proof. revert i. induction arr as [|y arr IH]; intros [|i]; simpl; auto. Qed.

Lemma pushSample_advanced (sampleRate : Q) (p : Processor) (x : R) :
  (bufferIndex p < bufferSize p)%nat ->
  advanced p (pushSample sampleRate p x) 1 0.
Proof.
  intro H. unfold advanced, pushSample. cbn [bufferSize bufferIndex].
  destruct (bufferSize p <=? S (bufferIndex p))%nat eqn:E.
  - apply Nat.leb_le in E.
    unfold analyzeBuffer, extractFeatures, computeSpectralFlux.
    cbn [bufferSize buffer bufferIndex frameCount prevSpectrum port].
    destruct (prevSpectrum p);
      cbn [bufferSize buffer bufferIndex frameCount prevSpectrum port];
      rewrite length_app, array_set_length_R; cbn [length];
      repeat split; try lia; nia.
  - apply Nat.leb_gt in E.
    cbn [bufferSize buffer bufferIndex frameCount prevSpectrum port].
    rewrite array_set_length_R. repeat split; lia.
Qed.

Lemma advanced_trans (p p' p'' : Processor) (s1 s2 c1 c2 : nat) :
  advanced p p' s1 c1 -> advanced p' p'' s2 c2 ->
  advanced p p'' (s1 + s2) (c1 + c2).
Proof.
  intros (H1 & H2 & H3 & H4 & H5) (G1 & G2 & G3 & G4 & G5).
  unfold advanced. rewrite G1, G2, G3, H1, H2, H3 in *. repeat split; lia.
Qed.

Lemma pushSamples_advanced (sampleRate : Q) (audioData : list R) :
  forall p : Processor,
    (bufferIndex p < bufferSize p)%nat ->
    advanced p (fold_left (pushSample sampleRate) audioData p) (length audioData) 0.
Proof.
  induction audioData as [|x l IH]; intros p H; cbn [fold_left length].
  - unfold advanced. repeat split; lia.
  - pose proof (pushSample_advanced sampleRate p x H) as H1.
    assert (H' : (bufferIndex (pushSample sampleRate p x)
                  < bufferSize (pushSample sampleRate p x))%nat)
      by (destruct H1 as (_ & _ & _ & ? & _); assumption).
    apply (advanced_trans _ _ _ 1 (length l) 0 0 H1). now apply IH.
Qed.

Lemma processAudioData_advanced (sampleRate : Q) (p : Processor) (audioData : list R) :
  (bufferIndex p < bufferSize p)%nat ->
  advanced p (processAudioData sampleRate p audioData) (length audioData) 1.
Proof.
  intro H. destruct (pushSamples_advanced sampleRate audioData p H)
    as (H1 & H2 & H3 & H4 & H5).
  unfold advanced, processAudioData.
  cbn [bufferSize buffer bufferIndex frameCount port]. repeat split; lia.
Qed.

Lemma processAll_advanced (sampleRate : Q) (chunks : list (list R)) :
  forall p : Processor,
    (bufferIndex p < bufferSize p)%nat ->
    advanced p (processAll sampleRate p chunks) (length (concat chunks))
             (length chunks).
Proof.
  unfold processAll.
  induction chunks as [|chunk chunks IH]; intros p H; cbn [fold_left concat length].
  - unfold advanced. repeat split; lia.
  - pose proof (processAudioData_advanced sampleRate p chunk H) as H1.
    assert (H' : (bufferIndex (processAudioData sampleRate p chunk)
                  < bufferSize (processAudioData sampleRate p chunk))%nat)
      by (destruct H1 as (_ & _ & _ & ? & _); assumption).
    rewrite length_app.
    apply (advanced_trans _ _ _ _ _ 1 (length chunks) H1). now apply IH.
Qed.

End CadenceFacts.

(** X5.  Whatever the sizes of the incoming chunks, a fresh processor that
    has received T samples in all has posted exactly T / 2048 (rounded
    down) feature messages and holds T mod 2048 samples of the next window;
    [frameCount] is the number of chunks received, and the buffer keeps its
    2048 slots. *)
Theorem X5_one_message_per_2048_samples :
  forall (sampleRate : Q) (chunks : list (list R)),
    let p := Worklet.processAll sampleRate Worklet.constructor chunks in
    let T := length (concat chunks) in
    length (Worklet.port p) = (T / 2048)%nat /\
    Worklet.bufferIndex p = (T mod 2048)%nat /\
    Worklet.frameCount p = length chunks /\
    length (Worklet.buffer p) = 2048%nat.
Proof.
  intros sampleRate chunks p T.
  destruct (CadenceFacts.processAll_advanced sampleRate chunks Worklet.constructor)
    as (H1 & H2 & H3 & H4 & H5).
  { unfold Worklet.constructor. cbn [Worklet.bufferIndex Worklet.bufferSize]. lia. }
  fold p in H1, H2, H3, H4, H5. fold T in H5.
  unfold Worklet.constructor in H1, H2, H3, H5.
  cbn [Worklet.bufferSize Worklet.buffer Worklet.frameCount Worklet.bufferIndex
       Worklet.port length] in H1, H2, H3, H5.
  rewrite repeat_length in H2. rewrite H1 in H4.
  repeat split.
  - apply (Nat.div_unique T 2048 _ (Worklet.bufferIndex p)); lia.
  - apply (Nat.mod_unique T 2048 (length (Worklet.port p))); lia.
  - lia.
  - exact H2.
Qed.

(** ** Onset detection *)

Module OnsetFacts.
Import AudioEngine.

Lemma loop_from_length (hop limit : Z) (fuel : nat) :
  (0 < hop)%Z ->
  forall (i0 : Z) (k : nat),
    (limit <= i0 + Z.of_nat k * hop)%Z ->
    (length (loop_from fuel i0 limit hop) <= k)%nat.
Proof.
  intro Hhop. induction fuel as [|fuel IH]; intros i0 k Hk; cbn [loop_from length];
    [lia|].
  destruct (i0 <? limit)%Z eqn:E; [|simpl; lia].
  apply Z.ltb_lt in E. destruct k as [|k]; [lia|].
  cbn [length]. apply le_n_S. apply IH. lia.
Qed.

Lemma detectOnsets_step_length (audioData : list R) (sampleRate : Q)
    (prev : option (list R)) (onsets : list Q) (i : Z) :
  exists spectrum onsets',
    detectOnsets_step audioData sampleRate (prev, onsets) i
    = (Some spectrum, onsets') /\
    (length onsets'
     <= length onsets + match prev with Some _ => 1 | None => 0 end)%nat.
Proof.
  unfold detectOnsets_step. cbn [fst snd]. do 2 eexists. split; [reflexivity|].
  destruct prev as [prevSpectrum|]; [|lia].
  destruct (Rgt_dec _ _); [rewrite length_app; cbn [length]|]; lia.
Qed.

(** Each window after the first adds at most one onset. *)
Lemma detectOnsets_fold_length (audioData : list R) (sampleRate : Q)
    (indices : list Z) :
  forall st : option (list R) * list Q,
    (length (snd (fold_left (detectOnsets_step audioData sampleRate) indices st))
     <= length (snd st)
        + match fst st with
          | Some _ => length indices
          | None => length indices - 1
          end)%nat.
Proof.
  induction indices as [|i l IH]; intros [prev onsets]; cbn [fold_left length fst snd];
    [destruct prev; lia|].
  destruct (detectOnsets_step_length audioData sampleRate prev onsets i)
    as (spectrum & onsets' & -> & Hlen).
  specialize (IH (Some spectrum, onsets')). cbn [fst snd] in IH.
  destruct prev; lia.
Qed.

Lemma detectOnsets_short (audioData : list R) (sampleRate : Q) :
  (length audioData <= 3072)%nat ->
  (length (detectOnsets audioData sampleRate) < 4)%nat.
Proof.
  intro H. unfold detectOnsets.
  pose proof (detectOnsets_fold_length audioData sampleRate
                (loop_indices (Z.of_nat (length audioData) - 1024) 512)
                (None, [])) as G.
  cbn [fst snd length] in G.
  assert (L : (length (loop_indices (Z.of_nat (length audioData) - 1024) 512)
               <= 4)%nat).
  { unfold loop_indices. apply loop_from_length; lia. }
  lia.
Qed.

(** *** Silence *)

Lemma in_slice {A : Type} (a b : nat) (arr : list A) (x : A) :
  In x (slice a b arr) -> In x arr.
Proof.
  unfold slice. intro H.
  rewrite <- (firstn_skipn a arr). apply in_or_app. right.
  rewrite <- (firstn_skipn (b - a) (skipn a arr)). apply in_or_app. now left.
Qed.

Lemma slice_repeat (c : R) (a b n : nat) :
  exists m : nat, slice a b (repeat c n) = repeat c m.
Proof.
  exists (length (slice a b (repeat c n))).
  apply Forall_eq_repeat. apply Forall_forall. intros x Hx.
  apply in_slice in Hx. symmetry. now apply repeat_spec in Hx.
Qed.

Lemma flux_of_silence (a b : nat) :
  computeSpectralFlux (repeat 0%R a) (repeat 0%R b) = 0%R.
Proof.
  unfold computeSpectralFlux, get.
  assert (G : forall (l : list nat) (flux : R),
             fold_left (fun flux i =>
                          let diff := (nth i (repeat 0 a) 0
                                       - nth i (repeat 0 b) 0)%R in
                          if Rgt_dec diff 0 then (flux + diff)%R else flux)
                       l flux = flux).
  { induction l as [|i l IH]; intro flux; cbn [fold_left]; [reflexivity|].
    rewrite !SpectrumFacts.nth_repeat_0.
    destruct (Rgt_dec (0 - 0) 0); [exfalso; lra|apply IH]. }
  rewrite G. unfold Rdiv. ring.
Qed.

Lemma detectOnsets_silence (n : nat) (sampleRate : Q) :
  detectOnsets (repeat 0%R n) sampleRate = [].
Proof.
  unfold detectOnsets.
  generalize (loop_indices (Z.of_nat (length (repeat 0%R n)) - 1024) 512).
  intro l.
  assert (G : forall (l : list Z) (st : option (list R) * list Q),
             snd st = [] ->
             (fst st = None \/ exists m, fst st = Some (repeat 0%R m)) ->
             snd (fold_left (detectOnsets_step (repeat 0%R n) sampleRate) l st)
             = []).
  { clear l. induction l as [|i l IH]; intros [prev onsets] Ho Hp;
      cbn [fold_left]; [exact Ho|].
    cbn [fst snd] in Ho, Hp. subst onsets.
    destruct (slice_repeat 0%R (Z.to_nat i) (Z.to_nat (i + 1024)) n) as [m Hm].
    apply IH; unfold detectOnsets_step; cbn [fst snd]; rewrite Hm.
    - destruct Hp as [->|[m' ->]]; [reflexivity|].
      rewrite SilenceFacts.engine_spectrum_silence, flux_of_silence.
      destruct (Rgt_dec 0 0.1); [exfalso; lra|reflexivity].
    - right. exists (m / 2)%nat. now rewrite SilenceFacts.engine_spectrum_silence. }
  apply G; [reflexivity|now left].
Qed.

End OnsetFacts.

(** X6.  Audio of at most 3072 samples (four analysis windows or fewer)
    can yield at most three onsets, so tempo detection reports the default
    120 bpm with confidence 0, whatever the samples are. *)
Theorem X6_short_audio_default_tempo :
  forall (channelData : list R) (sampleRate : Q),
    (length channelData <= 3072)%nat ->
    (length (AudioEngine.detectOnsets channelData sampleRate) <= 3)%nat /\
    AudioEngine.detectTempo channelData sampleRate = AudioEngine.mkTempo 120 0.
Proof.
  intros channelData sampleRate H.
  pose proof (OnsetFacts.detectOnsets_short channelData sampleRate H) as G.
  split; [lia|].
  unfold AudioEngine.detectTempo, AudioEngine.estimateTempo.
  apply Nat.ltb_lt in G. now rewrite G.
Qed.

Lemma X6_short_audio_default_tempo_witness :
  AudioEngine.detectTempo (repeat 1%R 2000) 44100 = AudioEngine.mkTempo 120 0.
Proof.
  apply (X6_short_audio_default_tempo (repeat 1%R 2000) 44100).
  rewrite repeat_length. apply Nat.leb_le. reflexivity.
Defined.

(** X7.  Silent audio of any length has no onset, and its tempo is the
    default 120 bpm with confidence 0. *)
Theorem X7_silent_audio_default_tempo :
  forall (n : nat) (sampleRate : Q),
    AudioEngine.detectOnsets (repeat 0%R n) sampleRate = [] /\
    AudioEngine.detectTempo (repeat 0%R n) sampleRate = AudioEngine.mkTempo 120 0.
Proof.
  intros n sampleRate. split.
  - apply OnsetFacts.detectOnsets_silence.
  - unfold AudioEngine.detectTempo.
    now rewrite OnsetFacts.detectOnsets_silence.
Qed.

(** ** The grid of onset times *)

Module OnsetGridFacts.
Import AudioEngine.

Lemma loop_from_elements (hop limit : Z) (fuel : nat) :
  forall i0 : Z,
    Forall (fun i => (i < limit)%Z /\ exists j : nat, i = (i0 + Z.of_nat j * hop)%Z)
           (loop_from fuel i0 limit hop).
Proof.
  induction fuel as [|fuel IH]; intro i0; cbn [loop_from]; [constructor|].
  destruct (i0 <? limit)%Z eqn:E; [|constructor].
  constructor.
  - split; [now apply Z.ltb_lt|]. exists O. lia.
  - eapply Forall_impl; [|apply IH]. intros i [Hlt [j ->]]. split; [exact Hlt|].
    exists (S j). lia.
Qed.

Lemma loop_from_sorted (hop limit : Z) (fuel : nat) :
  (0 < hop)%Z ->
  forall i0 : Z, StronglySorted Z.lt (loop_from fuel i0 limit hop).
Proof.
  intro Hhop. induction fuel as [|fuel IH]; intro i0; cbn [loop_from]; [constructor|].
  destruct (i0 <? limit)%Z; [|constructor].
  constructor; [apply IH|].
  eapply Forall_impl; [|apply (loop_from_elements hop limit fuel (i0 + hop))].
  intros i [_ [j ->]]. nia.
Qed.

Lemma sorted_remove_middle (a b : list Z) (x : Z) :
  StronglySorted Z.lt (a ++ x :: b) -> StronglySorted Z.lt (a ++ b).
Proof.
  induction a as [|y a IH]; cbn [app]; intro H.
  - now inversion H.
  - inversion H as [|? ? Hs Hf]; subst. constructor; [now apply IH|].
    apply Forall_app in Hf. destruct Hf as [Hf1 Hf2]. inversion Hf2; subst.
    apply Forall_app. now split.
Qed.

(** The onsets are the times of some of the window starts, in order; the
    first window of a run that starts without a previous spectrum gives
    none. *)
Lemma detectOnsets_fold_indices (audioData : list R) (sampleRate : Q)
    (l : list Z) :
  forall (prev : option (list R)) (idxs : list Z),
    StronglySorted Z.lt (idxs ++ l) ->
    exists idxs' : list Z,
      snd (fold_left (detectOnsets_step audioData sampleRate) l
                     (prev, map (fun i => (inject_Z i / sampleRate)%Q) idxs))
      = map (fun i => (inject_Z i / sampleRate)%Q) idxs' /\
      StronglySorted Z.lt idxs' /\
      incl idxs' (idxs ++ match prev with Some _ => l | None => tl l end).
Proof.
  induction l as [|i l IH]; intros prev idxs Hs; cbn [fold_left].
  - exists idxs. rewrite app_nil_r in Hs. cbn [snd]. repeat split; [exact Hs|].
    destruct prev; cbn [tl]; rewrite app_nil_r; apply incl_refl.
  - unfold detectOnsets_step at 2. cbn [fst snd].
    set (spectrum := computeSpectrum _).
    destruct prev as [prevSpectrum|].
    + destruct (Rgt_dec _ _).
      * change [(inject_Z i / sampleRate)%Q]
          with (map (fun i => (inject_Z i / sampleRate)%Q) [i]).
        rewrite <- map_app.
        destruct (IH (Some spectrum) (idxs ++ [i])) as (idxs' & E & Hs' & Hi).
        { now rewrite <- app_assoc. }
        exists idxs'. repeat split; try assumption.
        rewrite <- app_assoc in Hi. exact Hi.
      * destruct (IH (Some spectrum) idxs) as (idxs' & E & Hs' & Hi).
        { eapply sorted_remove_middle; exact Hs. }
        exists idxs'. repeat split; try assumption.
        intros x Hx. apply Hi in Hx. apply in_app_or in Hx. apply in_or_app.
        destruct Hx; [now left|right; now right].
    + destruct (IH (Some spectrum) idxs) as (idxs' & E & Hs' & Hi).
      { eapply sorted_remove_middle; exact Hs. }
      exists idxs'. repeat split; assumption.
Qed.

Lemma detectOnsets_indices (audioData : list R) (sampleRate : Q) :
  exists idxs : list Z,
    detectOnsets audioData sampleRate
    = map (fun i => (inject_Z i / sampleRate)%Q) idxs /\
    StronglySorted Z.lt idxs /\
    Forall (fun i => exists j : nat,
                (0 < j)%nat /\ i = (Z.of_nat j * 512)%Z /\
                (i + 1024 < Z.of_nat (length audioData))%Z) idxs.
Proof.
  unfold detectOnsets.
  set (limit := (Z.of_nat (length audioData) - 1024)%Z).
  destruct (detectOnsets_fold_indices audioData sampleRate
              (loop_indices limit 512) None [])
    as (idxs & E & Hs & Hi).
  { cbn [app]. unfold loop_indices. now apply loop_from_sorted. }
  exists idxs. cbn [map] in E. repeat split; try assumption.
  apply Forall_forall. intros i Hin. apply Hi in Hin. cbn [app] in Hin.
  unfold loop_indices in Hin.
  destruct (Z.to_nat limit) as [|fuel]; [destruct Hin|].
  cbn [loop_from] in Hin. destruct (0 <? limit)%Z; [|destruct Hin].
  cbn [tl] in Hin.
  pose proof (loop_from_elements 512 limit fuel (0 + 512)) as G.
  rewrite Forall_forall in G. destruct (G i Hin) as [Hlt [j ->]].
  exists (S j). repeat split; lia.
Qed.

Lemma times_sorted (sampleRate : Q) (idxs : list Z) :
  (0 < sampleRate)%Q -> StronglySorted Z.lt idxs ->
  StronglySorted Qlt (map (fun i => (inject_Z i / sampleRate)%Q) idxs).
Proof.
  intros Hsr H. induction H as [|i l Hs IH Hf]; cbn [map]; constructor;
    [exact IH|].
  apply Forall_forall. intros t Ht. apply in_map_iff in Ht.
  destruct Ht as (i' & <- & Hi'). rewrite Forall_forall in Hf.
  specialize (Hf i' Hi'). unfold Qdiv.
  apply Qmult_lt_compat_r; [now apply Qinv_lt_0_compat|].
  now rewrite <- Zlt_Qlt.
Qed.

End OnsetGridFacts.

(** X8.  With a positive sample rate the onset list is strictly increasing
    and every onset is the start time of an analysis window other than the
    first: j * 512 / sampleRate for some j >= 1 with room for a full window
    of 1024 samples after it.  An onset at time 0 is never reported. *)
Theorem X8_onsets_on_the_hop_grid :
  forall (channelData : list R) (sampleRate : Q),
    (0 < sampleRate)%Q ->
    StronglySorted Qlt (AudioEngine.detectOnsets channelData sampleRate) /\
    Forall (fun t => exists j : nat,
                (0 < j)%nat /\
                t = (inject_Z (Z.of_nat j * 512) / sampleRate)%Q /\
                (Z.of_nat j * 512 + 1024 < Z.of_nat (length channelData))%Z)
           (AudioEngine.detectOnsets channelData sampleRate).
Proof.
  intros channelData sampleRate Hsr.
  destruct (OnsetGridFacts.detectOnsets_indices channelData sampleRate)
    as (idxs & -> & Hs & Hf).
  split; [now apply OnsetGridFacts.times_sorted|].
  apply Forall_forall. intros t Ht. apply in_map_iff in Ht.
  destruct Ht as (i & <- & Hi). rewrite Forall_forall in Hf.
  destruct (Hf i Hi) as (j & Hj & -> & Hlt). exists j. repeat split; assumption.
Qed.

Lemma X8_onsets_on_the_hop_grid_witness :
  StronglySorted Qlt
    (AudioEngine.detectOnsets (repeat 1%R 4000) 44100).
Proof.
  apply (X8_onsets_on_the_hop_grid (repeat 1%R 4000) 44100). reflexivity.
Defined.

(** ** A regular click track *)

Module ClickFacts.
Import AudioEngine.



End ClickFacts.



(** The bucket of a half-second spacing is 1/2 and its tempo 120. *)
Example half_second_bucket :
  Math_round (60 / (inject_Z (Math_round ((1 # 2) / AudioEngine.resolution))
                    * AudioEngine.resolution)) = 120%Z.
Proof. reflexivity. Qed.

(** ** Spectral rolloff *)

Module RolloffFacts.
Import AudioEngine.
Local Open Scope R_scope.

Lemma map_nth_all (l : list R) :
  map (fun i => nth i l 0) (seq 0 (length l)) = l.
Proof.
  induction l as [|x l IH]; [reflexivity|].
  cbn [length seq map nth]. rewrite <- seq_shift, map_map. cbn [nth].
  now rewrite IH.
Qed.

Lemma sum_fold (l : list R) (a : R) :
  fold_left (fun sum val => sum + val) l a = a + fold_right Rplus 0 l.
Proof.
  revert a. induction l as [|x l IH]; intro a; simpl; [ring|]. rewrite IH. ring.
Qed.

Lemma sum_repeat_zero (k : nat) : fold_right Rplus 0 (repeat 0 k) = 0.
Proof. induction k as [|k IH]; simpl; [reflexivity|]. rewrite IH. ring. Qed.

Lemma sum_nonneg (l : list R) :
  Forall (fun m => 0 <= m) l -> 0 <= fold_right Rplus 0 l.
Proof. intro H. induction H; simpl; lra. Qed.

(** The loop returns from inside as soon as the running sum reaches the
    threshold, which it does at the last index at the latest. *)
Lemma rolloff_loop_returns (spectrum : list R) (threshold : R) (indices : list nat) :
  forall cumulativeEnergy : R,
    indices <> [] ->
    threshold <= cumulativeEnergy
                 + fold_right Rplus 0 (map (fun i => get spectrum i) indices) ->
    exists i, In i indices /\
              rolloff_loop spectrum threshold indices cumulativeEnergy
              = INR i / INR (length spectrum).
Proof.
  induction indices as [|i rest IH]; intros c Hne Hsum; [congruence|].
  cbn [rolloff_loop map fold_right] in *.
  destruct (Rge_dec (c + get spectrum i) threshold) as [Hge|Hlt].
  - exists i. split; [now left|reflexivity].
  - destruct rest as [|i' rest'].
    + exfalso. cbn [map fold_right] in Hsum. lra.
    + destruct (IH (c + get spectrum i)) as (j & Hj & E); [discriminate|lra|].
      exists j. split; [now right|exact E].
Qed.

Lemma computeSpectralRolloff_range (window : list R) :
  (2 <= length window)%nat ->
  exists i : nat,
    (i < length window / 2)%nat /\
    computeSpectralRolloff window = INR i / INR (length window / 2).
Proof.
  intro H. unfold computeSpectralRolloff.
  set (spectrum := computeSpectrum window).
  assert (Hlen : length spectrum = (length window / 2)%nat)
    by apply CentroidFacts.engine_spectrum_length.
  assert (Hpos : (0 < length spectrum)%nat).
  { rewrite Hlen. apply Nat.div_str_pos. lia. }
  pose proof (sum_nonneg spectrum (CentroidFacts.engine_spectrum_nonneg window))
    as Hs.
  destruct (rolloff_loop_returns spectrum
              (fold_left (fun sum val => sum + val) spectrum 0 * 0.85)
              (seq 0 (length spectrum)) 0) as (i & Hi & E).
  - destruct (length spectrum); [lia|discriminate].
  - unfold get. rewrite map_nth_all, sum_fold. lra.
  - apply in_seq in Hi. exists i. rewrite <- Hlen. split; [lia|exact E].
Qed.

End RolloffFacts.

(** X10.  The spectral rolloff of a window of at least two samples is
    i / (N/2) for the first bin i at which the running energy reaches 85 %
    of the total, hence a value in [0, 1): the loop always returns from
    inside.  The fallback value 1 is returned only for windows of fewer
    than two samples, which have no bin; a silent window gives 0. *)
Theorem X10_spectral_rolloff_range :
  forall window : list R,
    ((2 <= length window)%nat ->
     (0 <= AudioEngine.computeSpectralRolloff window < 1)%R) /\
    ((length window < 2)%nat -> AudioEngine.computeSpectralRolloff window = 1%R) /\
    (forall n : nat,
        window = repeat 0%R n -> (2 <= n)%nat ->
        AudioEngine.computeSpectralRolloff window = 0%R).
Proof.
  intro window. split; [|split].
  - intro H.
    destruct (RolloffFacts.computeSpectralRolloff_range window H) as (i & Hi & ->).
    assert (Hn : (0 < INR (length window / 2))%R) by (apply lt_0_INR; lia).
    split.
    + apply Rmult_le_pos; [apply pos_INR|]. apply Rlt_le.
      now apply Rinv_0_lt_compat.
    + apply Rmult_lt_reg_r with (INR (length window / 2)); [exact Hn|].
      unfold Rdiv. rewrite Rmult_assoc, Rinv_l by lra.
      rewrite Rmult_1_r, Rmult_1_l. now apply lt_INR.
  - intro H. unfold AudioEngine.computeSpectralRolloff.
    rewrite CentroidFacts.engine_spectrum_length.
    replace (length window / 2)%nat with 0%nat; [reflexivity|].
    symmetry. apply Nat.div_small. exact H.
  - intros n -> Hn. unfold AudioEngine.computeSpectralRolloff.
    rewrite SilenceFacts.engine_spectrum_silence, repeat_length.
    destruct (n / 2)%nat as [|m] eqn:E.
    + exfalso. assert (0 < n / 2)%nat by (apply Nat.div_str_pos; lia). lia.
    + cbn [seq AudioEngine.rolloff_loop]. unfold AudioEngine.get.
      rewrite SpectrumFacts.nth_repeat_0, RolloffFacts.sum_fold.
      rewrite RolloffFacts.sum_repeat_zero.
      destruct (Rge_dec _ _) as [_|Hn']; [simpl; unfold Rdiv; ring|].
      exfalso. apply Hn'. lra.
Qed.

(** ** The energy curve *)

Module EnergyFacts.
Import AudioEngine.

Lemma loop_fromQ_elements (hop limit : Q) (fuel : nat) :
  forall i0 : Q,
    Forall (fun q => exists j : nat, (q == i0 + inject_Z (Z.of_nat j) * hop)%Q)
           (loop_fromQ fuel i0 limit hop).
Proof.
  induction fuel as [|fuel IH]; intro i0; cbn [loop_fromQ]; [constructor|].
  destruct (Qltb i0 limit); [|constructor].
  constructor.
  - exists O. simpl. ring.
  - eapply Forall_impl; [|apply IH]. intros q [j Hq]. exists (S j).
    rewrite Hq, Nat2Z.inj_succ. unfold Z.succ. rewrite inject_Z_plus. ring.
Qed.

Lemma loop_indicesQ_empty (hop limit : Q) :
  (limit <= 0)%Q -> loop_indicesQ limit hop = [].
Proof.
  intro H. unfold loop_indicesQ.
  destruct (Z.to_nat _); cbn [loop_fromQ]; [reflexivity|].
  destruct (Qltb 0 limit) eqn:E; [|reflexivity].
  apply Qltb_lt in E. exfalso. exact (Qlt_not_le _ _ E H).
Qed.

Section Random.
Variable RandomState : Type.
Variable Math_random : RandomState -> R * RandomState.

Lemma mapM_Forall2 {A B : Type} (P : A -> B -> Prop)
    (f : A -> Rand RandomState B) (l : list A) :
  (forall a s, P a (fst (f a s))) ->
  forall s, Forall2 P l (fst (mapM RandomState f l s)).
Proof.
  intro Hf. induction l as [|a l IH]; intro s; [constructor|].
  cbn [mapM]. unfold bind at 1. pose proof (Hf a s) as Hb.
  destruct (f a s) as [b s1].
  unfold bind at 1. specialize (IH s1).
  destruct (mapM RandomState f l s1) as [bs s2]. simpl in *. now constructor.
Qed.

Lemma analyzeEnergy_window_shape (channelData : list R)
    (sampleRate windowSize i : Q) (s : RandomState) :
  let res := fst (analyzeEnergy_window RandomState Math_random channelData
                                       sampleRate windowSize i s) in
  seg_energy (snd res) = fst res /\
  rms (features (snd res)) = fst res /\
  (0 <= fst res)%R /\
  seg_start (snd res) = (i / sampleRate)%Q /\
  seg_end (snd res) = ((i + windowSize) / sampleRate)%Q.
Proof.
  unfold analyzeEnergy_window, bind, ret.
  destruct (computeMFCC RandomState Math_random _ s) as [coeffs s1].
  cbn [fst snd seg_energy seg_start seg_end features rms].
  repeat split. apply sqrt_pos.
Qed.

Lemma analyzeEnergy_results (channelData : list R) (sampleRate : Q)
    (s : RandomState) :
  fst (analyzeEnergy RandomState Math_random channelData sampleRate s)
  = (map fst
         (fst (mapM RandomState
                 (analyzeEnergy_window RandomState Math_random channelData
                    sampleRate (sampleRate * (1 # 10))%Q)
                 (loop_indicesQ
                    (inject_Z (Z.of_nat (length channelData))
                     - sampleRate * (1 # 10))%Q
                    (sampleRate * (1 # 10) / 2)%Q) s)),
     map snd
         (fst (mapM RandomState
                 (analyzeEnergy_window RandomState Math_random channelData
                    sampleRate (sampleRate * (1 # 10))%Q)
                 (loop_indicesQ
                    (inject_Z (Z.of_nat (length channelData))
                     - sampleRate * (1 # 10))%Q
                    (sampleRate * (1 # 10) / 2)%Q) s))).
Proof.
  unfold analyzeEnergy, bind, ret.
  destruct (mapM RandomState _ _ s) as [results s1]. reflexivity.
Qed.

End Random.
End EnergyFacts.

(** X11.  With a sample rate of 10 Hz or more (so that the 100 ms window
    holds a sample), [analyzeEnergy] returns an energy
    curve and a segment list that go together: the curve is the list of
    the segments' energies, each energy is the (non-negative) rms recorded
    in the segment's features, every segment lasts 0.1 s and starts on the
    50 ms grid (j / 20 s).  Audio no longer than one window (a tenth of the
    sample rate) gives no segment at all. *)
Theorem X11_energy_curve_and_segments :
  forall (RandomState : Type) (Math_random : RandomState -> R * RandomState)
         (channelData : list R) (sampleRate : Q) (s : RandomState),
    (10 <= sampleRate)%Q ->
    let result := fst (AudioEngine.analyzeEnergy RandomState Math_random
                         channelData sampleRate s) in
    fst result = map AudioEngine.seg_energy (snd result) /\
    Forall (fun segment =>
              AudioEngine.rms (AudioEngine.features segment)
              = AudioEngine.seg_energy segment /\
              (0 <= AudioEngine.seg_energy segment)%R /\
              (AudioEngine.seg_end segment - AudioEngine.seg_start segment
               == 1 # 10)%Q /\
              exists j : nat,
                (AudioEngine.seg_start segment
                 == inject_Z (Z.of_nat j) * (1 # 20))%Q)
           (snd result) /\
    ((inject_Z (Z.of_nat (length channelData)) <= sampleRate * (1 # 10))%Q ->
     snd result = []).
Proof.
  intros RandomState Math_random channelData sampleRate s Hsr result.
  assert (Hnz : ~ (sampleRate == 0)%Q).
  { intro E. rewrite E in Hsr. now apply Hsr. }
  unfold result. rewrite EnergyFacts.analyzeEnergy_results.
  set (windowSize := (sampleRate * (1 # 10))%Q).
  set (hopSize := (windowSize / 2)%Q).
  set (f := AudioEngine.analyzeEnergy_window RandomState Math_random channelData
              sampleRate windowSize).
  set (l := AudioEngine.loop_indicesQ _ hopSize).
  pose proof (EnergyFacts.mapM_Forall2 RandomState
                (fun (i : Q) (res : R * AudioEngine.AudioSegment) =>
                   AudioEngine.seg_energy (snd res) = fst res /\
                   AudioEngine.rms (AudioEngine.features (snd res)) = fst res /\
                   (0 <= fst res)%R /\
                   AudioEngine.seg_start (snd res) = (i / sampleRate)%Q /\
                   AudioEngine.seg_end (snd res)
                   = ((i + windowSize) / sampleRate)%Q)
                f l
                (fun i s0 => EnergyFacts.analyzeEnergy_window_shape RandomState
                               Math_random channelData sampleRate windowSize i s0)
                s) as H.
  assert (Hl : Forall (fun q => exists j : nat,
                          (q == 0 + inject_Z (Z.of_nat j) * hopSize)%Q) l)
    by apply EnergyFacts.loop_fromQ_elements.
  assert (Hempty : (inject_Z (Z.of_nat (length channelData)) <= windowSize)%Q ->
                   l = []).
  { intro Hle. apply EnergyFacts.loop_indicesQ_empty.
    apply (Qplus_le_l _ _ windowSize). ring_simplify. exact Hle. }
  destruct (AudioEngine.mapM RandomState f l s) as [results s1].
  cbn [fst snd] in *.
  split; [|split].
  - clear Hl Hempty. induction H as [|i res l' results' Hres _ IH]; cbn [map];
      [reflexivity|].
    destruct Hres as (E & _). now rewrite IH, E.
  - clear Hempty. induction H as [|i res l' results' Hres _ IH]; cbn [map];
      [constructor|].
    inversion Hl as [|? ? [j Hj] Hl']; subst.
    destruct Hres as (E1 & E2 & E3 & E4 & E5).
    constructor; [|now apply IH].
    rewrite E1, E2, E4, E5. repeat split; [exact E3| |].
    + unfold windowSize. field. exact Hnz.
    + exists j. rewrite Hj. unfold hopSize, windowSize. field. exact Hnz.
  - intro Hle. rewrite (Hempty Hle) in H. inversion H; subst. reflexivity.
Qed.

Lemma X11_energy_curve_and_segments_witness :
  fst (fst (AudioEngine.analyzeEnergy nat Props.alternating
              (repeat 1%R 300) 1000 0%nat))
  = map AudioEngine.seg_energy
        (snd (fst (AudioEngine.analyzeEnergy nat Props.alternating
                     (repeat 1%R 300) 1000 0%nat))).
Proof.
  apply (X11_energy_curve_and_segments nat Props.alternating
           (repeat 1%R 300) 1000 0%nat).
  discriminate.
Defined.

(** ** Mood *)

Module MoodFacts.
Import AudioEngine.
Local Open Scope R_scope.

Lemma engine_rms_silence (n : nat) : computeRMS (repeat 0 n) = 0.
Proof.
  unfold computeRMS, get.
  rewrite (LoopFacts.fold_left_seq_nth (fun sum x => sum + x * x) 0 (repeat 0 n)).
  rewrite LoopFacts.sum_squares_fold, LoopFacts.sum_squares_repeat.
  replace ((0 + INR n * (0 * 0)) / INR (length (repeat 0 n))) with 0
    by (unfold Rdiv; ring).
  apply sqrt_0.
Qed.

(** The accumulation loop of [analyzeMood] on silence. *)
Lemma mood_totals_silence (n : nat) (windowSize : Q) (indices : list Q) :
  fold_left (fun acc i =>
               let window := slice (Z.to_nat (Qfloor i))
                                   (Z.to_nat (Qfloor (i + windowSize)))
                                   (repeat 0 n) in
               let brightness := computeSpectralCentroid window in
               let energy := computeRMS window in
               (fst acc + brightness * energy, snd acc + energy))
            indices (0, 0)
  = (0, 0).
Proof.
  induction indices as [|i l IH]; cbn [fold_left]; [reflexivity|].
  destruct (OnsetFacts.slice_repeat 0 (Z.to_nat (Qfloor i))
              (Z.to_nat (Qfloor (i + windowSize))) n) as [m ->].
  rewrite engine_rms_silence. cbn [fst snd].
  replace (0 + computeSpectralCentroid (repeat 0 m) * 0) with 0 by ring.
  replace (0 + 0) with 0 by ring. exact IH.
Qed.

Lemma clamp_range (x : R) : 0 <= Rmin 1 (Rmax 0 x) <= 1.
Proof.
  split.
  - apply Rmin_glb; [lra|apply Rmax_l].
  - apply Rmin_l.
Qed.

End MoodFacts.

(** X12.  Silent audio (at least one sample, a sample rate of 2 Hz or more
    so that the 500 ms window holds a sample) is classified calm, with valence 0.5 (the value used when there is no
    energy to weigh the brightness by) and arousal 0. *)
Theorem X12_silent_audio_is_calm :
  forall (n : nat) (sampleRate : Q),
    (0 < n)%nat -> (2 <= sampleRate)%Q ->
    AudioEngine.analyzeMood (repeat 0%R n) sampleRate
    = AudioEngine.mkAudioMood 0.5 0 AudioEngine.mood_calm.
Proof.
  intros n sampleRate _ _. unfold AudioEngine.analyzeMood.
  rewrite MoodFacts.mood_totals_silence.
  destruct (Rgt_dec 0 0) as [H|_]; [exfalso; lra|].
  replace (0 / Q2R _ * 10)%R with 0%R by (unfold Rdiv; ring).
  replace (Rmin 1 (Rmax 0 0.5)) with 0.5%R
    by (rewrite Rmax_right, Rmin_right by lra; reflexivity).
  replace (Rmin 1 (Rmax 0 0)) with 0%R
    by (rewrite Rmax_right, Rmin_right by lra; reflexivity).
  unfold Rgtb, Rltb.
  destruct (Rgt_dec 0.5 0.6); [exfalso; lra|].
  destruct (Rlt_dec 0.5 0.4); [exfalso; lra|].
  destruct (Rgt_dec 0 0.7); [exfalso; lra|].
  destruct (Rlt_dec 0 0.3); [|exfalso; lra].
  reflexivity.
Qed.

Lemma X12_silent_audio_is_calm_witness :
  AudioEngine.analyzeMood (repeat 0%R 1000) 1000
  = AudioEngine.mkAudioMood 0.5 0 AudioEngine.mood_calm.
Proof.
  apply (X12_silent_audio_is_calm 1000 1000).
  - apply Nat.lt_0_succ.
  - discriminate.
Defined.

(** X13.  For the mood of any audio of at least one sample, at a sample
    rate of 2 Hz or more: valence and arousal lie in [0, 1];
    the narrative recommended from it is "happy" exactly when the mood
    category is happy; "tragic" is recommended only for energetic or
    dramatic moods; and sad, calm and peaceful moods always get "slice of
    life". *)
Theorem X13_mood_and_recommended_narrative :
  forall (channelData : list R) (sampleRate : Q),
    channelData <> [] -> (2 <= sampleRate)%Q ->
    let m := AudioEngine.analyzeMood channelData sampleRate in
    (0 <= AudioEngine.valence m <= 1)%R /\
    (0 <= AudioEngine.arousal m <= 1)%R /\
    (Narratives.recommendNarrative m = Narratives.happy
     <-> AudioEngine.category m = AudioEngine.mood_happy) /\
    (Narratives.recommendNarrative m = Narratives.tragic ->
     AudioEngine.category m = AudioEngine.mood_energetic \/
     AudioEngine.category m = AudioEngine.mood_dramatic) /\
    (AudioEngine.category m = AudioEngine.mood_sad \/
     AudioEngine.category m = AudioEngine.mood_calm \/
     AudioEngine.category m = AudioEngine.mood_peaceful ->
     Narratives.recommendNarrative m = Narratives.slice_of_life).
Proof.
  intros channelData sampleRate _ _ m. unfold m, AudioEngine.analyzeMood.
  destruct (fold_left _ _ _) as [totalBrightness totalEnergy].
  set (valence := Rmin 1 (Rmax 0 _)). set (arousal := Rmin 1 (Rmax 0 (_ * 10))).
  unfold Narratives.recommendNarrative.
  cbn [AudioEngine.valence AudioEngine.arousal AudioEngine.category].
  split; [apply MoodFacts.clamp_range|]. split; [apply MoodFacts.clamp_range|].
  clearbody valence arousal. unfold Rgtb, Rltb.
  destruct (Rgt_dec valence 0.6), (Rgt_dec arousal 0.6), (Rlt_dec valence 0.4),
    (Rlt_dec arousal 0.4), (Rgt_dec arousal 0.7), (Rlt_dec arousal 0.3),
    (Rgt_dec arousal 0.5);
    cbn [andb]; try (exfalso; lra);
    (split; [split; intro; (reflexivity || discriminate)|];
     split; [intro; ((now left) || (now right) || discriminate)|];
     intros [H|[H|H]]; (reflexivity || discriminate)).
Qed.

Lemma X13_mood_and_recommended_narrative_witness :
  let m := AudioEngine.analyzeMood (repeat 1%R 8) 4 in
  (0 <= AudioEngine.valence m <= 1)%R /\
  (0 <= AudioEngine.arousal m <= 1)%R /\
  (Narratives.recommendNarrative m = Narratives.happy
   <-> AudioEngine.category m = AudioEngine.mood_happy) /\
  (Narratives.recommendNarrative m = Narratives.tragic ->
   AudioEngine.category m = AudioEngine.mood_energetic \/
   AudioEngine.category m = AudioEngine.mood_dramatic) /\
  (AudioEngine.category m = AudioEngine.mood_sad \/
   AudioEngine.category m = AudioEngine.mood_calm \/
   AudioEngine.category m = AudioEngine.mood_peaceful ->
   Narratives.recommendNarrative m = Narratives.slice_of_life).
Proof.
  apply (X13_mood_and_recommended_narrative (repeat 1%R 8) 4).
  - discriminate.
  - discriminate.
Defined.

(** ** Song structure *)

Module StructureFacts.
Import AudioEngine.

Lemma Math_min_spec (x y : Q) :
  (Math_min x y <= x)%Q /\ (Math_min x y <= y)%Q /\
  (Math_min x y = x \/ Math_min x y = y).
Proof.
  unfold Math_min. destruct (Qle_bool x y) eqn:E.
  - apply Qle_bool_iff in E. repeat split; [apply Qle_refl|exact E|now left].
  - assert (H : (y < x)%Q).
    { apply Qnot_le_lt. intro H. apply Qle_bool_iff in H. congruence. }
    repeat split; [now apply Qlt_le_weak|apply Qle_refl|now right].
Qed.

Lemma intro_end_positive (duration : Q) :
  (30 < duration)%Q -> (0 < Math_min 15 (duration * (1 # 10)))%Q.
Proof.
  intro H. destruct (Math_min_spec 15 (duration * (1 # 10))) as (_ & _ & [-> | ->]).
  - reflexivity.
  - apply Qlt_trans with (30 * (1 # 10))%Q; [reflexivity|].
    apply Qmult_lt_compat_r; [reflexivity|exact H].
Qed.

End StructureFacts.

(** X14.  For a duration above 60 s the structure has an intro, two
    verses, a chorus and an outro, and never a bridge.  Intro, first verse,
    chorus and second verse follow each other without gap from 0 to 80 % of
    the duration (each ends where the next starts, none is empty, the intro
    is at most 15 s long); the outro runs from 90 % to the end, so the tenth
    of the song between 80 % and 90 % belongs to no section. *)
Theorem X14_structure_of_a_long_song :
  forall duration : Q,
    (60 < duration)%Q ->
    exists i v1 c v2 o : AudioEngine.Span,
      AudioEngine.analyzeStructure duration
      = AudioEngine.mkAudioStructure (Some i) [v1; v2] (Some c) None (Some o) /\
      AudioEngine.span_start i = 0%Q /\
      AudioEngine.span_end i = AudioEngine.span_start v1 /\
      AudioEngine.span_end v1 = AudioEngine.span_start c /\
      AudioEngine.span_end c = AudioEngine.span_start v2 /\
      (AudioEngine.span_end v2 == duration * (8 # 10))%Q /\
      (AudioEngine.span_start o == duration * (9 # 10))%Q /\
      AudioEngine.span_end o = duration /\
      (AudioEngine.span_end i <= 15)%Q /\
      Forall (fun span => (AudioEngine.span_start span
                           < AudioEngine.span_end span)%Q) [i; v1; c; v2; o].
Proof.
  intros duration H.
  assert (H30 : (30 < duration)%Q) by (eapply Qlt_trans; [|exact H]; reflexivity).
  assert (H45 : (45 < duration)%Q) by (eapply Qlt_trans; [|exact H]; reflexivity).
  assert (H0 : (0 < duration)%Q) by (eapply Qlt_trans; [|exact H]; reflexivity).
  pose proof (StructureFacts.intro_end_positive duration H30) as Hpos.
  destruct (StructureFacts.Math_min_spec 15 (duration * (1 # 10)))
    as (Hle15 & Hle10 & _).
  unfold AudioEngine.analyzeStructure.
  apply Qltb_lt in H, H30, H45. rewrite H, H30, H45. cbn [AudioEngine.span_end].
  assert (E : Qeq_bool (AudioEngine.Math_min 15 (duration * (1 # 10))) 0 = false).
  { destruct (Qeq_bool _ 0) eqn:E; [|reflexivity].
    apply Qeq_bool_iff in E. rewrite E in Hpos. discriminate. }
  rewrite E.
  do 5 eexists. split; [reflexivity|].
  cbn [AudioEngine.span_start AudioEngine.span_end].
  repeat split; try reflexivity; try exact Hle15.
  repeat constructor; cbn [AudioEngine.span_start AudioEngine.span_end].
  - exact Hpos.
  - eapply Qle_lt_trans; [exact Hle10|].
    apply Qmult_lt_l; [exact H0|reflexivity].
  - apply Qmult_lt_l; [exact H0|reflexivity].
  - apply Qmult_lt_l; [exact H0|reflexivity].
  - rewrite <- (Qmult_1_r duration) at 2.
    apply Qmult_lt_l; [exact H0|reflexivity].
Qed.

Lemma X14_structure_of_a_long_song_witness :
  exists i v1 c v2 o : AudioEngine.Span,
    AudioEngine.analyzeStructure 200
    = AudioEngine.mkAudioStructure (Some i) [v1; v2] (Some c) None (Some o) /\
    AudioEngine.span_start i = 0%Q /\
    AudioEngine.span_end i = AudioEngine.span_start v1 /\
    AudioEngine.span_end v1 = AudioEngine.span_start c /\
    AudioEngine.span_end c = AudioEngine.span_start v2 /\
    (AudioEngine.span_end v2 == 200 * (8 # 10))%Q /\
    (AudioEngine.span_start o == 200 * (9 # 10))%Q /\
    AudioEngine.span_end o = 200 /\
    (AudioEngine.span_end i <= 15)%Q /\
    Forall (fun span => (AudioEngine.span_start span
                         < AudioEngine.span_end span)%Q) [i; v1; c; v2; o].
Proof.
  apply (X14_structure_of_a_long_song 200). reflexivity.
Defined.

(** ** Frame difference *)

Module DifferenceFacts.
Import VideoEngine.
Local Open Scope R_scope.

(** The normalized distance of two pixels with byte channels. *)
Lemma pixel_distance_range (r1 g1 b1 r2 g2 b2 : Z) :
  (0 <= r1 <= 255)%Z -> (0 <= g1 <= 255)%Z -> (0 <= b1 <= 255)%Z ->
  (0 <= r2 <= 255)%Z -> (0 <= g2 <= 255)%Z -> (0 <= b2 <= 255)%Z ->
  0 <= sqrt (IZR ((r2 - r1) ^ 2 + (g2 - g1) ^ 2 + (b2 - b1) ^ 2))
       / (255 * sqrt 3) <= 1.
Proof.
  intros Hr1 Hg1 Hb1 Hr2 Hg2 Hb2.
  assert (H3 : 0 < sqrt 3) by (apply sqrt_lt_R0; lra).
  assert (Hz : (0 <= (r2 - r1) ^ 2 + (g2 - g1) ^ 2 + (b2 - b1) ^ 2
                <= 3 * (255 * 255))%Z) by nia.
  set (z := ((r2 - r1) ^ 2 + (g2 - g1) ^ 2 + (b2 - b1) ^ 2)%Z) in *.
  assert (Hs : sqrt (IZR z) <= 255 * sqrt 3).
  { replace (255 * sqrt 3) with (sqrt (3 * (255 * 255))).
    - apply sqrt_le_1_alt. replace (3 * (255 * 255)) with (IZR (3 * (255 * 255)))
        by (rewrite !mult_IZR; reflexivity).
      apply IZR_le. lia.
    - rewrite sqrt_mult by lra. rewrite sqrt_square by lra. ring. }
  split.
  - apply Rmult_le_pos; [apply sqrt_pos|]. apply Rlt_le, Rinv_0_lt_compat. lra.
  - apply Rmult_le_reg_r with (255 * sqrt 3); [lra|].
    unfold Rdiv. rewrite Rmult_assoc, Rinv_l by lra. lra.
Qed.

(** The accumulation loop of [computeFrameDifference]. *)
Lemma difference_loop_range (data1 data2 : list Z) (indices : list Z) :
  Props.bytes data1 -> Props.bytes data2 ->
  forall (total : R) (n : nat),
    0 <= total <= INR n ->
    let '(totalDiff, pixelCount) :=
      fold_left (fun acc i =>
                   let r1 := get data1 i in
                   let g1 := get data1 (i + 1) in
                   let b1 := get data1 (i + 2) in
                   let r2 := get data2 i in
                   let g2 := get data2 (i + 1) in
                   let b2 := get data2 (i + 2) in
                   let diff :=
                     sqrt (IZR ((r2 - r1) ^ 2 + (g2 - g1) ^ 2 + (b2 - b1) ^ 2))
                     / (255 * sqrt 3) in
                   (fst acc + diff, S (snd acc)))
                indices (total, n) in
    0 <= totalDiff <= INR pixelCount /\ pixelCount = (n + length indices)%nat.
Proof.
  intros H1 H2. induction indices as [|i l IH]; intros total n Ht;
    cbn [fold_left length].
  - split; [exact Ht|lia].
  - cbn [fst snd].
    pose proof (pixel_distance_range
                  (get data1 i) (get data1 (i + 1)) (get data1 (i + 2))
                  (get data2 i) (get data2 (i + 1)) (get data2 (i + 2))
                  (ColorFacts.get_byte _ _ H1) (ColorFacts.get_byte _ _ H1)
                  (ColorFacts.get_byte _ _ H1) (ColorFacts.get_byte _ _ H2)
                  (ColorFacts.get_byte _ _ H2) (ColorFacts.get_byte _ _ H2)) as Hd.
    specialize (IH (total + sqrt (IZR ((get data2 i - get data1 i) ^ 2
                                       + (get data2 (i + 1) - get data1 (i + 1)) ^ 2
                                       + (get data2 (i + 2) - get data1 (i + 2)) ^ 2))
                            / (255 * sqrt 3)) (S n)).
    destruct (fold_left _ l _) as [totalDiff pixelCount].
    destruct IH as [IH1 IH2]; [rewrite S_INR; lra|]. split; [exact IH1|lia].
Qed.

Lemma loop_indices_nonempty (limit hop : Z) :
  (0 < limit)%Z -> (0 < length (loop_indices limit hop))%nat.
Proof.
  intro H. unfold loop_indices.
  destruct (Z.to_nat limit) as [|fuel] eqn:E; [lia|].
  cbn [loop_from]. destruct (0 <? limit)%Z eqn:E0; [simpl; lia|].
  apply Z.ltb_ge in E0. lia.
Qed.

Lemma computeFrameDifference_range (frame1 frame2 : ImageData) :
  Props.bytes (data frame1) -> Props.bytes (data frame2) -> data frame1 <> [] ->
  0 <= computeFrameDifference frame1 frame2 <= 1.
Proof.
  intros H1 H2 Hne. unfold computeFrameDifference.
  pose proof (difference_loop_range (data frame1) (data frame2)
                (loop_indices (Z.of_nat (length (data frame1))) 4) H1 H2 0 0) as G.
  destruct (fold_left _ _ _) as [totalDiff pixelCount].
  destruct G as [[G0 G1] G2]; [simpl; lra|].
  assert (Hpos : (0 < pixelCount)%nat).
  { rewrite G2. cbn [Nat.add]. apply loop_indices_nonempty.
    destruct (data frame1); [congruence|simpl; lia]. }
  assert (Hn : 0 < INR pixelCount) by now apply lt_0_INR.
  split.
  - apply Rmult_le_pos; [exact G0|]. apply Rlt_le. now apply Rinv_0_lt_compat.
  - apply Rmult_le_reg_r with (INR pixelCount); [exact Hn|].
    unfold Rdiv. rewrite Rmult_assoc, Rinv_l by lra. lra.
Qed.


End DifferenceFacts.

Module FrameFacts.
Import VideoEngine MoreProps.

Lemma frame_ok_bytes (frame : ImageData) : frame_ok frame -> Props.bytes (data frame).
Proof. now intros (_ & _ & _ & H). Qed.

Lemma frame_ok_nonempty (frame : ImageData) : frame_ok frame -> data frame <> [].
Proof.
  intros (Hw & Hh & Hl & _) E. rewrite E in Hl. cbn [length] in Hl. nia.
Qed.



End FrameFacts.



(** ** A single cut *)

Module CutFacts.
Import VideoEngine.

Lemma frame_at_left (a b : ImageData) (k m i : nat) :
  (i < k)%nat -> frame_at (repeat a k ++ repeat b m) i = a.
Proof.
  intro H. unfold frame_at. rewrite app_nth1 by (rewrite repeat_length; lia).
  now apply nth_repeat_lt.
Qed.

Lemma frame_at_right (a b : ImageData) (k m i : nat) :
  (k <= i < k + m)%nat -> frame_at (repeat a k ++ repeat b m) i = b.
Proof.
  intro H. unfold frame_at. rewrite app_nth2 by (rewrite repeat_length; lia).
  rewrite repeat_length. apply nth_repeat_lt. lia.
Qed.

(** Between equal neighbours the loop of [analyzeScenes] changes nothing. *)
Lemma analyzeScenes_no_cut (frames : list ImageData) (frameInterval : Q)
    (l : list nat) :
  Forall (fun i => frame_at frames (i - 1) = frame_at frames i) l ->
  forall st, fold_left (analyzeScenes_step frames frameInterval) l st = st.
Proof.
  intro H. induction H as [|i l Hi Hl IH]; intro st; cbn [fold_left];
    [reflexivity|].
  unfold analyzeScenes_step at 2. rewrite Hi.
  rewrite SolidFrameFacts.computeFrameDifference_same.
  destruct (Rgt_dec 0 0.3) as [Hgt|_]; [exfalso; lra|apply IH].
Qed.

Lemma analyzeScenes_fold_cut (a b : ImageData) (k m : nat) (frameInterval : Q) :
  (1 <= k)%nat -> (1 <= m)%nat -> (computeFrameDifference a b > 0.3)%R ->
  fold_left (analyzeScenes_step (repeat a k ++ repeat b m) frameInterval)
            (seq 1 (k + m - 1)) ([], 0%Q)
  = ([mkSceneAnalysis 0 (inject_Z (Z.of_nat k) * frameInterval)
                      (fst (classifyScene a)) (snd (classifyScene a))],
     (inject_Z (Z.of_nat k) * frameInterval)%Q).
Proof.
  intros Hk Hm Hdiff.
  replace (k + m - 1)%nat with ((k - 1) + (1 + (m - 1)))%nat by lia.
  rewrite seq_app, fold_left_app.
  rewrite (analyzeScenes_no_cut _ frameInterval (seq 1 (k - 1))).
  2:{ apply Forall_forall. intros i Hi. apply in_seq in Hi.
      now rewrite !frame_at_left by lia. }
  replace (1 + (k - 1))%nat with k by lia.
  cbn [seq Nat.add fold_left].
  rewrite (analyzeScenes_no_cut _ frameInterval (seq (S k) (m - 1))).
  2:{ apply Forall_forall. intros i Hi. apply in_seq in Hi.
      now rewrite !frame_at_right by lia. }
  unfold analyzeScenes_step.
  rewrite (frame_at_left a b k m (k - 1)) by lia.
  rewrite (frame_at_right a b k m k) by lia.
  destruct (Rgt_dec _ 0.3) as [_|Hn]; [reflexivity|contradiction].
Qed.

Lemma white_black_difference :
  computeFrameDifference (mkImageData 1 1 [255; 255; 255; 255]%Z)
                         (mkImageData 1 1 [0; 0; 0; 255]%Z) = 1%R.
Proof.
  unfold computeFrameDifference. cbn [data length].
  change (loop_indices (Z.of_nat 4) 4) with [0%Z]. cbn [fold_left fst snd].
  change (get [255; 255; 255; 255]%Z 0) with 255%Z.
  change (get [255; 255; 255; 255]%Z (0 + 1)) with 255%Z.
  change (get [255; 255; 255; 255]%Z (0 + 2)) with 255%Z.
  change (get [0; 0; 0; 255]%Z 0) with 0%Z.
  change (get [0; 0; 0; 255]%Z (0 + 1)) with 0%Z.
  change (get [0; 0; 0; 255]%Z (0 + 2)) with 0%Z.
  change ((0 - 255) ^ 2 + (0 - 255) ^ 2 + (0 - 255) ^ 2)%Z with (3 * (255 * 255))%Z.
  rewrite !mult_IZR, sqrt_mult, sqrt_square by lra.
  assert (0 < sqrt 3)%R by (apply sqrt_lt_R0; lra).
  simpl INR. field. lra.
Qed.

End CutFacts.

(** X16.  A sequence of k >= 1 copies of one frame followed by m >= 1
    copies of another of the same size, whose difference exceeds the
    threshold 0.3, gives
    exactly two scenes: the first from 0 to the time of frame k,
    k * duration / (k + m), classified on the first frame, the second from
    there to the total duration, classified on the second frame. *)
Theorem X16_one_step_change_two_scenes :
  forall (a b : VideoEngine.ImageData) (k m : nat) (duration : Q),
    MoreProps.frame_ok a -> MoreProps.frame_ok b -> MoreProps.same_size a b ->
    (1 <= k)%nat -> (1 <= m)%nat -> (0 < duration)%Q ->
    (VideoEngine.computeFrameDifference a b > 0.3)%R ->
    let cut := (inject_Z (Z.of_nat k)
                * (duration / inject_Z (Z.of_nat (k + m))))%Q in
    VideoEngine.analyzeScenes (repeat a k ++ repeat b m) duration
    = Some [VideoEngine.mkSceneAnalysis 0 cut
              (fst (VideoEngine.classifyScene a))
              (snd (VideoEngine.classifyScene a));
            VideoEngine.mkSceneAnalysis cut duration
              (fst (VideoEngine.classifyScene b))
              (snd (VideoEngine.classifyScene b))].
Proof.
  intros a b k m duration _ _ _ Hk Hm Hd Hdiff cut.
  unfold VideoEngine.analyzeScenes.
  set (frames := repeat a k ++ repeat b m).
  assert (Hlen : length frames = (k + m)%nat)
    by (unfold frames; now rewrite length_app, !repeat_length).
  rewrite Hlen.
  set (fi := (duration / inject_Z (Z.of_nat (k + m)))%Q).
  unfold frames at 1. rewrite CutFacts.analyzeScenes_fold_cut by assumption.
  cbn [fst snd app]. change (inject_Z (Z.of_nat k) * fi)%Q with cut.
  assert (Hcut : Qltb cut duration = true).
  { apply Qltb_lt. unfold cut.
    assert (Hn : (0 < inject_Z (Z.of_nat (k + m)))%Q).
    { replace 0%Q with (inject_Z 0) by reflexivity. rewrite <- Zlt_Qlt. lia. }
    unfold Qdiv. rewrite Qmult_assoc. apply Qlt_shift_div_r; [exact Hn|].
    rewrite (Qmult_comm duration). apply Qmult_lt_compat_r; [exact Hd|].
    rewrite <- Zlt_Qlt. lia. }
  rewrite Hcut.
  assert (Hlast : nth_error frames (k + m - 1) = Some b).
  { unfold frames. rewrite nth_error_app2 by (rewrite repeat_length; lia).
    rewrite repeat_length. apply nth_error_repeat. lia. }
  rewrite Hlast. reflexivity.
Qed.

Lemma X16_one_step_change_two_scenes_witness :
  exists scenes,
    VideoEngine.analyzeScenes
      (repeat (VideoEngine.mkImageData 1 1 [255; 255; 255; 255]%Z) 2
       ++ repeat (VideoEngine.mkImageData 1 1 [0; 0; 0; 255]%Z) 3) 10
    = Some scenes /\ length scenes = 2%nat.
Proof.
  eexists. split.
  - apply (X16_one_step_change_two_scenes
             (VideoEngine.mkImageData 1 1 [255; 255; 255; 255]%Z)
             (VideoEngine.mkImageData 1 1 [0; 0; 0; 255]%Z) 2 3 10).
    + repeat split; repeat (apply Forall_cons; [cbn; lia|]); apply Forall_nil.
    + repeat split; repeat (apply Forall_cons; [cbn; lia|]); apply Forall_nil.
    + split; reflexivity.
    + apply Nat.leb_le. reflexivity.
    + apply Nat.leb_le. reflexivity.
    + reflexivity.
    + rewrite CutFacts.white_black_difference. lra.
  - reflexivity.
Defined.

(** X17.  [classifyScene] never answers "wide": an edge density above 0.4
    is above 0.3 and is already answered "indoor" by the rule before.  The
    confidence is fixed by the type: outdoor 0.7, indoor 0.6, close-up 0.8,
    medium 0.5. *)
Theorem X17_classifyScene_never_wide :
  forall frame : VideoEngine.ImageData,
    fst (VideoEngine.classifyScene frame) <> VideoEngine.scene_wide /\
    snd (VideoEngine.classifyScene frame)
    = match fst (VideoEngine.classifyScene frame) with
      | VideoEngine.scene_outdoor => 7 # 10
      | VideoEngine.scene_indoor => 6 # 10
      | VideoEngine.scene_close_up => 8 # 10
      | VideoEngine.scene_wide => 7 # 10
      | VideoEngine.scene_medium => 5 # 10
      end.
Proof.
  intro frame. unfold VideoEngine.classifyScene.
  set (brightness := VideoEngine.computeFrameBrightness frame).
  set (edgeCount := VideoEngine.computeEdgeCount frame).
  destruct (Qltb (6 # 10) brightness && existsb _ _)%bool;
    [split; [discriminate|reflexivity]|].
  destruct (Qltb brightness (4 # 10) || Qltb (3 # 10) edgeCount)%bool eqn:E;
    [split; [discriminate|reflexivity]|].
  destruct (Qltb edgeCount (1 # 10)); [split; [discriminate|reflexivity]|].
  destruct (Qltb (4 # 10) edgeCount) eqn:E4; [|split; [discriminate|reflexivity]].
  exfalso. apply orb_false_iff in E. destruct E as [_ E3].
  apply Qltb_lt in E4.
  assert (H3 : (3 # 10 < edgeCount)%Q)
    by (eapply Qlt_trans; [|exact E4]; reflexivity).
  apply Qltb_lt in H3. congruence.
Qed.

(** ** The colour histogram of a frame *)

Module HistogramFacts.
Import VideoEngine MoreProps.
Local Open Scope Z_scope.

Lemma same_key_true (c : Color) (r0 g0 b0 : Z) :
  same_key c r0 g0 b0 = true <-> color_key c = (r0, g0, b0).
Proof.
  unfold same_key, color_key. rewrite !andb_true_iff, !Z.eqb_eq.
  split; [intros [[-> ->] ->]; reflexivity|intros [= -> -> ->]; auto].
Qed.

Lemma colorMap_add_keys (colorMap : list Color) (r0 g0 b0 : Z) :
  map color_key (colorMap_add colorMap r0 g0 b0)
  = if existsb (fun c => same_key c r0 g0 b0) colorMap
    then map color_key colorMap
    else map color_key colorMap ++ [(r0, g0, b0)].
Proof.
  induction colorMap as [|c rest IH]; cbn [colorMap_add existsb map app];
    [reflexivity|].
  destruct (same_key c r0 g0 b0) eqn:E; cbn [orb map].
  - reflexivity.
  - rewrite IH. destruct (existsb _ rest); reflexivity.
Qed.

Lemma total_count_cons (c : Color) (l : list Color) :
  total_count (c :: l) = count c + total_count l.
Proof. reflexivity. Qed.

(** Adding a sample keeps the keys distinct and the counts positive, and
    raises the sum of the counts by one. *)
Lemma colorMap_add_invariant (colorMap : list Color) (r0 g0 b0 : Z) :
  NoDup (map color_key colorMap) ->
  Forall (fun c => 1 <= count c) colorMap ->
  NoDup (map color_key (colorMap_add colorMap r0 g0 b0)) /\
  Forall (fun c => 1 <= count c) (colorMap_add colorMap r0 g0 b0) /\
  total_count (colorMap_add colorMap r0 g0 b0) = total_count colorMap + 1.
Proof.
  intros Hnd Hpos. split; [|split].
  - rewrite colorMap_add_keys.
    destruct (existsb _ colorMap) eqn:E; [exact Hnd|].
    apply NoDup_app; [exact Hnd|repeat constructor; intros []|].
    intros k Hk [<-|[]]. apply in_map_iff in Hk. destruct Hk as (c & Hc & Hin).
    assert (Ex : existsb (fun c => same_key c r0 g0 b0) colorMap = true).
    { apply existsb_exists. exists c. split; [exact Hin|]. now apply same_key_true. }
    congruence.
  - induction Hpos as [|c rest Hc Hrest IH]; cbn [colorMap_add].
    + repeat constructor. simpl. lia.
    + inversion Hnd; subst. destruct (same_key c r0 g0 b0).
      * constructor; [simpl; lia|exact Hrest].
      * constructor; [exact Hc|now apply IH].
  - clear Hnd Hpos. induction colorMap as [|c rest IH]; cbn [colorMap_add].
    + reflexivity.
    + destruct (same_key c r0 g0 b0); rewrite !total_count_cons;
        cbn [count]; lia.
Qed.

Lemma sort_insert_perm (c : Color) (sorted : list Color) :
  Permutation (sort_insert c sorted) (c :: sorted).
Proof.
  induction sorted as [|d rest IH]; cbn [sort_insert]; [reflexivity|].
  destruct (count c <? count d); [|reflexivity].
  rewrite IH. apply perm_swap.
Qed.

Lemma sort_by_count_perm (colors : list Color) :
  Permutation (sort_by_count colors) colors.
Proof.
  induction colors as [|c rest IH]; cbn [sort_by_count fold_right]; [reflexivity|].
  fold (sort_by_count rest). rewrite sort_insert_perm. now constructor.
Qed.

Lemma sort_insert_sorted (c : Color) (sorted : list Color) :
  StronglySorted by_count sorted -> StronglySorted by_count (sort_insert c sorted).
Proof.
  intro H. induction H as [|d rest Hs IH Hf]; cbn [sort_insert].
  - repeat constructor.
  - destruct (count c <? count d) eqn:E.
    + apply Z.ltb_lt in E. constructor; [exact IH|].
      eapply Permutation_Forall; [symmetry; apply sort_insert_perm|].
      constructor; [unfold by_count; lia|exact Hf].
    + apply Z.ltb_ge in E. constructor; [now constructor|].
      constructor; [exact E|].
      eapply Forall_impl; [|exact Hf]. unfold by_count. intros e He. lia.
Qed.

Lemma sort_by_count_sorted (colors : list Color) :
  StronglySorted by_count (sort_by_count colors).
Proof.
  induction colors as [|c rest IH]; cbn [sort_by_count fold_right]; [constructor|].
  now apply sort_insert_sorted.
Qed.

Lemma firstn_sorted (n : nat) (l : list Color) :
  StronglySorted by_count l -> StronglySorted by_count (firstn n l).
Proof.
  intro H. revert n. induction H as [|c rest Hs IH Hf]; intros [|n];
    cbn [firstn]; try constructor.
  - apply IH.
  - now apply ColorFacts.firstn_Forall.
Qed.

Lemma total_count_perm (l l' : list Color) :
  Permutation l l' -> total_count l = total_count l'.
Proof.
  intro H. induction H; rewrite ?total_count_cons; lia.
Qed.

Lemma total_count_firstn (n : nat) (l : list Color) :
  Forall (fun c => 1 <= count c) l ->
  total_count (firstn n l) <= total_count l /\
  ((length l <= n)%nat -> total_count (firstn n l) = total_count l).
Proof.
  intro H. split.
  - revert n. induction H as [|c rest Hc Hrest IH]; intros [|n];
      cbn [firstn]; rewrite ?total_count_cons; try lia.
    + assert (0 <= total_count rest).
      { clear IH. induction Hrest; rewrite ?total_count_cons;
          [cbn [total_count fold_right]|]; lia. }
      cbn [total_count fold_right]. lia.
    + specialize (IH n). lia.
  - intro Hn. now rewrite firstn_all2.
Qed.

(** The histogram before sorting and truncation. *)
Lemma colorMap_invariant (data : list Z) (indices : list Z) :
  forall colorMap : list Color,
    NoDup (map color_key colorMap) ->
    Forall (fun c => 1 <= count c) colorMap ->
    let colorMap' :=
      fold_left (fun colorMap i =>
                   colorMap_add colorMap (quantize (get data i))
                                (quantize (get data (i + 1)))
                                (quantize (get data (i + 2))))
                indices colorMap in
    NoDup (map color_key colorMap') /\
    Forall (fun c => 1 <= count c) colorMap' /\
    total_count colorMap' = total_count colorMap + Z.of_nat (length indices).
Proof.
  induction indices as [|i l IH]; intros colorMap Hnd Hpos; cbn [fold_left length].
  - repeat split; try assumption. lia.
  - destruct (colorMap_add_invariant colorMap (quantize (get data i))
                (quantize (get data (i + 1))) (quantize (get data (i + 2)))
                Hnd Hpos) as (H1 & H2 & H3).
    destruct (IH _ H1 H2) as (G1 & G2 & G3). repeat split; try assumption. lia.
Qed.

End HistogramFacts.

(** X18.  For a frame of four bytes per pixel,
    [extractDominantColors frame n] returns at most n colours, in
    order of decreasing count, no two with the same three channels, each
    counted at least once; their counts add up to at most the number of
    pixels sampled (every fourth one), and to exactly that number when the
    frame has no more than n distinct quantized colours among them. *)
Theorem X18_dominant_colours_of_a_frame :
  forall (frame : VideoEngine.ImageData) (n : nat),
    MoreProps.frame_ok frame ->
    let colors := VideoEngine.extractDominantColors frame n in
    let sampled :=
      Z.of_nat (length (loop_indices
                          (Z.of_nat (length (VideoEngine.data frame))) 16)) in
    (length colors <= n)%nat /\
    StronglySorted MoreProps.by_count colors /\
    NoDup (map MoreProps.color_key colors) /\
    Forall (fun c => (1 <= VideoEngine.count c)%Z) colors /\
    (MoreProps.total_count colors <= sampled)%Z /\
    ((length colors < n)%nat -> MoreProps.total_count colors = sampled).
Proof.
  intros frame n _ colors sampled.
  unfold colors, VideoEngine.extractDominantColors.
  destruct (HistogramFacts.colorMap_invariant (VideoEngine.data frame)
              (loop_indices (Z.of_nat (length (VideoEngine.data frame))) 16) [])
    as (Hnd & Hpos & Hsum); [constructor|constructor|].
  set (colorMap := fold_left _ _ []) in *.
  cbn [MoreProps.total_count fold_right] in Hsum. fold sampled in Hsum.
  pose proof (HistogramFacts.sort_by_count_perm colorMap) as Hperm.
  assert (Hpos' : Forall (fun c => (1 <= VideoEngine.count c)%Z)
                         (VideoEngine.sort_by_count colorMap))
    by (eapply Permutation_Forall; [symmetry; exact Hperm|exact Hpos]).
  assert (Hsum' : MoreProps.total_count (VideoEngine.sort_by_count colorMap)
                  = sampled)
    by (rewrite (HistogramFacts.total_count_perm _ _ Hperm); lia).
  destruct (HistogramFacts.total_count_firstn n _ Hpos') as [Hle Heq].
  repeat split.
  - apply firstn_le_length.
  - apply HistogramFacts.firstn_sorted, HistogramFacts.sort_by_count_sorted.
  - rewrite <- firstn_map.
    assert (Hnd' : NoDup (map MoreProps.color_key (VideoEngine.sort_by_count colorMap))).
    { apply (Permutation_NoDup (l := map MoreProps.color_key colorMap));
        [apply Permutation_map; now symmetry|exact Hnd]. }
    rewrite <- (firstn_skipn n (map _ _)) in Hnd'.
    now apply NoDup_app_remove_r in Hnd'.
  - now apply ColorFacts.firstn_Forall.
  - lia.
  - intro Hlt. rewrite length_firstn in Hlt.
    rewrite Heq; [exact Hsum'|lia].
Qed.

Lemma X18_dominant_colours_of_a_frame_witness :
  let frame := VideoEngine.mkImageData 2 1 [255; 128; 7; 255; 31; 32; 250; 255]%Z in
  let colors := VideoEngine.extractDominantColors frame 5 in
  let sampled :=
    Z.of_nat (length (loop_indices
                        (Z.of_nat (length (VideoEngine.data frame))) 16)) in
  (length colors <= 5)%nat /\
  StronglySorted MoreProps.by_count colors /\
  NoDup (map MoreProps.color_key colors) /\
  Forall (fun c => (1 <= VideoEngine.count c)%Z) colors /\
  (MoreProps.total_count colors <= sampled)%Z /\
  ((length colors < 5)%nat -> MoreProps.total_count colors = sampled).
Proof.
  apply (X18_dominant_colours_of_a_frame
           (VideoEngine.mkImageData 2 1 [255; 128; 7; 255; 31; 32; 250; 255]%Z) 5).
  repeat split; repeat (apply Forall_cons; [cbn; lia|]); apply Forall_nil.
Defined.

(** ** Temperature and saturation *)

Module ToneFacts.
Import VideoEngine Props.

(** A mean of values between 0 and 1, weighted by counts. *)
Lemma weighted_mean_fold (f : Color -> Q) (colors : list Color) :
  Forall (fun c => 0 <= f c <= 1 /\ (0 <= count c)%Z) colors ->
  forall (W : Z) (S : Q),
    0 <= S <= inject_Z W ->
    let res :=
      fold_left (fun acc color =>
                   ((fst acc + count color)%Z,
                    (snd acc + f color * inject_Z (count color))%Q))
                colors (W, S) in
    0 <= snd res <= inject_Z (fst res).
Proof.
  intro H. induction H as [|c rest [Hf Hc] _ IH]; intros W S HS;
    cbn [fold_left fst snd]; [exact HS|].
  apply IH. rewrite inject_Z_plus.
  assert (0 <= inject_Z (count c)) by (now rewrite <- (Zle_Qle 0)).
  split; Lqa.nra.
Qed.

Lemma weighted_mean_range (S : Q) (W : Z) (default : Q) :
  0 <= S <= inject_Z W -> 0 <= default <= 1 ->
  0 <= (if (0 <? W)%Z then S / inject_Z W else default) <= 1.
Proof.
  intros HS Hd. destruct (0 <? W)%Z eqn:E; [|exact Hd].
  apply Z.ltb_lt in E. assert (Hq : 0 < inject_Z W) by (now rewrite <- (Zlt_Qlt 0)).
  split.
  - apply Qle_shift_div_l; [exact Hq|]. rewrite Qmult_0_l. apply HS.
  - apply Qle_shift_div_r; [exact Hq|]. rewrite Qmult_1_l. apply HS.
Qed.

Lemma ratio_range (a b : Z) :
  (0 <= a <= b)%Z -> (0 < b)%Z -> 0 <= inject_Z a / inject_Z b <= 1.
Proof.
  intros Ha Hb. assert (Hq : 0 < inject_Z b) by (now rewrite <- (Zlt_Qlt 0)).
  split.
  - apply Qle_shift_div_l; [exact Hq|]. rewrite Qmult_0_l.
    rewrite <- (Zle_Qle 0). lia.
  - apply Qle_shift_div_r; [exact Hq|]. rewrite Qmult_1_l.
    rewrite <- Zle_Qle. lia.
Qed.

Lemma computeColorTemperature_range (colors : list Color) :
  Forall quantized colors -> 0 <= computeColorTemperature colors <= 1.
Proof.
  intro H. unfold computeColorTemperature.
  pose proof (weighted_mean_fold
                (fun color => inject_Z (r color - b color + 255) / 510) colors)
    as G.
  assert (Hf : Forall (fun c => 0 <= inject_Z (r c - b c + 255) / 510 <= 1 /\
                               (0 <= count c)%Z) colors).
  { eapply Forall_impl; [|exact H]. intros c (Hr & _ & Hb & Hc).
    split; [apply (ratio_range _ 510)|]; lia. }
  specialize (G Hf 0%Z 0 (conj (Qle_refl 0) (Qle_refl 0))).
  cbv beta zeta in G |- *.
  destruct (fold_left _ colors (0%Z, 0)) as [W S].
  apply weighted_mean_range; [exact G|split; discriminate].
Qed.

Lemma computeSaturation_range (colors : list Color) :
  Forall quantized colors -> 0 <= computeSaturation colors <= 1.
Proof.
  intro H. unfold computeSaturation.
  pose proof (weighted_mean_fold
                (fun color =>
                   if (0 <? Z.max (Z.max (r color) (g color)) (b color))%Z
                   then inject_Z (Z.max (Z.max (r color) (g color)) (b color)
                                  - Z.min (Z.min (r color) (g color)) (b color))
                        / inject_Z (Z.max (Z.max (r color) (g color)) (b color))
                   else 0) colors)
    as G.
  cbv beta in G.
  assert (Hf : Forall (fun c => 0 <= (if (0 <? Z.max (Z.max (r c) (g c)) (b c))%Z
                   then inject_Z (Z.max (Z.max (r c) (g c)) (b c)
                                  - Z.min (Z.min (r c) (g c)) (b c))
                        / inject_Z (Z.max (Z.max (r c) (g c)) (b c))
                   else 0) <= 1 /\ (0 <= count c)%Z) colors).
  { eapply Forall_impl; [|exact H]. intros c (Hr & Hg & Hb & Hc).
    split; [|lia]. destruct (0 <? _)%Z eqn:E.
    - apply Z.ltb_lt in E. apply ratio_range; lia.
    - split; discriminate. }
  specialize (G Hf 0%Z 0 (conj (Qle_refl 0) (Qle_refl 0))).
  cbv beta zeta in G |- *.
  destruct (fold_left _ colors (0%Z, 0)) as [W S].
  apply weighted_mean_range; [exact G|split; discriminate].
Qed.

(** The two running totals of [analyzeColor]. *)
Lemma totals_range (frames : list ImageData) :
  Forall (fun frame => bytes (data frame)) frames ->
  forall (acc : Q * Q) (k : Z),
    0 <= fst acc <= inject_Z k -> 0 <= snd acc <= inject_Z k ->
    let res :=
      fold_left (fun acc frame =>
                   let colors := extractDominantColors frame 5 in
                   ((fst acc + computeColorTemperature colors)%Q,
                    (snd acc + computeSaturation colors)%Q))
                frames acc in
    0 <= fst res <= inject_Z (k + Z.of_nat (length frames)) /\
    0 <= snd res <= inject_Z (k + Z.of_nat (length frames)).
Proof.
  intro H. induction H as [|frame rest Hb _ IH]; intros acc k H1 H2;
    cbn [fold_left length].
  - rewrite Z.add_0_r. now split.
  - cbv zeta.
    pose proof (computeColorTemperature_range _
                  (ColorFacts.extractDominantColors_quantized frame 5 Hb)) as Ht.
    pose proof (computeSaturation_range _
                  (ColorFacts.extractDominantColors_quantized frame 5 Hb)) as Hs.
    replace (k + Z.of_nat (S (length rest)))%Z
      with ((k + 1) + Z.of_nat (length rest))%Z by lia.
    apply IH; cbn [fst snd]; rewrite inject_Z_plus;
      change (inject_Z 1) with 1; split; Lqa.lra.
Qed.

End ToneFacts.

(** X19.  For at least one frame, the temperature and the saturation
    reported by [analyzeColor] lie between 0 and 1. *)
Theorem X19_temperature_and_saturation_range :
  forall frames : list VideoEngine.ImageData,
    frames <> [] -> Forall MoreProps.frame_ok frames ->
    0 <= VideoEngine.temperature (VideoEngine.analyzeColor frames) <= 1 /\
    0 <= VideoEngine.saturation (VideoEngine.analyzeColor frames) <= 1.
Proof.
  intros frames Hne Hok.
  assert (Hb : Forall (fun frame => Props.bytes (VideoEngine.data frame)) frames).
  { eapply Forall_impl; [|exact Hok]. exact FrameFacts.frame_ok_bytes. }
  unfold VideoEngine.analyzeColor.
  pose proof (ToneFacts.totals_range frames Hb (0, 0) 0%Z) as G.
  cbv zeta in G |- *.
  destruct (fold_left _ frames (0, 0)) as [T S].
  cbn [VideoEngine.temperature VideoEngine.saturation].
  destruct G as [[T0 T1] [S0 S1]]; try (split; apply Qle_refl).
  cbn [fst snd] in *. rewrite Z.add_0_l in T1, S1.
  assert (Hq : 0 < inject_Z (Z.of_nat (length frames))).
  { rewrite <- (Zlt_Qlt 0). destruct frames; [congruence|cbn [length]; lia]. }
  repeat split.
  - apply Qle_shift_div_l; [exact Hq|]. now rewrite Qmult_0_l.
  - apply Qle_shift_div_r; [exact Hq|]. now rewrite Qmult_1_l.
  - apply Qle_shift_div_l; [exact Hq|]. now rewrite Qmult_0_l.
  - apply Qle_shift_div_r; [exact Hq|]. now rewrite Qmult_1_l.
Qed.

Lemma X19_temperature_and_saturation_range_witness :
  0 <= VideoEngine.temperature
         (VideoEngine.analyzeColor
            [VideoEngine.mkImageData 2 1 [255; 128; 7; 255; 31; 32; 250; 255]%Z])
    <= 1 /\
  0 <= VideoEngine.saturation
         (VideoEngine.analyzeColor
            [VideoEngine.mkImageData 2 1 [255; 128; 7; 255; 31; 32; 250; 255]%Z])
    <= 1.
Proof.
  apply (X19_temperature_and_saturation_range
           [VideoEngine.mkImageData 2 1 [255; 128; 7; 255; 31; 32; 250; 255]%Z]).
  - discriminate.
  - apply Forall_cons; [|apply Forall_nil].
    repeat split; repeat (apply Forall_cons; [cbn; lia|]); apply Forall_nil.
Defined.

(** ** Motion and brightness of a clip *)

Module SpreadFacts.
Import VideoEngine.
Local Open Scope R_scope.

Lemma squares_fold_nonneg (mean : R) (values : list R) :
  forall sum : R,
    0 <= sum ->
    0 <= fold_left (fun sum val => sum + (val - mean) ^ 2) values sum.
Proof.
  induction values as [|v l IH]; intros sum Hs; cbn [fold_left]; [exact Hs|].
  apply IH. pose proof (pow2_ge_0 (v - mean)). lra.
Qed.

Lemma computeVariance_nonneg (values : list R) : 0 <= computeVariance values.
Proof.
  unfold computeVariance. cbv zeta. unfold Rdiv at 2.
  apply Rmult_le_pos; [apply squares_fold_nonneg; lra|].
  destruct values as [|v l].
  - cbn [length INR]. rewrite Rinv_0. lra.
  - left. apply Rinv_0_lt_compat. apply lt_0_INR. cbn [length]. lia.
Qed.

(** [Math.max(0, 1 - variance)] is a number between 0 and 1. *)
Lemma consistency_range (values : list R) :
  0 <= Rmax 0 (1 - computeVariance values) <= 1.
Proof.
  pose proof (computeVariance_nonneg values). split.
  - apply Rmax_l.
  - apply Rmax_lub; lra.
Qed.

Lemma squares_fold_constant (v : R) (n : nat) :
  fold_left (fun sum val => sum + (val - v) ^ 2) (repeat v n) 0 = 0.
Proof.
  induction n as [|n IH]; cbn [repeat fold_left]; [reflexivity|].
  replace (0 + (v - v) ^ 2) with 0 by ring. exact IH.
Qed.

Lemma sum_fold_constant (v : R) (n : nat) :
  forall sum : R,
    fold_left (fun sum val => sum + val) (repeat v n) sum = sum + INR n * v.
Proof.
  induction n as [|n IH]; intro sum; cbn [repeat fold_left].
  - cbn [INR]. ring.
  - rewrite IH, S_INR. ring.
Qed.

(** Equal values have no variance. *)
Lemma computeVariance_constant (v : R) (n : nat) :
  computeVariance (repeat v (S n)) = 0.
Proof.
  unfold computeVariance. cbv zeta. rewrite repeat_length, sum_fold_constant.
  replace ((0 + INR (S n) * v) / INR (S n)) with v
    by (field; apply not_0_INR; discriminate).
  rewrite squares_fold_constant. unfold Rdiv. ring.
Qed.

End SpreadFacts.

Module MotionFacts.
Import VideoEngine.


End MotionFacts.



Module BrightnessFacts.
Import VideoEngine.

Lemma byte_Q (data : list Z) (i : Z) :
  Props.bytes data -> 0 <= inject_Z (get data i) <= 255.
Proof.
  intro H. pose proof (ColorFacts.get_byte data i H) as [H0 H1].
  split; [rewrite <- (Zle_Qle 0); exact H0|].
  change 255 with (inject_Z 255). rewrite <- Zle_Qle. exact H1.
Qed.

Lemma brightness_loop_range (data : list Z) (indices : list Z) :
  Props.bytes data ->
  forall (acc : Q * Z),
    0 <= fst acc <= inject_Z (snd acc) ->
    let res :=
      fold_left (fun acc i =>
                   let r := get data i in
                   let g := get data (i + 1) in
                   let b := get data (i + 2) in
                   let brightness :=
                     (((299 # 1000) * inject_Z r + (587 # 1000) * inject_Z g
                       + (114 # 1000) * inject_Z b) / 255)%Q in
                   ((fst acc + brightness)%Q, (snd acc + 1)%Z))
                indices acc in
    0 <= fst res <= inject_Z (snd res) /\
    snd res = (snd acc + Z.of_nat (length indices))%Z.
Proof.
  intro Hb. induction indices as [|i l IH]; intros [t c] Hacc;
    cbn [fold_left length fst snd] in *.
  - split; [exact Hacc|lia].
  - cbv zeta. destruct (IH ((t + ((299 # 1000) * inject_Z (get data i)
                               + (587 # 1000) * inject_Z (get data (i + 1))
                               + (114 # 1000) * inject_Z (get data (i + 2)))
                              / 255)%Q, (c + 1)%Z)) as [G1 G2].
    + cbn [fst snd]. rewrite inject_Z_plus. change (inject_Z 1) with 1.
      pose proof (byte_Q data i Hb). pose proof (byte_Q data (i + 1) Hb).
      pose proof (byte_Q data (i + 2) Hb).
      assert (E : forall x, x / 255 == x * (1 # 255)) by (intro x; reflexivity).
      rewrite E. split; Lqa.lra.
    + split; [exact G1|]. cbn [fst snd] in G2. lia.
Qed.

Lemma computeFrameBrightness_range (frame : ImageData) :
  Props.bytes (data frame) -> data frame <> [] ->
  0 <= computeFrameBrightness frame <= 1.
Proof.
  intros Hb Hne. unfold computeFrameBrightness. cbv zeta.
  pose proof (brightness_loop_range (data frame)
                (loop_indices (Z.of_nat (length (data frame))) 4) Hb (0, 0%Z))
    as G.
  cbv zeta in G.
  destruct (fold_left _ _ (0, 0%Z)) as [t c]. cbn [fst snd] in G.
  destruct G as [[G0 G1] G2]; [split; apply Qle_refl|].
  assert (Hc : (0 < c)%Z).
  { pose proof (DifferenceFacts.loop_indices_nonempty
                  (Z.of_nat (length (data frame))) 4).
    destruct (data frame); [congruence|]. cbn [length] in *. lia. }
  assert (Hq : 0 < inject_Z c) by (now rewrite <- (Zlt_Qlt 0)).
  split.
  - apply Qle_shift_div_l; [exact Hq|]. now rewrite Qmult_0_l.
  - apply Qle_shift_div_r; [exact Hq|]. now rewrite Qmult_1_l.
Qed.

Lemma push_all {A B : Type} (f : A -> B) (l : list A) (values : list B) :
  fold_left (fun values x => values ++ [f x]) l values = values ++ map f l.
Proof.
  revert values. induction l as [|x l IH]; intro values; cbn [fold_left map].
  - now rewrite app_nil_r.
  - rewrite IH, <- app_assoc. reflexivity.
Qed.

Lemma sum_range (values : list Q) :
  Forall (fun v => 0 <= v <= 1) values ->
  forall (sum : Q) (k : Z),
    0 <= sum <= inject_Z k ->
    0 <= fold_left (fun sum val => sum + val) values sum
      <= inject_Z (k + Z.of_nat (length values)).
Proof.
  intro H. induction H as [|v l Hv _ IH]; intros sum k Hs; cbn [fold_left length].
  - now rewrite Z.add_0_r.
  - replace (k + Z.of_nat (S (length l)))%Z
      with ((k + 1) + Z.of_nat (length l))%Z by lia.
    apply IH. rewrite inject_Z_plus. change (inject_Z 1) with 1.
    split; Lqa.lra.
Qed.

End BrightnessFacts.

(** X21.  For at least one frame, [analyzeBrightness] reports an average
    and a consistency between 0 and 1. *)
Theorem X21_brightness_analysis_ranges :
  forall frames : list VideoEngine.ImageData,
    frames <> [] -> Forall MoreProps.frame_ok frames ->
    let brightness := VideoEngine.analyzeBrightness frames in
    0 <= VideoEngine.brightness_average brightness <= 1 /\
    (0 <= VideoEngine.brightness_consistency brightness <= 1)%R.
Proof.
  intros frames Hne Hf brightness. unfold brightness, VideoEngine.analyzeBrightness.
  cbv zeta.
  cbn [VideoEngine.brightness_average VideoEngine.brightness_consistency].
  split; [|apply SpreadFacts.consistency_range].
  rewrite BrightnessFacts.push_all. cbn [app]. rewrite length_map.
  assert (Hv : Forall (fun v => 0 <= v <= 1)
                      (map VideoEngine.computeFrameBrightness frames)).
  { apply Forall_map. eapply Forall_impl; [|exact Hf].
    intros frame Hok. apply BrightnessFacts.computeFrameBrightness_range;
      [now apply FrameFacts.frame_ok_bytes|now apply FrameFacts.frame_ok_nonempty]. }
  pose proof (BrightnessFacts.sum_range _ Hv 0 0%Z
                (conj (Qle_refl 0) (Qle_refl 0))) as [G0 G1].
  rewrite length_map, Z.add_0_l in G1.
  assert (Hq : 0 < inject_Z (Z.of_nat (length frames))).
  { rewrite <- (Zlt_Qlt 0). destruct frames; [congruence|cbn [length]; lia]. }
  split.
  - apply Qle_shift_div_l; [exact Hq|]. now rewrite Qmult_0_l.
  - apply Qle_shift_div_r; [exact Hq|]. now rewrite Qmult_1_l.
Qed.

Lemma X21_brightness_analysis_ranges_witness :
  let brightness :=
    VideoEngine.analyzeBrightness
      [VideoEngine.mkImageData 1 1 [255; 255; 255; 255]%Z;
       VideoEngine.mkImageData 1 1 [0; 0; 0; 255]%Z] in
  0 <= VideoEngine.brightness_average brightness <= 1 /\
  (0 <= VideoEngine.brightness_consistency brightness <= 1)%R.
Proof.
  apply (X21_brightness_analysis_ranges
           [VideoEngine.mkImageData 1 1 [255; 255; 255; 255]%Z;
            VideoEngine.mkImageData 1 1 [0; 0; 0; 255]%Z]).
  - discriminate.
  - repeat (apply Forall_cons;
            [repeat split; repeat (apply Forall_cons; [cbn; lia|]);
             apply Forall_nil|]).
    apply Forall_nil.
Defined.

(** ** A clip that does not change *)

Module StillFacts.
Import VideoEngine.

Lemma motion_fold_still (frame : ImageData) (n : nat) :
  forall (l : list nat) (acc : R * Q * Q * list R),
    Forall (fun i => (1 <= i < n)%nat) l ->
    let res :=
      fold_left (fun acc i =>
          let '(totalMotion, horizontalMotion, verticalMotion, motionValues)
            := acc in
          let motion :=
            computeFrameDifference (frame_at (repeat frame n) (i - 1))
                                   (frame_at (repeat frame n) i) in
          let vectors :=
            computeOpticalFlow (frame_at (repeat frame n) (i - 1))
                               (frame_at (repeat frame n) i) in
          ((totalMotion + motion)%R,
           (horizontalMotion + Qabs (fst vectors))%Q,
           (verticalMotion + Qabs (snd vectors))%Q,
           motionValues ++ [motion])) l acc in
    fst (fst (fst res)) = fst (fst (fst acc)) /\
    snd res = snd acc ++ repeat 0%R (length l).
Proof.
  induction l as [|i l IH]; intros [[[t hm] vm] mv] Hl; cbn [fold_left length repeat].
  - split; [reflexivity|]. now rewrite app_nil_r.
  - inversion Hl as [|? ? Hi Hl']; subst.
    rewrite !SolidFrameFacts.frame_at_repeat by lia.
    rewrite SolidFrameFacts.computeFrameDifference_same.
    destruct (IH ((t + 0)%R,
                  (hm + Qabs (fst (computeOpticalFlow frame frame)))%Q,
                  (vm + Qabs (snd (computeOpticalFlow frame frame)))%Q,
                  mv ++ [0%R]) Hl') as [G1 G2].
    cbv zeta in G1, G2 |- *. rewrite G1, G2. cbn [fst snd].
    split; [ring|]. now rewrite <- app_assoc.
Qed.

End StillFacts.

(** X22.  A clip made of any number of copies of one frame has no motion:
    [analyzeMotion] reports intensity 0, a static direction and
    classification and consistency 1; and [analyzeBrightness] reports
    consistency 1 for it when it has a frame at all. *)
Theorem X22_still_clip :
  forall (frame : VideoEngine.ImageData) (n : nat),
    MoreProps.frame_ok frame ->
    let frames := repeat frame n in
    VideoEngine.analyzeMotion frames
    = VideoEngine.mkMotionAnalysis 0 VideoEngine.dir_static 1
                                   VideoEngine.motion_static /\
    ((0 < n)%nat ->
     VideoEngine.brightness_consistency (VideoEngine.analyzeBrightness frames)
     = 1%R).
Proof.
  intros frame n _ frames. unfold frames. split.
  - unfold VideoEngine.analyzeMotion. rewrite repeat_length.
    destruct (n <? 2)%nat eqn:E; [reflexivity|]. apply Nat.ltb_ge in E.
    pose proof (StillFacts.motion_fold_still frame n (seq 1 (n - 1))
                  (0%R, 0, 0, [])) as G.
    cbv zeta in G |- *.
    destruct (fold_left _ (seq 1 (n - 1)) _) as [[[t hm] vm] mv].
    cbn [fst snd app] in G. rewrite length_seq in G.
    destruct G as [-> ->].
    { apply Forall_forall. intros i Hi. apply in_seq in Hi. lia. }
    replace (0 / INR (n - 1))%R with 0%R by (unfold Rdiv; ring).
    destruct (Rlt_dec 0 0.1) as [_|H]; [|exfalso; lra].
    replace (n - 1)%nat with (S (n - 2)) by lia.
    rewrite SpreadFacts.computeVariance_constant.
    replace (1 - 0)%R with 1%R by ring. rewrite Rmax_right by lra. reflexivity.
  - intro Hn. unfold VideoEngine.analyzeBrightness. cbv zeta.
    cbn [VideoEngine.brightness_consistency].
    rewrite BrightnessFacts.push_all. cbn [app].
    rewrite map_repeat, map_repeat.
    replace n with (S (n - 1)) by lia.
    rewrite SpreadFacts.computeVariance_constant.
    replace (1 - 0)%R with 1%R by ring. now rewrite Rmax_right by lra.
Qed.

Lemma X22_still_clip_witness :
  VideoEngine.analyzeMotion
    (repeat (VideoEngine.mkImageData 1 1 [10; 20; 30; 255]%Z) 7)
  = VideoEngine.mkMotionAnalysis 0 VideoEngine.dir_static 1
                                 VideoEngine.motion_static /\
  ((0 < 7)%nat ->
   VideoEngine.brightness_consistency
     (VideoEngine.analyzeBrightness
        (repeat (VideoEngine.mkImageData 1 1 [10; 20; 30; 255]%Z) 7))
   = 1%R).
Proof.
  apply (X22_still_clip (VideoEngine.mkImageData 1 1 [10; 20; 30; 255]%Z) 7).
  repeat split; repeat (apply Forall_cons; [cbn; lia|]); apply Forall_nil.
Defined.

(** ** Sharpness and noise *)

Module QualityFacts.
Import VideoEngine.

(** The shape shared by the loops of [computeSharpness] and
    [computeNoise]: a sum of per-pixel values and a count of the pixels. *)
Lemma mean_loop_range (f : Z -> Q) (M : Q) (indices : list Z) :
  (forall i, 0 <= f i <= M) ->
  forall acc : Q * Z,
    (0 <= snd acc)%Z -> 0 <= fst acc <= M * inject_Z (snd acc) ->
    let res :=
      fold_left (fun acc idx => ((fst acc + f idx)%Q, (snd acc + 1)%Z))
                indices acc in
    (0 <= snd res)%Z /\ 0 <= fst res <= M * inject_Z (snd res).
Proof.
  intro Hf. induction indices as [|i l IH]; intros [t c] Hc Ht;
    cbn [fold_left fst snd] in *; [now split|].
  apply IH; cbn [fst snd]; [lia|].
  rewrite inject_Z_plus. change (inject_Z 1) with 1.
  pose proof (Hf i). split; Lqa.nra.
Qed.

Lemma mean_range (t : Q) (c : Z) (M : Q) :
  0 <= M -> (0 <= c)%Z -> 0 <= t <= M * inject_Z c ->
  0 <= (if (0 <? c)%Z then t / inject_Z c else 0) <= M.
Proof.
  intros HM Hc Ht. destruct (0 <? c)%Z eqn:E; [|split; [apply Qle_refl|exact HM]].
  apply Z.ltb_lt in E. assert (Hq : 0 < inject_Z c) by (now rewrite <- (Zlt_Qlt 0)).
  split.
  - apply Qle_shift_div_l; [exact Hq|]. rewrite Qmult_0_l. apply Ht.
  - apply Qle_shift_div_r; [exact Hq|]. apply Ht.
Qed.

Lemma gray_range (data : list Z) (i : Z) :
  Props.bytes data ->
  0 <= inject_Z (get data i + get data (i + 1) + get data (i + 2)) / 3 <= 255.
Proof.
  intro Hb.
  pose proof (BrightnessFacts.byte_Q data i Hb).
  pose proof (BrightnessFacts.byte_Q data (i + 1) Hb).
  pose proof (BrightnessFacts.byte_Q data (i + 2) Hb).
  rewrite !inject_Z_plus.
  assert (E : forall x, x / 3 == x * (1 # 3)) by (intro x; reflexivity).
  rewrite E. split; Lqa.lra.
Qed.

Lemma computeSharpness_range (frame : ImageData) :
  Props.bytes (data frame) -> 0 <= computeSharpness frame <= 4.
Proof.
  intro Hb. unfold computeSharpness. cbv zeta.
  pose proof (mean_loop_range
                (fun idx =>
                   Qabs (4 * (inject_Z (get (data frame) idx
                                        + get (data frame) (idx + 1)
                                        + get (data frame) (idx + 2)) / 3)
                         - inject_Z (get (data frame) (idx - width frame * 4)
                                     + get (data frame) (idx - width frame * 4 + 1)
                                     + get (data frame) (idx - width frame * 4 + 2))
                           / 3
                         - inject_Z (get (data frame) (idx + width frame * 4)
                                     + get (data frame) (idx + width frame * 4 + 1)
                                     + get (data frame) (idx + width frame * 4 + 2))
                           / 3
                         - inject_Z (get (data frame) (idx - 4)
                                     + get (data frame) (idx - 4 + 1)
                                     + get (data frame) (idx - 4 + 2)) / 3
                         - inject_Z (get (data frame) (idx + 4)
                                     + get (data frame) (idx + 4 + 1)
                                     + get (data frame) (idx + 4 + 2)) / 3)
                   / 255)
                4 (interior_pixels (width frame) (height frame))) as G.
  cbv beta in G.
  assert (Hf : forall i,
             0 <= Qabs (4 * (inject_Z (get (data frame) i
                                        + get (data frame) (i + 1)
                                        + get (data frame) (i + 2)) / 3)
                         - inject_Z (get (data frame) (i - width frame * 4)
                                     + get (data frame) (i - width frame * 4 + 1)
                                     + get (data frame) (i - width frame * 4 + 2))
                           / 3
                         - inject_Z (get (data frame) (i + width frame * 4)
                                     + get (data frame) (i + width frame * 4 + 1)
                                     + get (data frame) (i + width frame * 4 + 2))
                           / 3
                         - inject_Z (get (data frame) (i - 4)
                                     + get (data frame) (i - 4 + 1)
                                     + get (data frame) (i - 4 + 2)) / 3
                         - inject_Z (get (data frame) (i + 4)
                                     + get (data frame) (i + 4 + 1)
                                     + get (data frame) (i + 4 + 2)) / 3)
                  / 255 <= 4).
  { intro i.
    pose proof (gray_range (data frame) i Hb) as Hc.
    pose proof (gray_range (data frame) (i - width frame * 4) Hb) as Ht.
    pose proof (gray_range (data frame) (i + width frame * 4) Hb) as Hbt.
    pose proof (gray_range (data frame) (i - 4) Hb) as Hl.
    pose proof (gray_range (data frame) (i + 4) Hb) as Hr.
    set (c := _ / 3) in Hc |- *. set (t := _ / 3) in Ht |- *.
    set (bt := _ / 3) in Hbt |- *. set (l := _ / 3) in Hl |- *.
    set (r := _ / 3) in Hr |- *.
    split.
    - apply Qle_shift_div_l; [reflexivity|]. rewrite Qmult_0_l. apply Qabs_nonneg.
    - apply Qle_shift_div_r; [reflexivity|]. apply Qabs_Qle_condition.
      split; Lqa.lra. }
  specialize (G Hf (0, 0%Z) (Z.le_refl 0)).
  cbn [fst snd] in G.
  destruct (fold_left _ _ (0, 0%Z)) as [t c]. cbn [fst snd] in G.
  destruct G as [Gc Gt]; [split; [apply Qle_refl|discriminate]|].
  apply mean_range; [discriminate|exact Gc|exact Gt].
Qed.

Lemma computeNoise_range (frame : ImageData) :
  Props.bytes (data frame) -> 0 <= computeNoise frame <= 1.
Proof.
  intro Hb. unfold computeNoise. cbv zeta.
  pose proof (mean_loop_range
                (fun idx =>
                   Qabs (inject_Z (get (data frame) idx)
                         - inject_Z (get (data frame) (idx - 4)
                                     + get (data frame) (idx + 4)
                                     + get (data frame) (idx - width frame * 4)
                                     + get (data frame) (idx + width frame * 4))
                           / 4)
                   / 255)
                1 (interior_pixels (width frame) (height frame))) as G.
  cbv beta in G.
  assert (Hf : forall i,
             0 <= Qabs (inject_Z (get (data frame) i)
                         - inject_Z (get (data frame) (i - 4)
                                     + get (data frame) (i + 4)
                                     + get (data frame) (i - width frame * 4)
                                     + get (data frame) (i + width frame * 4))
                           / 4)
                  / 255 <= 1).
  { intro i.
    pose proof (BrightnessFacts.byte_Q (data frame) i Hb).
    pose proof (BrightnessFacts.byte_Q (data frame) (i - 4) Hb).
    pose proof (BrightnessFacts.byte_Q (data frame) (i + 4) Hb).
    pose proof (BrightnessFacts.byte_Q (data frame) (i - width frame * 4) Hb).
    pose proof (BrightnessFacts.byte_Q (data frame) (i + width frame * 4) Hb).
    rewrite !inject_Z_plus.
    assert (E : forall x, x / 4 == x * (1 # 4)) by (intro x; reflexivity).
    rewrite E.
    split.
    - apply Qle_shift_div_l; [reflexivity|]. rewrite Qmult_0_l. apply Qabs_nonneg.
    - apply Qle_shift_div_r; [reflexivity|]. apply Qabs_Qle_condition.
      split; Lqa.lra. }
  specialize (G Hf (0, 0%Z) (Z.le_refl 0)).
  cbn [fst snd] in G.
  destruct (fold_left _ _ (0, 0%Z)) as [t c]. cbn [fst snd] in G.
  destruct G as [Gc Gt]; [split; [apply Qle_refl|discriminate]|].
  apply mean_range; [discriminate|exact Gc|exact Gt].
Qed.

(** A frame no more than two pixels wide or high has no interior pixel. *)
Lemma interior_pixels_thin (width height : Z) :
  (width <= 2 \/ height <= 2)%Z -> interior_pixels width height = [].
Proof.
  intros [H|H]; unfold interior_pixels.
  - replace (Z.to_nat (width - 2)) with 0%nat by lia. cbn [seq map].
    induction (map _ (seq 0 (Z.to_nat (height - 2)))) as [|y l IH];
      [reflexivity|exact IH].
  - replace (Z.to_nat (height - 2)) with 0%nat by lia. reflexivity.
Qed.

End QualityFacts.

(** X23.  For every frame the noise estimate lies between 0 and 1, and
    the sharpness estimate between 0 and 4: the Laplacian is divided by 255
    only, so the sharpness is not confined to [0, 1].  A frame no more than
    two pixels wide or high has no interior pixel, and both estimates
    are 0. *)
Theorem X23_sharpness_and_noise_range :
  forall frame : VideoEngine.ImageData,
    MoreProps.frame_ok frame ->
    0 <= VideoEngine.computeNoise frame <= 1 /\
    0 <= VideoEngine.computeSharpness frame <= 4 /\
    ((VideoEngine.width frame <= 2 \/ VideoEngine.height frame <= 2)%Z ->
     VideoEngine.computeNoise frame = 0 /\
     VideoEngine.computeSharpness frame = 0).
Proof.
  intros frame Hok. pose proof (FrameFacts.frame_ok_bytes frame Hok) as Hb.
  split; [now apply QualityFacts.computeNoise_range|].
  split; [now apply QualityFacts.computeSharpness_range|].
  intro Hthin. unfold VideoEngine.computeNoise, VideoEngine.computeSharpness.
  rewrite (QualityFacts.interior_pixels_thin _ _ Hthin). split; reflexivity.
Qed.

Lemma X23_sharpness_and_noise_range_witness :
  let spike :=
    VideoEngine.mkImageData 3 3
      [0; 0; 0; 255;  0; 0; 0; 255;  0; 0; 0; 255;
       0; 0; 0; 255;  255; 255; 255; 255;  0; 0; 0; 255;
       0; 0; 0; 255;  0; 0; 0; 255;  0; 0; 0; 255]%Z in
  0 <= VideoEngine.computeNoise spike <= 1 /\
  0 <= VideoEngine.computeSharpness spike <= 4 /\
  ((VideoEngine.width spike <= 2 \/ VideoEngine.height spike <= 2)%Z ->
   VideoEngine.computeNoise spike = 0 /\
   VideoEngine.computeSharpness spike = 0).
Proof.
  apply (X23_sharpness_and_noise_range
           (VideoEngine.mkImageData 3 3
              [0; 0; 0; 255;  0; 0; 0; 255;  0; 0; 0; 255;
               0; 0; 0; 255;  255; 255; 255; 255;  0; 0; 0; 255;
               0; 0; 0; 255;  0; 0; 0; 255;  0; 0; 0; 255]%Z)).
  repeat split; repeat (apply Forall_cons; [cbn; lia|]); apply Forall_nil.
Defined.

(** The upper bound 4 of the sharpness is reached: one white pixel in the
    middle of a black 3 x 3 frame. *)
Example sharpness_of_a_spike :
  VideoEngine.computeSharpness
    (VideoEngine.mkImageData 3 3
       [0; 0; 0; 255;  0; 0; 0; 255;  0; 0; 0; 255;
        0; 0; 0; 255;  255; 255; 255; 255;  0; 0; 0; 255;
        0; 0; 0; 255;  0; 0; 0; 255;  0; 0; 0; 255]%Z) == 4.
Proof. vm_compute. reflexivity. Qed.

(** ** Block matching *)

Module MatchFacts.
Import VideoEngine MoreProps.

Lemma best_so_far_ext (err : Z -> Z -> Q) (seen seen' : Z -> Z -> Prop)
    (acc : Z * Z * option Q) :
  (forall dx dy, seen dx dy <-> seen' dx dy) ->
  best_so_far err seen acc -> best_so_far err seen' acc.
Proof.
  intros E. destruct acc as [[bx by_] [e|]]; cbn [best_so_far].
  - intros (H1 & H2 & H3). repeat split; [now apply E|exact H2|].
    intros dx dy H. apply H3. now apply E.
  - intros (H1 & H2 & H3). repeat split; [|exact H2|exact H3].
    intros dx dy H. apply (H1 dx dy). now apply E.
Qed.

(** One comparison of the search. *)
Lemma try_shift (err : Z -> Z -> Q) (seen : Z -> Z -> Prop)
    (acc : Z * Z * option Q) (dx dy : Z) :
  best_so_far err seen acc ->
  best_so_far err (fun dx' dy' => seen dx' dy' \/ (dx' = dx /\ dy' = dy))
    (if lt_inf Qltb (err dx dy) (snd acc) then (dx, dy, Some (err dx dy)) else acc).
Proof.
  destruct acc as [[bx by_] [e|]]; cbn [best_so_far snd lt_inf].
  - intros (H1 & H2 & H3). destruct (Qltb (err dx dy) e) eqn:E.
    + apply Qltb_lt in E. cbn [best_so_far]. repeat split; [now right|].
      intros dx' dy' [H|[-> ->]]; [|apply Qle_refl].
      apply Qle_trans with e; [now apply Qlt_le_weak|now apply H3].
    + assert (Hle : (e <= err dx dy)%Q).
      { apply Qnot_lt_le. intro H. apply Qltb_lt in H. congruence. }
      cbn [best_so_far]. repeat split; [now left|exact H2|].
      intros dx' dy' [H|[-> ->]]; [now apply H3|exact Hle].
  - intros (H1 & _ & _). cbn [best_so_far]. repeat split; [now right|].
    intros dx' dy' [H|[-> ->]]; [now apply H1 in H|apply Qle_refl].
Qed.

Lemma scan_row (err : Z -> Z -> Q) (dy : Z) (shifts : list Z) :
  forall (seen : Z -> Z -> Prop) (acc : Z * Z * option Q),
    best_so_far err seen acc ->
    best_so_far err (fun dx' dy' => seen dx' dy' \/ (In dx' shifts /\ dy' = dy))
      (fold_left (fun acc dx =>
                    if lt_inf Qltb (err dx dy) (snd acc)
                    then (dx, dy, Some (err dx dy)) else acc) shifts acc).
Proof.
  induction shifts as [|dx l IH]; intros seen acc H; cbn [fold_left].
  - eapply best_so_far_ext; [|exact H]. intros dx' dy'. cbn [In]. tauto.
  - eapply best_so_far_ext; [|apply IH, try_shift, H].
    intros dx' dy'. cbn [In]. split.
    + intros [[H1|[-> ->]]|[H1 ->]]; auto.
    + intros [H1|[[<-|H1] ->]]; auto.
Qed.

Lemma scan_rows (err : Z -> Z -> Q) (shifts rows : list Z) :
  forall (seen : Z -> Z -> Prop) (acc : Z * Z * option Q),
    best_so_far err seen acc ->
    best_so_far err (fun dx' dy' => seen dx' dy' \/ (In dx' shifts /\ In dy' rows))
      (fold_left (fun acc dy =>
                    fold_left (fun acc dx =>
                                 if lt_inf Qltb (err dx dy) (snd acc)
                                 then (dx, dy, Some (err dx dy)) else acc)
                              shifts acc) rows acc).
Proof.
  induction rows as [|dy l IH]; intros seen acc H; cbn [fold_left].
  - eapply best_so_far_ext; [|exact H]. intros dx' dy'. cbn [In]. tauto.
  - eapply best_so_far_ext; [|apply IH, scan_row, H].
    intros dx' dy'. cbn [In]. split.
    + intros [[H1|[H1 ->]]|[H1 H2]]; auto.
    + intros [H1|[H1 [<-|H2]]]; auto.
Qed.

Lemma in_shifts (searchRadius d : Z) :
  (0 <= searchRadius)%Z ->
  In d (map (fun j => (Z.of_nat j - searchRadius)%Z)
            (seq 0 (Z.to_nat (2 * searchRadius + 1))))
  <-> (- searchRadius <= d <= searchRadius)%Z.
Proof.
  intro Hr. rewrite in_map_iff. split.
  - intros (j & <- & Hj). apply in_seq in Hj. lia.
  - intro Hd. exists (Z.to_nat (d + searchRadius)). split; [lia|].
    apply in_seq. lia.
Qed.

(** The result of [findBestMatch]: a shift within the search radius whose
    block error no other shift within the radius beats. *)
Lemma findBestMatch_spec (frame1 frame2 : ImageData)
    (x y blockSize searchRadius : Z) :
  (0 <= searchRadius)%Z ->
  let best := findBestMatch frame1 frame2 x y blockSize searchRadius in
  (- searchRadius <= fst best <= searchRadius)%Z /\
  (- searchRadius <= snd best <= searchRadius)%Z /\
  forall dx dy : Z,
    (- searchRadius <= dx <= searchRadius)%Z ->
    (- searchRadius <= dy <= searchRadius)%Z ->
    (computeBlockError frame1 frame2 x y (x + fst best) (y + snd best) blockSize
     <= computeBlockError frame1 frame2 x y (x + dx) (y + dy) blockSize)%Q.
Proof.
  intros Hr best. unfold best, findBestMatch. cbv zeta.
  set (shifts := map _ (seq 0 _)).
  pose proof (scan_rows
                (fun dx dy => computeBlockError frame1 frame2 x y (x + dx) (y + dy)
                                                blockSize)
                shifts shifts (fun _ _ => False) (0%Z, 0%Z, None)) as G.
  cbv beta in G.
  destruct (fold_left _ shifts (0%Z, 0%Z, None)) as [[bx by_] [e|]];
    cbn [best_so_far fst snd] in G |- *.
  - destruct G as ([[]|[Hx Hy]] & He & Hmin); [repeat split; tauto|].
    apply in_shifts in Hx, Hy; try exact Hr.
    split; [exact Hx|]. split; [exact Hy|].
    intros dx dy Hdx Hdy. rewrite <- He. apply Hmin. right.
    split; apply in_shifts; assumption.
  - destruct G as (Hnone & _ & _); [repeat split; tauto|].
    exfalso. apply (Hnone 0%Z 0%Z). right. split; apply in_shifts; lia.
Qed.

End MatchFacts.

(** X24.  For two frames of one video, [findBestMatch] returns a shift
    within the search radius, and the block error at that shift is the
    least among all shifts within the radius. *)
Theorem X24_best_match_minimises_block_error :
  forall (frame1 frame2 : VideoEngine.ImageData) (x y blockSize searchRadius : Z),
    MoreProps.frame_ok frame1 -> MoreProps.frame_ok frame2 ->
    MoreProps.same_size frame1 frame2 ->
    (0 <= searchRadius)%Z ->
    let best :=
      VideoEngine.findBestMatch frame1 frame2 x y blockSize searchRadius in
    (- searchRadius <= fst best <= searchRadius)%Z /\
    (- searchRadius <= snd best <= searchRadius)%Z /\
    forall dx dy : Z,
      (- searchRadius <= dx <= searchRadius)%Z ->
      (- searchRadius <= dy <= searchRadius)%Z ->
      (VideoEngine.computeBlockError frame1 frame2 x y
         (x + fst best) (y + snd best) blockSize
       <= VideoEngine.computeBlockError frame1 frame2 x y
            (x + dx) (y + dy) blockSize)%Q.
Proof.
  intros frame1 frame2 x y blockSize searchRadius _ _ _ Hr.
  now apply MatchFacts.findBestMatch_spec.
Qed.

Lemma X24_best_match_minimises_block_error_witness :
  let frame1 := VideoEngine.mkImageData 1 1 [255; 255; 255; 255]%Z in
  let frame2 := VideoEngine.mkImageData 1 1 [0; 0; 0; 255]%Z in
  let best := VideoEngine.findBestMatch frame1 frame2 0 0 16 8 in
  (- 8 <= fst best <= 8)%Z /\ (- 8 <= snd best <= 8)%Z.
Proof.
  pose proof (X24_best_match_minimises_block_error
                (VideoEngine.mkImageData 1 1 [255; 255; 255; 255]%Z)
                (VideoEngine.mkImageData 1 1 [0; 0; 0; 255]%Z) 0 0 16 8) as H.
  cbv zeta in H |- *.
  destruct H as (H1 & H2 & _).
  - repeat split; repeat (apply Forall_cons; [cbn; lia|]); apply Forall_nil.
  - repeat split; repeat (apply Forall_cons; [cbn; lia|]); apply Forall_nil.
  - split; reflexivity.
  - discriminate.
  - split; [exact H1|exact H2].
Defined.

Module FlowFacts.
Import VideoEngine.
Local Open Scope Z_scope.

Section Blocks.
Variable best : Z -> Z -> Z * Z.
Hypothesis best_range :
  forall x y, - (8) <= fst (best x y) <= 8 /\ - (8) <= snd (best x y) <= 8.

Lemma flow_row (y : Z) (xs : list Z) :
  forall acc : Z * Z * Z,
    (let '(h, v, n) := acc in 0 <= n /\ Z.abs h <= 8 * n /\ Z.abs v <= 8 * n) ->
    let '(h, v, n) :=
      fold_left (fun acc x =>
        let '(dx, dy) := best x y in
        let '(totalHorizontal, totalVertical, blockCount) := acc in
        (totalHorizontal + dx, totalVertical + dy, blockCount + 1)) xs acc in
    0 <= n /\ Z.abs h <= 8 * n /\ Z.abs v <= 8 * n.
Proof.
  induction xs as [|x l IH]; intros [[h v] n] H; cbn [fold_left]; [exact H|].
  pose proof (best_range x y) as [Hx Hy].
  destruct (best x y) as [dx dy].
  cbn [fst snd] in Hx, Hy. apply IH. lia.
Qed.

Lemma flow_rows (xs ys : list Z) :
  forall acc : Z * Z * Z,
    (let '(h, v, n) := acc in 0 <= n /\ Z.abs h <= 8 * n /\ Z.abs v <= 8 * n) ->
    let '(h, v, n) :=
      fold_left (fun acc y =>
        fold_left (fun acc x =>
          let '(dx, dy) := best x y in
          let '(totalHorizontal, totalVertical, blockCount) := acc in
          (totalHorizontal + dx, totalVertical + dy, blockCount + 1)) xs acc)
        ys acc in
    0 <= n /\ Z.abs h <= 8 * n /\ Z.abs v <= 8 * n.
Proof.
  induction ys as [|y l IH]; intros acc H; cbn [fold_left].
  - destruct acc as [[h v] n]. exact H.
  - apply IH. now apply flow_row.
Qed.

End Blocks.

Lemma mean_shift_range (total n : Z) :
  0 <= n -> Z.abs total <= 8 * n ->
  (- (8) <= (if 0 <? n then inject_Z total / inject_Z n else 0) <= 8)%Q.
Proof.
  intros Hn Ht. destruct (0 <? n) eqn:E; [|split; discriminate].
  apply Z.ltb_lt in E.
  assert (Hq : (0 < inject_Z n)%Q) by (now rewrite <- (Zlt_Qlt 0)).
  split.
  - apply Qle_shift_div_l; [exact Hq|].
    change (- (8))%Q with (inject_Z (- 8)). rewrite <- inject_Z_mult, <- Zle_Qle. lia.
  - apply Qle_shift_div_r; [exact Hq|].
    change 8%Q with (inject_Z 8). rewrite <- inject_Z_mult, <- Zle_Qle. lia.
Qed.

Lemma no_block (limit : Z) : limit <= 0 -> loop_indices limit 16 = [].
Proof.
  intro H. unfold loop_indices. now replace (Z.to_nat limit) with 0%nat by lia.
Qed.

Lemma computeOpticalFlow_spec (frame1 frame2 : ImageData) :
  let flow := computeOpticalFlow frame1 frame2 in
  (- (8) <= fst flow <= 8)%Q /\ (- (8) <= snd flow <= 8)%Q /\
  (width frame1 <= 16 \/ height frame1 <= 16 -> flow = (0%Q, 0%Q)).
Proof.
  unfold computeOpticalFlow. cbv zeta.
  pose proof (flow_rows (fun x y => findBestMatch frame1 frame2 x y 16 8)
                (fun x y =>
                   let H := MatchFacts.findBestMatch_spec frame1 frame2 x y 16 8
                              ltac:(lia) in
                   conj (proj1 H) (proj1 (proj2 H)))
                (loop_indices (width frame1 - 16) 16)
                (loop_indices (height frame1 - 16) 16) (0, 0, 0)) as G.
  cbv beta in G.
  split; [|split].
  - destruct (fold_left _ _ (0, 0, 0)) as [[h v] n]. cbn [fst].
    destruct G as (Hn & Hh & Hv); [cbn; lia|]. now apply mean_shift_range.
  - destruct (fold_left _ _ (0, 0, 0)) as [[h v] n]. cbn [snd].
    destruct G as (Hn & Hh & Hv); [cbn; lia|]. now apply mean_shift_range.
  - clear G. intros [H|H].
    + rewrite (no_block (width frame1 - 16)) by lia. cbn [fold_left].
      induction (loop_indices (height frame1 - 16) 16) as [|y l IH];
        [reflexivity|exact IH].
    + rewrite (no_block (height frame1 - 16)) by lia. reflexivity.
Qed.

End FlowFacts.

(** X25.  For two frames of one video, both components of the optical
    flow lie between -8 and 8 (the search radius), and a frame no more than
    16 pixels wide or high holds no block, so that its flow is (0, 0). *)
Theorem X25_optical_flow_range :
  forall frame1 frame2 : VideoEngine.ImageData,
    MoreProps.frame_ok frame1 -> MoreProps.frame_ok frame2 ->
    MoreProps.same_size frame1 frame2 ->
    let flow := VideoEngine.computeOpticalFlow frame1 frame2 in
    (- (8) <= fst flow <= 8)%Q /\ (- (8) <= snd flow <= 8)%Q /\
    ((VideoEngine.width frame1 <= 16 \/ VideoEngine.height frame1 <= 16)%Z ->
     flow = (0%Q, 0%Q)).
Proof.
  intros frame1 frame2 _ _ _. apply FlowFacts.computeOpticalFlow_spec.
Qed.

Lemma X25_optical_flow_range_witness :
  let flow :=
    VideoEngine.computeOpticalFlow
      (VideoEngine.mkImageData 1 1 [255; 255; 255; 255]%Z)
      (VideoEngine.mkImageData 1 1 [0; 0; 0; 255]%Z) in
  (- (8) <= fst flow <= 8)%Q /\ (- (8) <= snd flow <= 8)%Q /\
  ((1 <= 16 \/ 1 <= 16)%Z -> flow = (0%Q, 0%Q)).
Proof.
  apply (X25_optical_flow_range
           (VideoEngine.mkImageData 1 1 [255; 255; 255; 255]%Z)
           (VideoEngine.mkImageData 1 1 [0; 0; 0; 255]%Z)).
  - repeat split; repeat (apply Forall_cons; [cbn; lia|]); apply Forall_nil.
  - repeat split; repeat (apply Forall_cons; [cbn; lia|]); apply Forall_nil.
  - split; reflexivity.
Defined.

(** ** Every request is served *)

Module ServiceFacts.
Import Coordinator Props MoreProps.
Section Queue.
Context {Request : Type}.

Lemma settled_app (l1 l2 : list (Event Request)) :
  settled (l1 ++ l2) = settled l1 ++ settled l2.
Proof. apply flat_map_app. Qed.

(** The analyses started are those settled, then the one running. *)
Lemma started_step (e : Engine Request) (a : Action Request) :
  queue_invariant e ->
  started (log e) = settled (log e) ++ running e ->
  started (log (step e a)) = settled (log (step e a)) ++ running (step e a).
Proof.
  intros [[(Hp & Hr & Hq & _)|(Hp & r0 & Hr & _)] _] Hs; destruct a as [r|i];
    cbn [step]; unfold analyze, settle, processQueue;
    cbn [isProcessing processingQueue running log]; rewrite ?Hp, ?Hr, ?Hq in *;
    cbn [orb app length Nat.eqb].
  - cbn [running log]. rewrite !CoordinatorFacts.started_app, !settled_app, Hs.
    cbn. now rewrite !app_nil_r.
  - destruct i; cbn [nth_error]; now rewrite Hr.
  - cbn [running log]. rewrite CoordinatorFacts.started_app, settled_app, Hs.
    cbn. now rewrite !app_nil_r.
  - destruct i as [|i]; cbn [nth_error remove_at].
    + destruct (processingQueue e) as [|r1 rest]; cbn [length Nat.ltb Nat.leb].
      * cbn [running log]. rewrite CoordinatorFacts.started_app, settled_app, Hs.
        cbn. now rewrite !app_nil_r.
      * cbn [isProcessing processingQueue running log orb length Nat.eqb app].
        rewrite !CoordinatorFacts.started_app, !settled_app, Hs.
        cbn. now rewrite !app_nil_r, <- app_assoc.
    + destruct i; cbn [nth_error]; now rewrite Hr.
Qed.

Lemma started_run (actions : list (Action Request)) :
  started (log (run actions))
  = settled (log (run actions)) ++ running (run actions).
Proof.
  induction actions as [|a actions IH] using rev_ind; [reflexivity|].
  rewrite CoordinatorFacts.run_snoc.
  apply started_step; [apply CoordinatorFacts.invariant_run|exact IH].
Qed.

(** With one analysis running and [q] waiting, [1 + length q] settlements
    serve them all, in this order. *)
Lemma drain (q : list Request) :
  forall (r : Request) (l : list (Event Request)),
    let e' := settle_all (S (length q)) (mkEngine q true [r] l) in
    isProcessing e' = false /\ running e' = [] /\ processingQueue e' = [] /\
    settled (log e') = settled l ++ r :: q /\
    called (log e') = called l.
Proof.
  induction q as [|r1 rest IH]; intros r l.
  - unfold settle_all. cbn [length repeat fold_left step].
    change (settle 0 (mkEngine [] true [r] l))
      with (mkEngine [] false [] (l ++ [analysis_settled r])).
    cbn [isProcessing running processingQueue log].
    rewrite settled_app, CoordinatorFacts.called_app. cbn.
    now rewrite app_nil_r.
  - unfold settle_all. cbn [length repeat fold_left].
    change (step (mkEngine (r1 :: rest) true [r] l) (do_settle 0))
      with (mkEngine rest true [r1]
                     ((l ++ [analysis_settled r]) ++ [analysis_started r1])).
    specialize (IH r1 ((l ++ [analysis_settled r]) ++ [analysis_started r1])).
    unfold settle_all in IH. cbn [length repeat fold_left] in IH.
    destruct IH as (H1 & H2 & H3 & H4 & H5).
    repeat split; try assumption.
    + rewrite H4, !settled_app. cbn. now rewrite app_nil_r, <- app_assoc.
    + rewrite H5, !CoordinatorFacts.called_app. cbn. now rewrite !app_nil_r.
Qed.

End Queue.
End ServiceFacts.

(** X26.  After any sequence of calls and settlements, the analyses
    started are those settled followed by the one running, if any.  If the
    running analysis and then each analysis started after it settles, the
    engine ends idle with an empty queue, and the requests settled are
    exactly the requests received, in the order of the calls: none is lost,
    none is served twice, none overtakes another. *)
Theorem X26_every_request_is_served :
  forall (Request : Type) (actions : list (Coordinator.Action Request)),
    let e := Coordinator.run actions in
    let e' :=
      MoreProps.settle_all
        (length (Coordinator.running e) + length (Coordinator.processingQueue e))
        e in
    Coordinator.started (Coordinator.log e)
    = Coordinator.settled (Coordinator.log e) ++ Coordinator.running e /\
    Coordinator.isProcessing e' = false /\
    Coordinator.running e' = [] /\
    Coordinator.processingQueue e' = [] /\
    Coordinator.settled (Coordinator.log e')
    = Coordinator.called (Coordinator.log e).
Proof.
  intros Request actions e e'.
  pose proof (ServiceFacts.started_run actions) as Hs. fold e in Hs.
  split; [exact Hs|].
  destruct (CoordinatorFacts.invariant_run actions)
    as [[(Hp & Hr & Hq & _)|(Hp & r0 & Hr & _)] Hc]; fold e in Hp, Hr, Hc.
  - fold e in Hq. unfold e'. rewrite Hr, Hq. cbn [length Nat.add].
    unfold MoreProps.settle_all. cbn [repeat fold_left].
    repeat split; try assumption.
    rewrite Hc, Hs, Hr, Hq. now rewrite !app_nil_r.
  - unfold e'. rewrite Hr. cbn [length Nat.add].
    destruct e as [q p rn l]. cbn [Coordinator.isProcessing Coordinator.running
      Coordinator.processingQueue Coordinator.log] in *. subst p rn.
    destruct (ServiceFacts.drain q r0 l) as (H1 & H2 & H3 & H4 & H5).
    repeat split; try assumption.
    rewrite H4, Hc, Hs. now rewrite <- app_assoc.
Qed.

(** X27.  Stopping the video engine while an analysis runs breaks the
    single flight: the flag is lowered although the analysis goes on, so the
    next request starts at once and two analyses run side by side; and the
    requests that were waiting are dropped from the queue without being
    started or settled.  When the first analysis settles the flag is lowered
    again although the second one still runs. *)
Theorem X27_stop_during_an_analysis :
  forall (Request : Type) (actions : list (Coordinator.Action Request))
         (r r' : Request),
    let e := Coordinator.run actions in
    Coordinator.running e = [r] ->
    let e' := Coordinator.analyze r' (VideoLifecycle.doStop e) in
    Coordinator.running e' = [r; r'] /\
    Coordinator.processingQueue e' = [] /\
    Coordinator.log e'
    = Coordinator.log e
      ++ [Coordinator.analyze_called r'; Coordinator.analysis_started r'] /\
    Coordinator.isProcessing (Coordinator.settle 0 e') = false /\
    Coordinator.running (Coordinator.settle 0 e') = [r'].
Proof.
  intros Request actions r r' e Hr e'. unfold e', VideoLifecycle.doStop.
  unfold Coordinator.analyze, Coordinator.processQueue.
  cbn [Coordinator.isProcessing Coordinator.processingQueue Coordinator.running
       Coordinator.log orb app length Nat.eqb].
  rewrite Hr. cbn [app]. unfold Coordinator.settle.
  cbn [Coordinator.running Coordinator.processingQueue nth_error
       Coordinator.remove_at length Nat.ltb Nat.leb Coordinator.isProcessing].
  repeat split. now rewrite <- app_assoc.
Qed.

Lemma X27_stop_during_an_analysis_witness :
  let e := Coordinator.run [Coordinator.do_analyze 1%nat; Coordinator.do_analyze 2%nat] in
  let e' := Coordinator.analyze 3%nat (VideoLifecycle.doStop e) in
  Coordinator.running e' = [1%nat; 3%nat] /\
  Coordinator.processingQueue e' = [] /\
  Coordinator.log e'
  = Coordinator.log e
    ++ [Coordinator.analyze_called 3%nat; Coordinator.analysis_started 3%nat] /\
  Coordinator.isProcessing (Coordinator.settle 0 e') = false /\
  Coordinator.running (Coordinator.settle 0 e') = [3%nat].
Proof.
  apply (X27_stop_during_an_analysis nat
           [Coordinator.do_analyze 1%nat; Coordinator.do_analyze 2%nat]
           1%nat 3%nat).
  reflexivity.
Defined.

(** ** The event system *)

Module EventFacts.
Import BaseService.

Lemma get_update_same (eventType : string) (f : list Listener -> list Listener)
    (listeners : Listeners) :
  get eventType (update eventType f listeners)
  = option_map f (get eventType listeners).
Proof.
  induction listeners as [|[key set] rest IH]; cbn [update get]; [reflexivity|].
  destruct (String.eqb key eventType) eqn:E; cbn [get]; rewrite E;
    [reflexivity|exact IH].
Qed.

Lemma get_update_other (eventType other : string)
    (f : list Listener -> list Listener) (listeners : Listeners) :
  other <> eventType ->
  get other (update eventType f listeners) = get other listeners.
Proof.
  intro Hne. induction listeners as [|[key set] rest IH]; cbn [update get];
    [reflexivity|].
  destruct (String.eqb key eventType) eqn:E; cbn [get].
  - apply String.eqb_eq in E. subst key.
    destruct (String.eqb_spec eventType other); [congruence|reflexivity].
  - now rewrite IH.
Qed.

Lemma get_app (eventType : string) (l1 l2 : Listeners) :
  get eventType (l1 ++ l2)
  = match get eventType l1 with
    | Some set => Some set
    | None => get eventType l2
    end.
Proof.
  induction l1 as [|[key set] rest IH]; cbn [app get]; [reflexivity|].
  destruct (String.eqb key eventType); [reflexivity|exact IH].
Qed.

Lemma has_get (eventType : string) (listeners : Listeners) :
  has eventType listeners = true <-> get eventType listeners <> None.
Proof.
  unfold has. induction listeners as [|[key set] rest IH]; cbn [existsb get fst].
  - split; [discriminate|congruence].
  - destruct (String.eqb key eventType); cbn [orb]; [|exact IH].
    split; [discriminate|reflexivity].
Qed.

Lemma update_update (eventType : string) (f g : list Listener -> list Listener)
    (listeners : Listeners) :
  update eventType f (update eventType g listeners)
  = update eventType (fun set => f (g set)) listeners.
Proof.
  induction listeners as [|[key set] rest IH]; cbn [update]; [reflexivity|].
  destruct (String.eqb key eventType) eqn:E; cbn [update]; rewrite E;
    [reflexivity|now rewrite IH].
Qed.

Lemma update_ext (eventType : string) (f g : list Listener -> list Listener)
    (listeners : Listeners) :
  (forall set, f set = g set) ->
  update eventType f listeners = update eventType g listeners.
Proof.
  intro H. induction listeners as [|[key set] rest IH]; cbn [update];
    [reflexivity|].
  destruct (String.eqb key eventType); [now rewrite H|now rewrite IH].
Qed.

Lemma in_set (listener : Listener) (set : list Listener) :
  existsb (Nat.eqb listener) set = true <-> In listener set.
Proof.
  rewrite existsb_exists. split.
  - intros (l & Hl & E). apply Nat.eqb_eq in E. now subst.
  - intro H. exists listener. split; [exact H|apply Nat.eqb_refl].
Qed.

Lemma set_add_in (listener : Listener) (set : list Listener) :
  In listener (set_add listener set).
Proof.
  unfold set_add. destruct (existsb (Nat.eqb listener) set) eqn:E.
  - now apply in_set.
  - apply in_or_app. right. now left.
Qed.

Lemma set_add_twice (listener : Listener) (set : list Listener) :
  set_add listener (set_add listener set) = set_add listener set.
Proof.
  unfold set_add at 1.
  now rewrite (proj2 (in_set listener (set_add listener set))
                 (set_add_in listener set)).
Qed.

Lemma set_add_NoDup (listener : Listener) (set : list Listener) :
  NoDup set -> NoDup (set_add listener set).
Proof.
  intro H. unfold set_add.
  destruct (existsb (Nat.eqb listener) set) eqn:E; [exact H|].
  apply NoDup_app; [exact H|repeat constructor; intros []|].
  intros l Hl [<-|[]]. apply in_set in Hl. congruence.
Qed.

Lemma set_delete_out (listener : Listener) (set : list Listener) :
  ~ In listener (set_delete listener set).
Proof.
  unfold set_delete. intro H. apply filter_In in H. destruct H as [_ H].
  now rewrite Nat.eqb_refl in H.
Qed.

Lemma set_delete_NoDup (listener : Listener) (set : list Listener) :
  NoDup set -> NoDup (set_delete listener set).
Proof. apply NoDup_filter. Qed.

(** After [on], the map has an entry for the event type. *)
Lemma entry_after_on (eventType : string) (listeners : Listeners) :
  get eventType (if negb (has eventType listeners)
                 then listeners ++ [(eventType, [])] else listeners)
  = Some (listeners_of eventType listeners).
Proof.
  unfold listeners_of. pose proof (has_get eventType listeners) as H.
  destruct (has eventType listeners); cbn [negb].
  - destruct (get eventType listeners); [reflexivity|].
    exfalso. now apply (proj1 H).
  - rewrite get_app. destruct (get eventType listeners) as [set|].
    + exfalso. assert (false = true) by (apply H; discriminate). discriminate.
    + cbn [get]. now rewrite String.eqb_refl.
Qed.

Lemma listeners_of_on (eventType : string) (listener : Listener)
    (listeners : Listeners) :
  listeners_of eventType (on eventType listener listeners)
  = set_add listener (listeners_of eventType listeners).
Proof.
  unfold on. cbv zeta. unfold listeners_of at 1.
  now rewrite get_update_same, entry_after_on.
Qed.

Lemma listeners_of_off (eventType : string) (listener : Listener)
    (listeners : Listeners) :
  listeners_of eventType (off eventType listener listeners)
  = set_delete listener (listeners_of eventType listeners).
Proof.
  unfold off, listeners_of. destruct (get eventType listeners) as [set|] eqn:E.
  - now rewrite get_update_same, E.
  - now rewrite E.
Qed.

Lemma listeners_of_on_other (eventType other : string) (listener : Listener)
    (listeners : Listeners) :
  other <> eventType ->
  listeners_of other (on eventType listener listeners)
  = listeners_of other listeners.
Proof.
  intro Hne. unfold on, listeners_of. cbv zeta.
  rewrite get_update_other by exact Hne.
  destruct (negb (has eventType listeners)); [|reflexivity].
  rewrite get_app. destruct (get other listeners); [reflexivity|].
  cbn [get]. destruct (String.eqb eventType other) eqn:E; [|reflexivity].
  apply String.eqb_eq in E. congruence.
Qed.

Lemma listeners_of_off_other (eventType other : string) (listener : Listener)
    (listeners : Listeners) :
  other <> eventType ->
  listeners_of other (off eventType listener listeners)
  = listeners_of other listeners.
Proof.
  intro Hne. unfold off, listeners_of.
  destruct (get eventType listeners); [|reflexivity].
  now rewrite get_update_other by exact Hne.
Qed.

Lemma on_twice (eventType : string) (listener : Listener) (listeners : Listeners) :
  on eventType listener (on eventType listener listeners)
  = on eventType listener listeners.
Proof.
  unfold on at 1. cbv zeta.
  assert (H : has eventType (on eventType listener listeners) = true).
  { apply has_get. unfold on. cbv zeta.
    rewrite get_update_same, entry_after_on. discriminate. }
  rewrite H. cbn [negb]. unfold on. cbv zeta. rewrite update_update.
  apply update_ext. intro set. apply set_add_twice.
Qed.

(** No set of the map holds a listener twice. *)
Lemma sets_after (calls : list Call) (eventType : string) :
  NoDup (listeners_of eventType (after calls)).
Proof.
  unfold after. induction calls as [|c calls IH] using rev_ind.
  - constructor.
  - rewrite fold_left_app. cbn [fold_left].
    destruct c as [t l|t l]; cbn [call];
      destruct (String.eqb_spec eventType t) as [->|Hne].
    + rewrite listeners_of_on. now apply set_add_NoDup.
    + now rewrite listeners_of_on_other.
    + rewrite listeners_of_off. now apply set_delete_NoDup.
    + now rewrite listeners_of_off_other.
Qed.

End EventFacts.

(** X28.  The event system, after any sequence of [on] and [off] calls:
    [emit] invokes each listener registered for the event type once, however
    often it was registered; a listener just registered is invoked, one just
    removed is not (unless it also listens to "*"); registering again changes
    nothing; [on] and [off] for one event type leave the listeners of every
    other type as they are; and emitting the type "*" itself invokes every
    "*" listener twice. *)
Theorem X28_event_listeners :
  forall (calls : list BaseService.Call) (eventType : string)
         (listener : BaseService.Listener),
    let listeners := BaseService.after calls in
    NoDup (BaseService.listeners_of eventType listeners) /\
    In listener (BaseService.emit eventType
                   (BaseService.on eventType listener listeners)) /\
    ~ In listener (BaseService.listeners_of eventType
                     (BaseService.off eventType listener listeners)) /\
    BaseService.on eventType listener
      (BaseService.on eventType listener listeners)
    = BaseService.on eventType listener listeners /\
    (forall other : string,
        other <> eventType ->
        BaseService.listeners_of other
          (BaseService.on eventType listener listeners)
        = BaseService.listeners_of other listeners /\
        BaseService.listeners_of other
          (BaseService.off eventType listener listeners)
        = BaseService.listeners_of other listeners) /\
    BaseService.emit "*" listeners
    = BaseService.listeners_of "*" listeners
      ++ BaseService.listeners_of "*" listeners.
Proof.
  intros calls eventType listener listeners.
  split; [apply EventFacts.sets_after|].
  split.
  { unfold BaseService.emit. apply in_or_app. left.
    rewrite EventFacts.listeners_of_on. apply EventFacts.set_add_in. }
  split.
  { rewrite EventFacts.listeners_of_off. apply EventFacts.set_delete_out. }
  split; [apply EventFacts.on_twice|].
  split; [|reflexivity].
  intros other Hne. split.
  - now apply EventFacts.listeners_of_on_other.
  - now apply EventFacts.listeners_of_off_other.
Qed.

(** ** Quality of a clip *)

Module ClipQualityFacts.
Import VideoEngine.

Lemma frame_in_clip (frames : list ImageData) (i : nat) :
  MoreProps.clip frames -> (i < length frames)%nat ->
  MoreProps.frame_ok (frame_at frames i).
Proof.
  intros [H _] Hi. rewrite Forall_forall in H. apply H.
  unfold frame_at. now apply nth_In.
Qed.

Lemma computeStability_range (frame1 frame2 : ImageData) :
  MoreProps.frame_ok frame1 -> MoreProps.frame_ok frame2 ->
  (0 <= computeStability frame1 frame2 <= 1)%R.
Proof.
  intros H1 H2.
  pose proof (DifferenceFacts.computeFrameDifference_range frame1 frame2
                (FrameFacts.frame_ok_bytes _ H1) (FrameFacts.frame_ok_bytes _ H2)
                (FrameFacts.frame_ok_nonempty _ H1)) as Hd.
  unfold computeStability. split; [apply Rmax_l|apply Rmax_lub; lra].
Qed.

(** The three running totals of [analyzeQuality] over the frames after the
    first one. *)
Lemma totals_fold (frames : list ImageData) :
  MoreProps.clip frames ->
  forall (l : list nat) (acc : Q * R * Q) (k : nat),
    Forall (fun i => (1 <= i < length frames)%nat) l ->
    (let '(s, st, n) := acc in
     0 <= s <= 4 * (inject_Z (Z.of_nat k) + 1) /\
     (0 <= st <= INR k)%R /\
     0 <= n <= inject_Z (Z.of_nat k) + 1) ->
    let '(s, st, n) :=
      fold_left (fun acc index =>
                   let '(totalSharpness, totalStability, totalNoise) := acc in
                   let frame := frame_at frames index in
                   let sharpness := computeSharpness frame in
                   let noise := computeNoise frame in
                   ((totalSharpness + sharpness)%Q,
                    (if (0 <? index)%nat
                     then totalStability
                          + computeStability (frame_at frames (index - 1)) frame
                     else totalStability)%R,
                    (totalNoise + noise)%Q))
                l acc in
    0 <= s <= 4 * (inject_Z (Z.of_nat (k + length l)) + 1) /\
    (0 <= st <= INR (k + length l))%R /\
    0 <= n <= inject_Z (Z.of_nat (k + length l)) + 1.
Proof.
  intro Hclip. induction l as [|i l IH]; intros [[s st] n] k Hl Hacc;
    cbn [fold_left length].
  - now rewrite Nat.add_0_r.
  - inversion Hl as [|? ? Hi Hl']; subst.
    replace (k + S (length l))%nat with (S k + length l)%nat by lia.
    apply IH; [exact Hl'|]. cbv zeta.
    destruct Hacc as (Hs & Hst & Hn).
    pose proof (frame_in_clip frames i Hclip ltac:(lia)) as Hok.
    pose proof (frame_in_clip frames (i - 1) Hclip ltac:(lia)) as Hok'.
    pose proof (QualityFacts.computeSharpness_range _
                  (FrameFacts.frame_ok_bytes _ Hok)).
    pose proof (QualityFacts.computeNoise_range _
                  (FrameFacts.frame_ok_bytes _ Hok)).
    pose proof (computeStability_range _ _ Hok' Hok).
    replace (0 <? i)%nat with true by (symmetry; apply Nat.ltb_lt; lia).
    rewrite Nat2Z.inj_succ, <- Z.add_1_r, inject_Z_plus, S_INR.
    change (inject_Z 1) with 1.
    repeat split; try Lqa.lra; lra.
Qed.

Lemma Q2R_range (q : Q) (M : Z) :
  0 <= q <= inject_Z M -> (0 <= Q2R q <= IZR M)%R.
Proof.
  intros [H0 H1]. apply Qle_Rle in H0, H1.
  replace (Q2R 0) with 0%R in H0 by (unfold Q2R; simpl; lra).
  replace (Q2R (inject_Z M)) with (IZR M) in H1
    by (unfold Q2R, inject_Z; simpl; lra).
  split; assumption.
Qed.

End ClipQualityFacts.

(** X29.  For the frames of one video (at least one), [analyzeQuality]
    reports a sharpness between 0 and 4, a stability and a noise between 0
    and 1, and an overall quality between 0 and 2; for a single frame the
    stability is 1. *)
Theorem X29_quality_analysis_ranges :
  forall frames : list VideoEngine.ImageData,
    frames <> [] -> MoreProps.clip frames ->
    let quality := VideoEngine.analyzeQuality frames in
    0 <= VideoEngine.quality_sharpness quality <= 4 /\
    (0 <= VideoEngine.quality_stability quality <= 1)%R /\
    0 <= VideoEngine.quality_noise quality <= 1 /\
    (0 <= VideoEngine.quality_overall quality <= 2)%R /\
    (length frames = 1%nat -> VideoEngine.quality_stability quality = 1%R).
Proof.
  intros frames Hne Hclip quality. unfold quality, VideoEngine.analyzeQuality.
  destruct frames as [|frame0 rest] eqn:Ef; [congruence|]. rewrite <- Ef in *.
  assert (Hlen : length frames = S (length rest)) by (now rewrite Ef).
  rewrite Hlen. cbn [seq fold_left]. rewrite <- Hlen.
  pose proof (ClipQualityFacts.frame_in_clip frames 0 Hclip ltac:(lia)) as Hok0.
  pose proof (QualityFacts.computeSharpness_range _
                (FrameFacts.frame_ok_bytes _ Hok0)) as Hs0.
  pose proof (QualityFacts.computeNoise_range _
                (FrameFacts.frame_ok_bytes _ Hok0)) as Hn0.
  cbv zeta. change (0 <? 0)%nat with false. cbv iota.
  pose proof (ClipQualityFacts.totals_fold frames Hclip (seq 1 (length rest))
                ((0 + VideoEngine.computeSharpness (VideoEngine.frame_at frames 0))%Q,
                 0%R,
                 (0 + VideoEngine.computeNoise (VideoEngine.frame_at frames 0))%Q)
                0%nat) as G.
  destruct (fold_left _ (seq 1 (length rest)) _) as [[s st] n].
  destruct G as (Gs & Gst & Gn).
  { apply Forall_forall. intros i Hi. apply in_seq in Hi. lia. }
  { change (inject_Z (Z.of_nat 0)) with 0. cbn [INR].
    repeat split; try Lqa.lra; lra. }
  rewrite length_seq, Nat.add_0_l in Gs, Gst, Gn.
  cbn [VideoEngine.quality_sharpness VideoEngine.quality_stability
       VideoEngine.quality_noise VideoEngine.quality_overall].
  assert (Hq : 0 < inject_Z (Z.of_nat (length frames))).
  { rewrite <- (Zlt_Qlt 0). lia. }
  assert (Hk : inject_Z (Z.of_nat (length rest)) + 1
               == inject_Z (Z.of_nat (length frames))).
  { rewrite Hlen, Nat2Z.inj_succ, <- Z.add_1_r, inject_Z_plus. reflexivity. }
  rewrite Hk in Gs, Gn.
  assert (Rs : 0 <= s / inject_Z (Z.of_nat (length frames)) <= 4).
  { split.
    - apply Qle_shift_div_l; [exact Hq|]. rewrite Qmult_0_l. apply Gs.
    - apply Qle_shift_div_r; [exact Hq|]. apply Gs. }
  assert (Rn : 0 <= n / inject_Z (Z.of_nat (length frames)) <= 1).
  { split.
    - apply Qle_shift_div_l; [exact Hq|]. rewrite Qmult_0_l. apply Gn.
    - apply Qle_shift_div_r; [exact Hq|]. rewrite Qmult_1_l. apply Gn. }
  assert (Rst : (0 <= (if (1 <? length frames)%nat
                       then st / INR (length frames - 1) else 1) <= 1)%R).
  { destruct (1 <? length frames)%nat eqn:E; [|lra].
    apply Nat.ltb_lt in E.
    replace (length frames - 1)%nat with (length rest) by lia.
    assert (0 < INR (length rest))%R by (apply lt_0_INR; lia).
    split.
    - apply Rmult_le_pos; [apply Gst|]. left. now apply Rinv_0_lt_compat.
    - apply Rmult_le_reg_r with (INR (length rest)); [assumption|].
      unfold Rdiv. rewrite Rmult_assoc, Rinv_l by lra. lra. }
  split; [exact Rs|]. split; [exact Rst|]. split; [exact Rn|].
  split.
  - pose proof (ClipQualityFacts.Q2R_range _ 4 Rs).
    pose proof (ClipQualityFacts.Q2R_range _ 1 Rn).
    lra.
  - intro H1. now rewrite H1.
Qed.

Lemma X29_quality_analysis_ranges_witness :
  let quality :=
    VideoEngine.analyzeQuality
      [VideoEngine.mkImageData 1 1 [255; 255; 255; 255]%Z;
       VideoEngine.mkImageData 1 1 [0; 0; 0; 255]%Z] in
  0 <= VideoEngine.quality_sharpness quality <= 4 /\
  (0 <= VideoEngine.quality_stability quality <= 1)%R /\
  0 <= VideoEngine.quality_noise quality <= 1 /\
  (0 <= VideoEngine.quality_overall quality <= 2)%R /\
  (2%nat = 1%nat -> VideoEngine.quality_stability quality = 1%R).
Proof.
  apply (X29_quality_analysis_ranges
           [VideoEngine.mkImageData 1 1 [255; 255; 255; 255]%Z;
            VideoEngine.mkImageData 1 1 [0; 0; 0; 255]%Z]).
  - discriminate.
  - split.
    + repeat (apply Forall_cons;
              [repeat split; repeat (apply Forall_cons; [cbn; lia|]);
               apply Forall_nil|]).
      apply Forall_nil.
    + intros frame1 frame2 [<-|[<-|[]]] [<-|[<-|[]]]; split; reflexivity.
Defined.
